(** * Verification of the pulse mobile client: authentication service,
    authenticated request layer and upload destination store.

    Sources: [src/unnamed/part_005] (AuthService), [src/services/ApiClient.js]
    (request/response interceptors), [src/unnamed/part_000]
    (uploadDestinations), [src/screens/LoginScreen.js] (handleLogin). *)

From Stdlib Require Import ZArith Ascii String List Bool Lia.
From Stdlib Require Strings.Byte.
From stdpp Require Import base gmap strings list fin_maps.

Import ListNotations.
Open Scope string_scope.
Open Scope Z_scope.

(* ===================================================================== *)
(** ** Secure credential store (expo-secure-store) *)
(* ===================================================================== *)

(** SecureStore: string keys, string values. *)
Abbreviation store := (gmap string string).

(** Results of a call that may throw. *)
Inductive result (A : Type) : Type :=
| Ok (a : A)
| Err (e : string).
Arguments Ok {A} a.
Arguments Err {A} e.

(** The async methods of AuthService, as explicit state passing over the
    store with exceptions. A thrown exception keeps the writes done before it. *)
Definition M (A : Type) : Type := store -> result A * store.

Definition ret {A} (a : A) : M A := fun s => (Ok a, s).
Definition throw {A} (e : string) : M A := fun s => (Err e, s).
Definition bind {A B} (m : M A) (k : A -> M B) : M B :=
  fun s => match m s with
           | (Ok a, s') => k a s'
           | (Err e, s') => (Err e, s')
           end.
Definition try_catch {A} (m : M A) (h : string -> M A) : M A :=
  fun s => match m s with
           | (Err e, s') => h e s'
           | r => r
           end.

Notation "x <-- m ;; k" := (bind m (fun x => k))
  (at level 65, m at next level, right associativity).
Notation "m ;;; k" := (bind m (fun _ => k))
  (at level 65, right associativity).

Definition getItemAsync (k : string) : M (option string) :=
  fun s => (Ok (s !! k), s).
Definition setItemAsync (k v : string) : M unit :=
  fun s => (Ok tt, <[k := v]> s).
Definition deleteItemAsync (k : string) : M unit :=
  fun s => (Ok tt, delete k s).

(** JavaScript truthiness of a string and of a (non-NaN) number. *)
Definition str_truthy (s : string) : bool := negb (String.eqb s "").
Definition opt_truthy (o : option string) : bool :=
  match o with Some s => str_truthy s | None => false end.
Definition num_truthy (z : Z) : bool := negb (Z.eqb z 0).

(** [SECURE_STORE_KEYS], as [Object.entries] lists it (insertion order). *)
Definition VAULT_URL := "auth_vault_url".
Definition CODE_VERIFIER := "auth_code_verifier".
Definition STATE := "auth_state".
Definition ACCESS_TOKEN := "auth_access_token".
Definition REFRESH_TOKEN := "auth_refresh_token".
Definition TOKEN_EXPIRY := "auth_token_expiry".
Definition DEVICE_ID := "auth_device_id".

Definition SECURE_STORE_KEYS : list (string * string) :=
  [("VAULT_URL", VAULT_URL); ("CODE_VERIFIER", CODE_VERIFIER);
   ("STATE", STATE); ("ACCESS_TOKEN", ACCESS_TOKEN);
   ("REFRESH_TOKEN", REFRESH_TOKEN); ("TOKEN_EXPIRY", TOKEN_EXPIRY);
   ("DEVICE_ID", DEVICE_ID)].

(** EXPIRY_BUFFER_MS = 60 * 1000 *)
Definition EXPIRY_BUFFER_MS : Z := 60 * 1000.

(** Sequential run of independent writes ([Promise.all] over distinct keys). *)
Fixpoint run_all (ms : list (M unit)) : M unit :=
  match ms with
  | [] => ret tt
  | m :: rest => m ;;; run_all rest
  end.

(* --------------------------------------------------------------------- *)
(** *** Decimal numbers as strings: [String(n)] and [Number(s)] *)
(* --------------------------------------------------------------------- *)

Definition digit_char (d : Z) : ascii := ascii_of_nat (48 + Z.to_nat d)%nat.

Fixpoint N_digits (fuel : nat) (n : Z) (acc : string) : string :=
  match fuel with
  | O => acc
  | S f =>
      let acc' := String (digit_char (n mod 10)) acc in
      if Z.ltb n 10 then acc' else N_digits f (n / 10) acc'
  end.

(** [String(n)] for an integer [n]. The fuel (binary length) bounds the
    number of decimal digits. *)
Definition Z_to_string (z : Z) : string :=
  let n := Z.abs z in
  let ds := N_digits (S (Pos.size_nat (Z.to_pos (n + 1)))) n "" in
  if Z.ltb z 0 then String "-" ds else ds.

Definition char_digit (c : ascii) : option Z :=
  let n := nat_of_ascii c in
  if (48 <=? n)%nat && (n <=? 57)%nat then Some (Z.of_nat (n - 48)%nat) else None.

Fixpoint parse_digits (s : string) (acc : Z) : option Z :=
  match s with
  | EmptyString => Some acc
  | String c rest =>
      match char_digit c with
      | Some d => parse_digits rest (acc * 10 + d)
      | None => None
      end
  end.

(** [Number(s)] on the decimal integers that the code writes
    ([None] stands for NaN; fractions and exponents are outside the model). *)
Definition js_Number (s : string) : option Z :=
  match s with
  | EmptyString => Some 0
  | String "-" (String _ _ as rest) => option_map Z.opp (parse_digits rest 0)
  | String _ _ => parse_digits s 0
  end.

(* ===================================================================== *)
(** ** AuthService *)
(* ===================================================================== *)

(** A token response body [{ access_token, refresh_token?, expires_in? }]. *)
Record TokenPayload := {
  access_token : option string;
  refresh_token : option string;
  expires_in : option Z
}.

(** Values that come from outside the program during one call: the clock,
    the platform device identifiers, [Crypto.randomUUID()] and the answers
    of the vault's token endpoints. *)
Record Env := {
  env_now : Z;
  env_native_id : option string;
  env_uuid : string;
  env_exchange_response : result TokenPayload;
  env_refresh_response : result TokenPayload
}.

(** [storeTokens(tokens)] *)
Definition storeTokens (now : Z) (tokens : TokenPayload) : M unit :=
  match access_token tokens with
  | Some at_ =>
      if negb (str_truthy at_) then throw "Token response is missing access_token."
      else
        let expiresAt :=
          match expires_in tokens with
          | Some e => if num_truthy e then Some (Z_to_string (now + e * 1000)) else None
          | None => None
          end in
        let writes :=
          ([setItemAsync ACCESS_TOKEN at_]
          ++ (match refresh_token tokens with
              | Some rt => if str_truthy rt then [setItemAsync REFRESH_TOKEN rt] else []
              | None => []
              end)
          ++ (match expiresAt with
              | Some x => if str_truthy x then [setItemAsync TOKEN_EXPIRY x] else []
              | None => []
              end))%list in
        run_all writes
  | None => throw "Token response is missing access_token."
  end.

(** [logout()]: every key of SECURE_STORE_KEYS whose name is not DEVICE_ID. *)
Definition logout_keys : list string :=
  map snd (filter (fun '(name, _) => negb (String.eqb name "DEVICE_ID")) SECURE_STORE_KEYS).

Definition logout : M unit :=
  run_all (map deleteItemAsync logout_keys).

(** [clearStoredAuthData()]: every value of SECURE_STORE_KEYS. *)
Definition clearStoredAuthData : M unit :=
  run_all (map (fun '(_, key) => deleteItemAsync key) SECURE_STORE_KEYS).

(** [getDeviceId()] *)
Definition getDeviceId (env : Env) : M string :=
  stored <-- getItemAsync DEVICE_ID ;;
  match stored with
  | Some d => if str_truthy d then ret d else
      let deviceId := match env_native_id env with Some n => n | None => env_uuid env end in
      setItemAsync DEVICE_ID deviceId ;;; ret deviceId
  | None =>
      let deviceId := match env_native_id env with Some n => n | None => env_uuid env end in
      setItemAsync DEVICE_ID deviceId ;;; ret deviceId
  end.

(** [refreshToken()]: the POST to [{vault}/oauth/token/refresh] answers
    [env_refresh_response]; a transport or server error is rethrown. *)
Definition refreshToken (env : Env) : M unit :=
  vaultUrl <-- getItemAsync VAULT_URL ;;
  rt <-- getItemAsync REFRESH_TOKEN ;;
  if negb (opt_truthy vaultUrl) then throw "No vault URL found - cannot refresh token."
  else if negb (opt_truthy rt) then throw "No refresh token found - user must log in again."
  else
    _deviceId <-- getDeviceId env ;;
    match env_refresh_response env with
    | Err e => throw e
    | Ok data => storeTokens (env_now env) data
    end.

(** The test [expiresAt && Date.now() >= Number(expiresAt) - EXPIRY_BUFFER_MS]
    (a comparison with NaN is false). *)
Definition isExpiringSoon (now : Z) (expiresAt : option string) : bool :=
  match expiresAt with
  | Some x =>
      if str_truthy x then
        match js_Number x with
        | Some e => Z.leb (e - EXPIRY_BUFFER_MS) now
        | None => false
        end
      else false
  | None => false
  end.

(** [getAccessToken()] *)
Definition getAccessToken (env : Env) : M (option string) :=
  accessToken <-- getItemAsync ACCESS_TOKEN ;;
  expiresAt <-- getItemAsync TOKEN_EXPIRY ;;
  if negb (opt_truthy accessToken) then ret None
  else if negb (isExpiringSoon (env_now env) expiresAt) then ret accessToken
  else try_catch (refreshToken env ;;; getItemAsync ACCESS_TOKEN)
                 (fun _ => logout ;;; ret None).

(** [isAuthenticated()] *)
Definition isAuthenticated : M bool :=
  token <-- getItemAsync ACCESS_TOKEN ;;
  ret (match token with Some _ => true | None => false end).

(** [URLSearchParams.get]: the first value of the key. *)
Fixpoint params_get (ps : list (string * string)) (k : string) : option string :=
  match ps with
  | [] => None
  | (k', v) :: rest => if String.eqb k k' then Some v else params_get rest k
  end.

(** [handleCallback(url)], on the query parameters of the parsed URL. *)
Definition handleCallback (params : list (string * string)) : M string :=
  let serverError := params_get params "error" in
  if opt_truthy serverError then
    let description :=
      match params_get params "error_description" with
      | Some d => d
      | None => match serverError with Some e => e | None => "" end
      end in
    throw ("Authorization error: " ++ description)
  else
  let code := params_get params "code" in
  let returnedState := params_get params "state" in
  if negb (opt_truthy code) then throw "Callback URL is missing the authorization code."
  else if negb (opt_truthy returnedState) then throw "Callback URL is missing the state parameter."
  else
    storedState <-- getItemAsync STATE ;;
    if negb (bool_decide (returnedState = storedState))
    then throw "State mismatch - possible CSRF attack detected."
    else ret (match code with Some c => c | None => "" end).

(** [str.replace(/\/$/, '')]: drop one trailing slash. *)
Fixpoint strip_trailing_slash (s : string) : string :=
  match s with
  | EmptyString => EmptyString
  | String c EmptyString => if Ascii.eqb c "/"%char then EmptyString else String c EmptyString
  | String c rest => String c (strip_trailing_slash rest)
  end.

(** The JSON body POSTed to [{vault}/oauth/token] by [exchangeCodeForToken]. *)
Record TokenRequest := {
  req_url : string;
  req_code : string;
  req_code_verifier : string;
  req_device_id : string
}.

(** [exchangeCodeForToken(code)] up to the POST: the request it sends. *)
Definition exchangeRequest (env : Env) (code : string) : M TokenRequest :=
  vaultUrl <-- getItemAsync VAULT_URL ;;
  codeVerifier <-- getItemAsync CODE_VERIFIER ;;
  match vaultUrl with
  | Some v =>
      if negb (str_truthy v) then throw "No vault URL found in secure storage."
      else
        match codeVerifier with
        | Some cv =>
            if negb (str_truthy cv) then throw "No code_verifier found in secure storage."
            else
              deviceId <-- getDeviceId env ;;
              ret {| req_url := strip_trailing_slash v ++ "/oauth/token";
                     req_code := code; req_code_verifier := cv; req_device_id := deviceId |}
        | None => throw "No code_verifier found in secure storage."
        end
  | None => throw "No vault URL found in secure storage."
  end.

(** The success branch of [handleLogin] in LoginScreen.js, from the callback
    URL's query parameters on: handleCallback, exchangeCodeForToken,
    storeTokens, then [getStoredCodeVerifier().then(() => clearStoredAuthData())].
    The third component lists the requests sent to the token endpoint. *)
Definition handleLogin_callback (env : Env) (params : list (string * string)) (s : store)
  : result unit * store * list TokenRequest :=
  match handleCallback params s with
  | (Err e, s1) => (Err e, s1, [])
  | (Ok code, s1) =>
      match exchangeRequest env code s1 with
      | (Err e, s2) => (Err e, s2, [])
      | (Ok req, s2) =>
          match env_exchange_response env with
          | Err e => (Err e, s2, [req])
          | Ok tokens =>
              let (r, s3) :=
                (storeTokens (env_now env) tokens ;;;
                 _cv <-- getItemAsync CODE_VERIFIER ;;
                 clearStoredAuthData) s2 in
              (r, s3, [req])
          end
      end
  end.

Definition delete_all (ks : list string) (s : store) : store :=
  fold_left (fun m k => delete k m) ks s.

(* --------------------------------------------------------------------- *)
(** *** Concrete inputs *)
(* --------------------------------------------------------------------- *)

Definition env0 : Env := {|
  env_now := 1000;
  env_native_id := Some "android-id";
  env_uuid := "uuid-1";
  env_exchange_response := Ok {| access_token := Some "at1"; refresh_token := Some "rt1";
                                 expires_in := Some 3600 |};
  env_refresh_response := Ok {| access_token := Some "at2"; refresh_token := None;
                                expires_in := Some 3600 |}
|}.

Definition login_store0 : store :=
  {[ STATE := "S1"; VAULT_URL := "https://vault.example.com/"; CODE_VERIFIER := "cv";
     DEVICE_ID := "android-id" ]}.

Definition login_params0 : list (string * string) := [("code", "ABC"); ("state", "S1")].

Definition token_store0 (expiry : Z) : store :=
  {[ ACCESS_TOKEN := "at1"; TOKEN_EXPIRY := Z_to_string expiry;
     REFRESH_TOKEN := "rt1"; VAULT_URL := "https://vault.example.com" ]}.

(** The id [getDeviceId()] generates when none is stored. *)
Definition device_id_of (env : Env) : string :=
  match env_native_id env with Some n => n | None => env_uuid env end.

(* ===================================================================== *)
(** ** ApiClient response interceptor: isRefreshing / refreshQueue *)
(* ===================================================================== *)

Module Interceptor.

(** The outcome handed to a request's continuation. *)
Inductive outcome :=
| Resolved (newToken : string)
| Rejected (err : string).

(** Where the async error handler of one request stands. A request whose
    handler suspends on [new Promise(...)] is [Queued]; the owner of the
    refresh suspends on [await AuthService.refreshToken()], then on
    [await AuthService.getAccessToken()] or, after a failure, on
    [await AuthService.logout()]. *)
Inductive pc :=
| Got401                (** a 401 / token_expired response, handler not yet run *)
| Queued                (** continuation pushed on refreshQueue *)
| AwaitRefresh          (** owner: [await AuthService.refreshToken()] *)
| AwaitGetToken         (** owner: [await AuthService.getAccessToken()] *)
| AwaitLogout (err : string)  (** owner: [await AuthService.logout()] in catch *)
| Done (o : outcome).

Record state := {
  isRefreshing : bool;
  refreshQueue : list nat;
  pcs : gmap nat pc;
  refreshCalls : nat;   (** requests sent to the refresh endpoint *)
  logoutCalls : nat
}.

(** The points at which the event loop resumes a suspended handler. *)
Inductive event :=
| Handle401 (i : nat)                 (** the error handler of request i starts *)
| RefreshOk (i : nat)                 (** the owner's refreshToken() resolves *)
| RefreshFail (i : nat) (err : string)(** the owner's refreshToken() rejects *)
| TokenRead (i : nat) (tok : string)  (** the owner's getAccessToken() resolves *)
| LogoutDone (i : nat).               (** the owner's logout() resolves *)

(** [drainRefreshQueue(newToken, error)]: every queued continuation gets the
    outcome, then the queue is emptied. *)
Definition drainRefreshQueue (o : outcome) (st : state) : state :=
  {| isRefreshing := isRefreshing st;
     refreshQueue := [];
     pcs := fold_left (fun m j => <[j := Done o]> m) (refreshQueue st) (pcs st);
     refreshCalls := refreshCalls st;
     logoutCalls := logoutCalls st |}.

Definition set_pc (i : nat) (p : pc) (st : state) : state :=
  {| isRefreshing := isRefreshing st; refreshQueue := refreshQueue st;
     pcs := <[i := p]> (pcs st); refreshCalls := refreshCalls st;
     logoutCalls := logoutCalls st |}.

Definition set_refreshing (b : bool) (st : state) : state :=
  {| isRefreshing := b; refreshQueue := refreshQueue st; pcs := pcs st;
     refreshCalls := refreshCalls st; logoutCalls := logoutCalls st |}.

(** One resumption; [None] when the event is not enabled. *)
Definition step (ev : event) (st : state) : option state :=
  match ev with
  | Handle401 i =>
      match pcs st !! i with
      | Some Got401 =>
          if isRefreshing st then
            (* refreshQueue.push({ resolve, reject }) *)
            Some (set_pc i Queued
                    {| isRefreshing := true; refreshQueue := refreshQueue st ++ [i];
                       pcs := pcs st; refreshCalls := refreshCalls st;
                       logoutCalls := logoutCalls st |})
          else
            (* isRefreshing = true; await AuthService.refreshToken() *)
            Some (set_pc i AwaitRefresh
                    {| isRefreshing := true; refreshQueue := refreshQueue st;
                       pcs := pcs st; refreshCalls := S (refreshCalls st);
                       logoutCalls := logoutCalls st |})
      | _ => None
      end
  | RefreshOk i =>
      match pcs st !! i with
      | Some AwaitRefresh => Some (set_pc i AwaitGetToken st)
      | _ => None
      end
  | RefreshFail i err =>
      match pcs st !! i with
      | Some AwaitRefresh =>
          (* drainRefreshQueue(null, refreshError); await AuthService.logout() *)
          let st1 := drainRefreshQueue (Rejected err) st in
          Some (set_pc i (AwaitLogout err)
                  {| isRefreshing := isRefreshing st1; refreshQueue := refreshQueue st1;
                     pcs := pcs st1; refreshCalls := refreshCalls st1;
                     logoutCalls := S (logoutCalls st1) |})
      | _ => None
      end
  | TokenRead i tok =>
      match pcs st !! i with
      | Some AwaitGetToken =>
          (* drainRefreshQueue(newToken, null); return apiClient(originalRequest);
             finally isRefreshing = false *)
          Some (set_refreshing false (set_pc i (Done (Resolved tok))
                  (drainRefreshQueue (Resolved tok) st)))
      | _ => None
      end
  | LogoutDone i =>
      match pcs st !! i with
      | Some (AwaitLogout err) =>
          (* return Promise.reject(refreshError); finally isRefreshing = false *)
          Some (set_refreshing false (set_pc i (Done (Rejected err)) st))
      | _ => None
      end
  end.

Fixpoint run (evs : list event) (st : state) : option state :=
  match evs with
  | [] => Some st
  | ev :: rest => match step ev st with Some st' => run rest st' | None => None end
  end.

(** Requests [ids] have all received a 401 / token_expired response. *)
Definition start (ids : list nat) : state :=
  {| isRefreshing := false; refreshQueue := [];
     pcs := list_to_map (map (fun i => (i, Got401)) ids);
     refreshCalls := 0; logoutCalls := 0 |}.

(** No handler is runnable: every request is queued or finished. *)
Definition quiescent (st : state) : bool :=
  forallb (fun '(_, p) => match p with Queued | Done _ => true | _ => false end)
          (map_to_list (pcs st)).

(** A request that owns the refresh: its handler is past [isRefreshing = true]
    and has not yet returned. *)
Definition owner (p : pc) : bool :=
  match p with AwaitRefresh | AwaitGetToken | AwaitLogout _ => true | _ => false end.

Definition is_owner (st : state) (i : nat) : Prop :=
  exists p, pcs st !! i = Some p /\ owner p = true.

Record Inv (st : state) : Prop := {
  inv_queued : forall i, pcs st !! i = Some Queued <-> i ∈ refreshQueue st;
  inv_nodup : NoDup (refreshQueue st);
  inv_flag : isRefreshing st = true <-> exists i, is_owner st i;
  inv_single : forall i j, is_owner st i -> is_owner st j -> i = j
}.

End Interceptor.

(* ===================================================================== *)
(** ** PKCE: base64URLEncode and generateCodeVerifier *)
(* ===================================================================== *)

Module PKCE.

(** The table of [btoa] (RFC 4648 base64). *)
Definition alphabet : list ascii :=
  list_ascii_of_string "ABCDEFGHIJKLMNOPQRSTUVWXYZabcdefghijklmnopqrstuvwxyz0123456789+/".

Definition b64_char (i : Z) : ascii := nth (Z.to_nat i) alphabet "A"%char.

(** Base64 of a binary string given by its code units (each at most 255). *)
Fixpoint btoa_go (l : list Z) : list ascii :=
  match l with
  | b1 :: b2 :: b3 :: rest =>
      let n := b1 * 65536 + b2 * 256 + b3 in
      b64_char (Z.shiftr n 18) :: b64_char (Z.land (Z.shiftr n 12) 63) ::
      b64_char (Z.land (Z.shiftr n 6) 63) :: b64_char (Z.land n 63) :: btoa_go rest
  | [b1; b2] =>
      let n := b1 * 65536 + b2 * 256 in
      [b64_char (Z.shiftr n 18); b64_char (Z.land (Z.shiftr n 12) 63);
       b64_char (Z.land (Z.shiftr n 6) 63); "="%char]
  | [b1] =>
      let n := b1 * 65536 in
      [b64_char (Z.shiftr n 18); b64_char (Z.land (Z.shiftr n 12) 63); "="%char; "="%char]
  | [] => []
  end.

(** [btoa(s)]: throws (InvalidCharacterError) on a code unit above 255. *)
Definition btoa (codes : list Z) : option (list ascii) :=
  if forallb (fun c => Z.leb 0 c && Z.leb c 255) codes then Some (btoa_go codes) else None.

(** [str.replace(/x/g, y)] for single characters. *)
Definition replace_all (x y : ascii) (s : list ascii) : list ascii :=
  map (fun c => if Ascii.eqb c x then y else c) s.

(** [str.replace(/=+$/, '')]: drop the trailing run of '='. *)
Fixpoint drop_eq_prefix (s : list ascii) : list ascii :=
  match s with
  | c :: rest => if Ascii.eqb c "="%char then drop_eq_prefix rest else s
  | [] => []
  end.

Definition strip_padding (s : list ascii) : list ascii :=
  rev (drop_eq_prefix (rev s)).

(** [base64URLEncode(bytes)]: [String.fromCharCode] on each byte, [btoa],
    then the three replacements. *)
Definition base64URLEncode (bytes : list Byte.byte) : option (list ascii) :=
  let binary := map (fun b => Z.of_N (Byte.to_N b)) bytes in
  option_map (fun b64 => strip_padding (replace_all "/"%char "_"%char
                                          (replace_all "+"%char "-"%char b64)))
             (btoa binary).

(** [generateCodeVerifier()] on the 32 bytes of [Crypto.getRandomBytesAsync(32)]. *)
Definition generateCodeVerifier (randomBytes : list Byte.byte) : option (list ascii) :=
  base64URLEncode randomBytes.

(** The characters of [^[A-Za-z0-9_-]+$]. *)
Definition url_safe (c : ascii) : bool :=
  let n := nat_of_ascii c in
  (((65 <=? n) && (n <=? 90)) || ((97 <=? n) && (n <=? 122)) ||
   ((48 <=? n) && (n <=? 57)) || (n =? 95) || (n =? 45))%nat.

Definition url_map (c : ascii) : ascii :=
  (fun c => if Ascii.eqb c "/"%char then "_"%char else c)
    ((fun c => if Ascii.eqb c "+"%char then "-"%char else c) c).

End PKCE.

(* ===================================================================== *)
(** ** IEEE-754 binary64 numbers, for the numbers of [JSON.parse] *)
(* ===================================================================== *)

Module Float64.

(** [floor (log2 (a / b))] for [a, b > 0]. *)
Definition floor_log2 (a b : Z) : Z :=
  let e := Z.log2 a - Z.log2 b in
  if (if 0 <=? e then b * 2 ^ e <=? a else b <=? a * 2 ^ (- e)) then e else e - 1.

(** [floor (log10 n)] for [n > 0]: one less than its number of digits. *)
Definition log10 (n : Z) : Z := Z.of_nat (String.length (Z_to_string n)) - 1.

(** [floor (log10 (a / b))] for [a, b > 0]. *)
Definition floor_log10 (a b : Z) : Z :=
  let e := log10 a - log10 b in
  if (if 0 <=? e then b * 10 ^ e <=? a else b <=? a * 10 ^ (- e)) then e else e - 1.

(** [a / b] ([a >= 0], [b > 0]) rounded to an integer, ties to even. *)
Definition round_div (a b : Z) : Z :=
  let q := a / b in
  let r := a mod b in
  if 2 * r <? b then q else if b <? 2 * r then q + 1 else if Z.even q then q else q + 1.

(** A finite double is [(m, u)], the value [m * 2 ^ u] with [|m| < 2 ^ 53]
    and either [2 ^ 52 <= |m|] (normal) or [u = -1074] (subnormal or zero):
    one pair per value, [-0] read as [0]. *)
Definition double := (Z * Z)%type.

(** The exact value of a double as a fraction [(num, den)], [den > 0]. *)
Definition to_Q (x : double) : Z * Z :=
  let '(m, u) := x in if 0 <=? u then (m * 2 ^ u, 1) else (m, 2 ^ (- u)).

(** The decimal [c * 10 ^ p] as a fraction. *)
Definition dec_Q (c p : Z) : Z * Z :=
  if 0 <=? p then (c * 10 ^ p, 1) else (c, 10 ^ (- p)).

(** The double nearest to [n / d] ([d > 0]), ties to even, with gradual
    underflow; [None] when the rounded value overflows (to an infinity). *)
Definition round64 (n d : Z) : option double :=
  if n =? 0 then Some (0, -1074) else
  let a := Z.abs n in
  let u := Z.max (floor_log2 a d - 52) (-1074) in
  let m := if u <=? 0 then round_div (a * 2 ^ (- u)) d else round_div a (d * 2 ^ u) in
  let '(m', u') := if m =? 2 ^ 53 then (2 ^ 52, u + 1) else (m, u) in
  if 971 <? u' then None
  else Some (if n <? 0 then - m' else m', u').

Definition round64_Q (q : Z * Z) : option double := round64 (fst q) (snd q).

(** Does the decimal [c * 10 ^ p] read back as the double [x]? *)
Definition reads_as (x : double) (c p : Z) : bool :=
  match round64_Q (dec_Q c p) with
  | Some y => (fst y =? fst x) && (snd y =? snd x)
  | None => false
  end.

Fixpoint strip_zeros (fuel : nat) (c p : Z) : Z * Z :=
  match fuel with
  | O => (c, p)
  | S f => if (c mod 10 =? 0) && negb (c =? 0) then strip_zeros f (c / 10) (p + 1) else (c, p)
  end.

(** The digits of Number::toString for a positive double [x] of value
    [a / b] with [10 ^ e10 <= a / b < 10 ^ (e10 + 1)]: for [k] = 1, 2, ...
    significant digits, the [k]-digit decimals next to [x] (floor and
    ceiling at scale [10 ^ (e10 + 1 - k)]); the first [k] where one of them
    reads back as [x] wins, the closer one (ties to even) when both do.
    Seventeen digits always suffice. *)
Fixpoint shortest_from (fuel : nat) (k : Z) (x : double) (a b e10 : Z) : Z * Z :=
  let p := e10 + 1 - k in
  let '(num, den) := if 0 <=? p then (a, b * 10 ^ p) else (a * 10 ^ (- p), b) in
  let fl := num / den in
  let r := num mod den in
  let cl := if r =? 0 then fl else fl + 1 in
  let closest := if 2 * r <? den then fl else if den <? 2 * r then cl
                 else if Z.even fl then fl else cl in
  match fuel with
  | O => (closest, p)
  | S f =>
      let okf := reads_as x fl p in
      let okc := reads_as x cl p in
      if okf && okc then (closest, p)
      else if okf then (fl, p)
      else if okc then (cl, p)
      else shortest_from f (k + 1) x a b e10
  end.

(** [(c, p)] with [c * 10 ^ p] the shortest decimal of the double [x]
    ([x <> 0]) and [c] not a multiple of 10. *)
Definition shortest (x : double) : Z * Z :=
  let '(m, u) := x in
  let '(a, b) := to_Q (Z.abs m, u) in
  let '(c, p) := shortest_from 16 1 (Z.abs m, u) a b (floor_log10 a b) in
  let '(c', p') := strip_zeros 20 c p in
  (if m <? 0 then - c' else c', p').

Inductive kind := KInt (z : Z) | KDec (c p : Z).

(** An integral double below [10 ^ 21] in absolute value is an integer;
    any other double is kept as its shortest decimal. *)
Definition classify (x : double) : kind :=
  let '(a, b) := to_Q x in
  if (a mod b =? 0) && (Z.abs (a / b) <? 10 ^ 21) then KInt (a / b)
  else let '(c, p) := shortest x in KDec c p.

(** Number::toString writes [c * 10 ^ p] without exponent and without a
    fraction (the case [k <= n <= 21] of the specification, with [k] the
    number of digits of [c] and [n = p + k]). *)
Definition int_form (c p : Z) : bool :=
  let k := Z.of_nat (String.length (Z_to_string (Z.abs c))) in
  (0 <=? p) && (p + k <=? 21).

(** [(c, p)] is how [JSON.parse] keeps a non-integral (or huge) number:
    the shortest decimal of the double it reads as. *)
Definition canon (c p : Z) : bool :=
  match round64_Q (dec_Q c p) with
  | Some x => match classify x with
              | KDec c' p' => (c' =? c) && (p' =? p) && negb (int_form c p)
              | KInt _ => false
              end
  | None => false
  end.

Fixpoint zeros (n : nat) : string :=
  match n with O => EmptyString | S n' => String "0" (zeros n') end.

(** Number::toString(c * 10 ^ p) (radix 10), [c <> 0] not a multiple of 10. *)
Definition to_string (c p : Z) : string :=
  let s := Z_to_string (Z.abs c) in
  let k := Z.of_nat (String.length s) in
  let n := p + k in
  let body :=
    if (k <=? n) && (n <=? 21) then s ++ zeros (Z.to_nat (n - k))
    else if (0 <? n) && (n <=? 21) then
      substring 0 (Z.to_nat n) s ++ "." ++ substring (Z.to_nat n) (Z.to_nat (k - n)) s
    else if (-6 <? n) && (n <=? 0) then "0." ++ zeros (Z.to_nat (- n)) ++ s
    else
      let e := n - 1 in
      let es := (if e <? 0 then "-" else "+") ++ Z_to_string (Z.abs e) in
      if k =? 1 then s ++ "e" ++ es
      else substring 0 1 s ++ "." ++ substring 1 (Z.to_nat (k - 1)) s ++ "e" ++ es in
  if c <? 0 then "-" ++ body else body.

End Float64.

(* ===================================================================== *)
(** ** JSON values, [JSON.stringify] and [JSON.parse] *)
(* ===================================================================== *)

Module JSON.

(** The double-quote character (code 34). *)
Abbreviation DQ := (Ascii.Ascii false true false false false true false false).

(** JSON values; strings are 8-bit. A number is [JNum z] when it is an
    integer (integers are kept exact: JavaScript rounds those beyond 2^53 to
    a double), or [JDec c p] for the double [c * 10 ^ p], given by its
    shortest decimal [(c, p)] (Float64.canon). Object members keep their
    order. *)
Inductive json :=
| JNull
| JBool (b : bool)
| JNum (z : Z)
| JDec (c p : Z) (H : Float64.canon c p = true)
| JStr (s : string)
| JArr (l : list json)
| JObj (kvs : list (string * json)).

Definition hex_digit (n : nat) : ascii :=
  if (n <? 10)%nat then ascii_of_nat (48 + n) else ascii_of_nat (87 + n).

(** The string escapes of [JSON.stringify]. *)
Fixpoint escape (s : string) : string :=
  match s with
  | EmptyString => EmptyString
  | String c rest =>
      let n := nat_of_ascii c in
      let e :=
        if (n =? 34)%nat then String "\" (String DQ EmptyString)
        else if (n =? 92)%nat then "\\"
        else if (n =? 8)%nat then "\b"
        else if (n =? 12)%nat then "\f"
        else if (n =? 10)%nat then "\n"
        else if (n =? 13)%nat then "\r"
        else if (n =? 9)%nat then "\t"
        else if (n <? 32)%nat then
          String "\" (String "u" (String "0" (String "0"
            (String (hex_digit (n / 16)) (String (hex_digit (n mod 16)) EmptyString)))))
        else String c EmptyString in
      e ++ escape rest
  end.

Definition quote (s : string) : string := String DQ (escape s ++ String DQ EmptyString).

Fixpoint join (sep : string) (l : list string) : string :=
  match l with
  | [] => ""
  | [x] => x
  | x :: rest => x ++ sep ++ join sep rest
  end.

(** [JSON.stringify(v)] *)
Fixpoint stringify (v : json) : string :=
  match v with
  | JNull => "null"
  | JBool true => "true"
  | JBool false => "false"
  | JNum z => Z_to_string z
  | JDec c p _ => Float64.to_string c p
  | JStr s => quote s
  | JArr l => "[" ++ join "," (map stringify l) ++ "]"
  | JObj kvs => "{" ++ join "," (map (fun kv => quote (fst kv) ++ ":" ++ stringify (snd kv)) kvs) ++ "}"
  end.

Definition is_ws (c : ascii) : bool :=
  let n := nat_of_ascii c in ((n =? 9) || (n =? 10) || (n =? 13) || (n =? 32))%nat.

Fixpoint skip_ws (s : string) : string :=
  match s with
  | String c rest => if is_ws c then skip_ws rest else s
  | EmptyString => EmptyString
  end.

Definition hex_val (c : ascii) : option nat :=
  let n := nat_of_ascii c in
  if ((48 <=? n) && (n <=? 57))%nat then Some (n - 48)%nat
  else if ((97 <=? n) && (n <=? 102))%nat then Some (n - 87)%nat
  else if ((65 <=? n) && (n <=? 70))%nat then Some (n - 55)%nat
  else None.

(** The body of a string literal after its opening quote. A [\u] escape
    above 00FF, a UTF-16 code unit that an 8-bit string cannot hold, is read
    as ['?']. *)
Fixpoint parse_string_body (s : string) : option (string * string) :=
  match s with
  | EmptyString => None
  | String c rest =>
      let n := nat_of_ascii c in
      if (n =? 34)%nat then Some (EmptyString, rest)
      else if (n =? 92)%nat then
        match rest with
        | String "u" (String h1 (String h2 (String h3 (String h4 rest')))) =>
            match hex_val h1, hex_val h2, hex_val h3, hex_val h4 with
            | Some a, Some b, Some c', Some d =>
                let code := (((a * 16 + b) * 16 + c') * 16 + d)%nat in
                let ch := if (code <? 256)%nat then ascii_of_nat code else "?"%char in
                option_map (fun '(str, r) => (String ch str, r)) (parse_string_body rest')
            | _, _, _, _ => None
            end
        | String e rest' =>
            let m := nat_of_ascii e in
            let out :=
              if (m =? 34)%nat then Some e else if (m =? 92)%nat then Some e
              else if (m =? 47)%nat then Some e
              else if (m =? 98)%nat then Some (ascii_of_nat 8)
              else if (m =? 102)%nat then Some (ascii_of_nat 12)
              else if (m =? 110)%nat then Some (ascii_of_nat 10)
              else if (m =? 114)%nat then Some (ascii_of_nat 13)
              else if (m =? 116)%nat then Some (ascii_of_nat 9)
              else None in
            match out with
            | Some o => option_map (fun '(str, r) => (String o str, r)) (parse_string_body rest')
            | None => None
            end
        | EmptyString => None
        end
      else if (n <? 32)%nat then None
      else option_map (fun '(str, r) => (String c str, r)) (parse_string_body rest)
  end.

Fixpoint parse_digit_run (s : string) (acc : Z) (any : bool) : option (Z * string) :=
  match s with
  | String c rest =>
      match char_digit c with
      | Some d => parse_digit_run rest (acc * 10 + d) true
      | None => if any then Some (acc, s) else None
      end
  | EmptyString => if any then Some (acc, s) else None
  end.

Fixpoint take_digits (s : string) : string * string :=
  match s with
  | String c r =>
      match char_digit c with
      | Some _ => let '(ds, t) := take_digits r in (String c ds, t)
      | None => (EmptyString, s)
      end
  | EmptyString => (EmptyString, EmptyString)
  end.

(** One or more digits: their value, their count and the rest. *)
Definition digits1 (s : string) : option (Z * nat * string) :=
  let '(ds, t) := take_digits s in
  match ds, parse_digits ds 0 with
  | String _ _, Some v => Some (v, String.length ds, t)
  | _, _ => None
  end.

(** The fraction [. [0-9]+] of a number literal, when there is one. *)
Definition parse_fraction (s : string) : option (Z * nat * string) :=
  match s with
  | String "." t => digits1 t
  | _ => Some (0, O, s)
  end.

(** The exponent [[eE] [+-]? [0-9]+] of a number literal, when there is one. *)
Definition parse_exponent (s : string) : option (Z * string) :=
  match s with
  | String c t =>
      if (Ascii.eqb c "e" || Ascii.eqb c "E")%bool then
        let '(neg, t1) := match t with
                          | String "+" r => (false, r)
                          | String "-" r => (true, r)
                          | _ => (false, t)
                          end in
        match digits1 t1 with
        | Some (v, _, t2) => Some (if neg then - v else v, t2)
        | None => None
        end
      else Some (0, s)
  | EmptyString => Some (0, s)
  end.

(** The number [m * 10 ^ e] of a literal with a fraction or an exponent:
    rounded to the nearest double; an integral double below 10^21 is an
    integer, any other is kept as its shortest decimal. A literal beyond
    the double range, which JSON.parse reads as an infinity, is read as
    [null], the value JSON.stringify writes for it. The last branch does
    not occur: the shortest decimal of a double reads back as it. *)
Definition number_of_decimal (m e : Z) : json :=
  match Float64.round64_Q (Float64.dec_Q m e) with
  | None => JNull
  | Some x =>
      match Float64.classify x with
      | Float64.KInt z => JNum z
      | Float64.KDec c p =>
          match Bool.bool_dec (Float64.canon c p) true with
          | left H => JDec c p H
          | right _ => JNull
          end
      end
  end.

(** A number literal: [-]? ( 0 | [1-9][0-9]* ) fraction? exponent?. An
    integer literal is read exactly. *)
Definition parse_number (s : string) : option (json * string) :=
  let '(neg, s1) := match s with String "-" r => (true, r) | _ => (false, s) end in
  let r :=
    match s1 with
    | String "0" r => Some (0, r)
    | String c _ => match char_digit c with Some _ => parse_digit_run s1 0 false | None => None end
    | EmptyString => None
    end in
  match r with
  | Some (z, String c t) =>
      if (Ascii.eqb c "." || Ascii.eqb c "e" || Ascii.eqb c "E")%bool then
        match parse_fraction (String c t) with
        | Some (f, nf, t1) =>
            match parse_exponent t1 with
            | Some (e, t2) =>
                let m := z * 10 ^ Z.of_nat nf + f in
                Some (number_of_decimal (if neg then - m else m) (e - Z.of_nat nf), t2)
            | None => None
            end
        | None => None
        end
      else Some (JNum (if neg then - z else z), String c t)
  | Some (z, EmptyString) => Some (JNum (if neg then - z else z), EmptyString)
  | None => None
  end.

(** A value at the start of [s] (whitespace already skipped). *)
Fixpoint parse_value (fuel : nat) (s : string) : option (json * string) :=
  match fuel with
  | O => None
  | S f =>
      match s with
      | String "n" (String "u" (String "l" (String "l" r))) => Some (JNull, r)
      | String "t" (String "r" (String "u" (String "e" r))) => Some (JBool true, r)
      | String "f" (String "a" (String "l" (String "s" (String "e" r)))) => Some (JBool false, r)
      | String DQ r =>
          option_map (fun '(str, r') => (JStr str, r')) (parse_string_body r)
      | String "[" r =>
          match skip_ws r with
          | String "]" r' => Some (JArr [], r')
          | r1 =>
              let fix elems (g : nat) (t : string) (acc : list json) :=
                match g with
                | O => None
                | S g' =>
                    match parse_value f t with
                    | Some (v, t1) =>
                        match skip_ws t1 with
                        | String "," t2 => elems g' (skip_ws t2) (acc ++ [v])%list
                        | String "]" t2 => Some (JArr (acc ++ [v])%list, t2)
                        | _ => None
                        end
                    | None => None
                    end
                end in
              elems f r1 []
          end
      | String "{" r =>
          match skip_ws r with
          | String "}" r' => Some (JObj [], r')
          | r1 =>
              let fix members (g : nat) (t : string) (acc : list (string * json)) :=
                match g with
                | O => None
                | S g' =>
                    match t with
                    | String DQ t0 =>
                        match parse_string_body t0 with
                        | Some (k, t1) =>
                            match skip_ws t1 with
                            | String ":" t2 =>
                                match parse_value f (skip_ws t2) with
                                | Some (v, t3) =>
                                    match skip_ws t3 with
                                    | String "," t4 => members g' (skip_ws t4) (acc ++ [(k, v)])%list
                                    | String "}" t4 => Some (JObj (acc ++ [(k, v)])%list, t4)
                                    | _ => None
                                    end
                                | None => None
                                end
                            | _ => None
                            end
                        | None => None
                        end
                    | _ => None
                    end
                end in
              members f r1 []
          end
      | _ => parse_number s
      end
  end.

(** [JSON.parse(text)]: [None] when it throws (SyntaxError). *)
Definition parse (text : string) : option json :=
  match parse_value (S (String.length text)) (skip_ws text) with
  | Some (v, rest) => match skip_ws rest with EmptyString => Some v | _ => None end
  | None => None
  end.

(** Property read [v.key] on a parsed value: the last member of that name
    (JSON.parse keeps the last duplicate); [None] is undefined. *)
Definition get_prop (kvs : list (string * json)) (key : string) : option json :=
  fold_left (fun acc kv => if String.eqb (fst kv) key then Some (snd kv) else acc) kvs None.

End JSON.

(* ===================================================================== *)
(** ** [new URL(s)] and normalizeServerUrl *)
(* ===================================================================== *)

Module URL.

Fixpoint str_map (f : ascii -> ascii) (s : string) : string :=
  match s with EmptyString => EmptyString | String c r => String (f c) (str_map f r) end.

Fixpoint str_filter (p : ascii -> bool) (s : string) : string :=
  match s with
  | EmptyString => EmptyString
  | String c r => if p c then String c (str_filter p r) else str_filter p r
  end.

Fixpoint str_rev_app (s acc : string) : string :=
  match s with EmptyString => acc | String c r => str_rev_app r (String c acc) end.
Definition str_rev (s : string) : string := str_rev_app s EmptyString.

Fixpoint drop_while (p : ascii -> bool) (s : string) : string :=
  match s with EmptyString => EmptyString | String c r => if p c then drop_while p r else s end.

(** Split at the first character satisfying [p] (kept in the second part). *)
Fixpoint take_until (p : ascii -> bool) (s : string) : string * string :=
  match s with
  | EmptyString => (EmptyString, EmptyString)
  | String c r => if p c then (EmptyString, s) else let '(a, b) := take_until p r in (String c a, b)
  end.

Definition code (c : ascii) : nat := nat_of_ascii c.
Definition is_alpha (c : ascii) : bool :=
  (((65 <=? code c) && (code c <=? 90)) || ((97 <=? code c) && (code c <=? 122)))%nat.
Definition is_digit (c : ascii) : bool := ((48 <=? code c) && (code c <=? 57))%nat.
Definition to_lower (c : ascii) : ascii :=
  if ((65 <=? code c) && (code c <=? 90))%nat then ascii_of_nat (code c + 32) else c.
Definition is_c0_or_space (c : ascii) : bool := (code c <=? 32)%nat.
Definition in_chars (cs : string) (c : ascii) : bool :=
  existsb (Ascii.eqb c) (list_ascii_of_string cs).

(** The part after the last '@' (the userinfo is dropped). *)
Fixpoint after_last_at (s acc : string) : string :=
  match s with
  | EmptyString => acc
  | String c r => if Ascii.eqb c "@"%char then after_last_at r EmptyString
                  else after_last_at r (acc ++ String c EmptyString)
  end.

(** Split [host:port] at the last ':'. *)
Definition split_port (s : string) : string * option string :=
  let r := str_rev s in
  let '(p, h) := take_until (Ascii.eqb ":"%char) r in
  match h with
  | String _ hr => (str_rev hr, Some (str_rev p))
  | EmptyString => (s, None)
  end.

Definition special_default_port (scheme : string) : option (option string) :=
  if String.eqb scheme "http" then Some (Some "80")
  else if String.eqb scheme "https" then Some (Some "443")
  else if String.eqb scheme "ws" then Some (Some "80")
  else if String.eqb scheme "wss" then Some (Some "443")
  else if String.eqb scheme "ftp" then Some (Some "21")
  else if String.eqb scheme "file" then Some None
  else None.

(** The port part of [url.host]: digits, at most 65535, dropped when it is
    the scheme's default; [None] is a parse failure. *)
Definition parse_port (default : option string) (p : option string) : option string :=
  match p with
  | None | Some EmptyString => Some EmptyString
  | Some ds =>
      match parse_digits ds 0 with
      | Some n =>
          if Z.ltb 65535 n then None
          else
            let canon := Z_to_string n in
            match default with
            | Some d => if String.eqb canon d then Some EmptyString else Some (":" ++ canon)
            | None => Some (":" ++ canon)
            end
      | None => None
      end
  end.

Definition forbidden_host (c : ascii) : bool :=
  (code c <=? 32)%nat || (code c =? 127)%nat || in_chars "#/:<>?@[\]^|" c.
Definition forbidden_domain (c : ascii) : bool := forbidden_host c || in_chars "%" c.

(** [new URL(s)] without a base, as [(url.protocol, url.host)]; [None] when it
    throws. Covered: scheme, special and opaque authorities, userinfo, ports
    and default ports, ASCII lowercasing of domains. IPv4/IPv6 literals,
    percent-decoding and IDNA are outside the model. *)
Definition parse_url (input : string) : option (string * string) :=
  let s0 := drop_while is_c0_or_space input in
  let s1 := str_rev (drop_while is_c0_or_space (str_rev s0)) in
  let s := str_filter (fun c => negb (in_chars (String (ascii_of_nat 9)
                         (String (ascii_of_nat 10) (String (ascii_of_nat 13) EmptyString))) c)) s1 in
  let '(scheme0, rest0) := take_until (fun c => negb (is_alpha c || is_digit c || in_chars "+-." c)) s in
  match scheme0, rest0 with
  | String c0 _, String ":" rest =>
      if negb (is_alpha c0) then None else
      let scheme := str_map to_lower scheme0 in
      match special_default_port scheme with
      | Some default =>
          if String.eqb scheme "file" then
            match rest with
            | String sl1 (String sl2 r) =>
                if in_chars "/\" sl1 && in_chars "/\" sl2 then
                  let '(h, _) := take_until (in_chars "/\?#") r in
                  let h' := str_map to_lower h in
                  if existsb forbidden_domain (list_ascii_of_string h') then None
                  else Some ("file:", if String.eqb h' "localhost" then EmptyString else h')
                else Some ("file:", EmptyString)
            | _ => Some ("file:", EmptyString)
            end
          else
            let r := drop_while (in_chars "/\") rest in
            let '(auth, _) := take_until (in_chars "/\?#") r in
            let '(h, p) := split_port (after_last_at auth EmptyString) in
            let h' := str_map to_lower h in
            if String.eqb h' EmptyString then None
            else if existsb forbidden_domain (list_ascii_of_string h') then None
            else match parse_port default p with
                 | Some port => Some (scheme ++ ":", h' ++ port)
                 | None => None
                 end
      | None =>
          match rest with
          | String "/" (String "/" r) =>
              let '(auth, _) := take_until (in_chars "/?#") r in
              let '(h, p) := split_port (after_last_at auth EmptyString) in
              if existsb forbidden_host (list_ascii_of_string h) then None
              else match parse_port None p with
                   | Some port => Some (scheme ++ ":", h ++ port)
                   | None => None
                   end
          | _ => Some (scheme ++ ":", EmptyString)
          end
      end
  | _, _ => None
  end.

End URL.

(** [normalizeServerUrl(server)] *)
Definition normalizeServerUrl (server : string) : string :=
  match URL.parse_url server with
  | Some (protocol, host) => strip_trailing_slash (protocol ++ "//" ++ host)
  | None => strip_trailing_slash server
  end.

(* ===================================================================== *)
(** ** [atob] and [Date.prototype.toISOString] *)
(* ===================================================================== *)

Module Platform.

Definition b64_value (c : ascii) : option Z :=
  let n := Z.of_nat (nat_of_ascii c) in
  if (65 <=? n) && (n <=? 90) then Some (n - 65)
  else if (97 <=? n) && (n <=? 122) then Some (n - 71)
  else if (48 <=? n) && (n <=? 57) then Some (n + 4)
  else if n =? 43 then Some 62
  else if n =? 47 then Some 63
  else None.

Fixpoint decode_values (l : list Z) : list Z :=
  match l with
  | a :: b :: c :: d :: rest =>
      let n := Z.lor (Z.lor (Z.shiftl a 18) (Z.shiftl b 12)) (Z.lor (Z.shiftl c 6) d) in
      Z.shiftr n 16 :: Z.land (Z.shiftr n 8) 255 :: Z.land n 255 :: decode_values rest
  | [a; b; c] =>
      let n := Z.lor (Z.lor (Z.shiftl a 18) (Z.shiftl b 12)) (Z.shiftl c 6) in
      [Z.shiftr n 16; Z.land (Z.shiftr n 8) 255]
  | [a; b] => [Z.shiftr (Z.lor (Z.shiftl a 18) (Z.shiftl b 12)) 16]
  | _ => []
  end.

Fixpoint all_values (s : string) : option (list Z) :=
  match s with
  | EmptyString => Some []
  | String c r =>
      match b64_value c, all_values r with
      | Some v, Some vs => Some (v :: vs)
      | _, _ => None
      end
  end.

Definition is_ascii_ws (c : ascii) : bool :=
  let n := nat_of_ascii c in ((n =? 9) || (n =? 10) || (n =? 12) || (n =? 13) || (n =? 32))%nat.

(** [atob(data)]: forgiving-base64 decode into a binary string; [None] when
    it throws (InvalidCharacterError). *)
Definition atob (data : string) : option string :=
  let d0 := URL.str_filter (fun c => negb (is_ascii_ws c)) data in
  let len := String.length d0 in
  let d1 :=
    if (len mod 4 =? 0)%nat then
      match URL.str_rev d0 with
      | String "=" (String "=" r) => URL.str_rev r
      | String "=" r => URL.str_rev r
      | _ => d0
      end
    else d0 in
  if (String.length d1 mod 4 =? 1)%nat then None
  else match all_values d1 with
       | Some vs => Some (string_of_list_ascii (map (fun z => ascii_of_nat (Z.to_nat z)) (decode_values vs)))
       | None => None
       end.

Definition pad (w : nat) (n : Z) : string :=
  let s := Z_to_string n in
  let fix zeros (k : nat) : string := match k with O => EmptyString | S k' => String "0" (zeros k') end in
  zeros (w - String.length s)%nat ++ s.

(** [new Date(ms).toISOString()]; [None] when it throws (RangeError: the time
    value is outside +/- 8.64e15 ms). *)
Definition toISOString (ms : Z) : option string :=
  if Z.ltb 8640000000000000 (Z.abs ms) then None
  else
    let days := ms / 86400000 in
    let tod := ms mod 86400000 in
    let z := days + 719468 in
    let era := z / 146097 in
    let doe := z - era * 146097 in
    let yoe := (doe - doe / 1460 + doe / 36524 - doe / 146096) / 365 in
    let doy := doe - (365 * yoe + yoe / 4 - yoe / 100) in
    let mp := (5 * doy + 2) / 153 in
    let d := doy - (153 * mp + 2) / 5 + 1 in
    let m := if mp <? 10 then mp + 3 else mp - 9 in
    let y := yoe + era * 400 + (if m <=? 2 then 1 else 0) in
    let year :=
      if (0 <=? y) && (y <=? 9999) then pad 4 y
      else if y <? 0 then "-" ++ pad 6 (- y) else "+" ++ pad 6 y in
    Some (year ++ "-" ++ pad 2 m ++ "-" ++ pad 2 d ++ "T" ++
          pad 2 (tod / 3600000) ++ ":" ++ pad 2 ((tod / 60000) mod 60) ++ ":" ++
          pad 2 ((tod / 1000) mod 60) ++ "." ++ pad 3 (tod mod 1000) ++ "Z").

(** The time value of [new Date(x * 1000)] for a double [x]: the product
    rounded to a double, then TimeClip: [None] (NaN) when it is infinite or
    beyond 8.64e15 ms in absolute value, otherwise truncated toward zero. *)
Definition time_of_seconds (x : Float64.double) : option Z :=
  let '(a, b) := Float64.to_Q x in
  match Float64.round64 (a * 1000) b with
  | None => None
  | Some t =>
      let '(ta, tb) := Float64.to_Q t in
      if 8640000000000000 * tb <? Z.abs ta then None else Some (Z.quot ta tb)
  end.

End Platform.

(* ===================================================================== *)
(** ** Upload destinations (AsyncStorage, key [upload_destinations]) *)
(* ===================================================================== *)

Module Destinations.
Import JSON.

Definition DESTINATIONS_KEY := "upload_destinations".

(** [String(v)] for a JSON value, as used when [new URL] coerces a
    non-string [d.server]. *)
Fixpoint js_to_string (v : json) : string :=
  match v with
  | JNull => "null"
  | JBool true => "true"
  | JBool false => "false"
  | JNum z => Z_to_string z
  | JDec c p _ => Float64.to_string c p
  | JStr s => s
  | JArr l =>
      let fix elems (l : list json) : list string :=
        match l with
        | [] => []
        | JNull :: r => "" :: elems r
        | x :: r => js_to_string x :: elems r
        end in
      join "," (elems l)
  | JObj _ => "[object Object]"
  end.

(** [normalizeServerUrl(d.server)] for a stored element [d]; [Err] when it
    throws (reading [server] of [null], or [.replace] on a non-string in the
    catch branch). *)
Definition normalize_server_of (d : json) : result string :=
  match d with
  | JNull => Err "TypeError: Cannot read properties of null"
  | _ =>
      let server := match d with JObj kvs => get_prop kvs "server" | _ => None end in
      match server with
      | Some (JStr s) => Ok (normalizeServerUrl s)
      | _ =>
          let coerced := match server with Some v => js_to_string v | None => "undefined" end in
          match URL.parse_url coerced with
          | Some (protocol, host) => Ok (strip_trailing_slash (protocol ++ "//" ++ host))
          | None => Err "TypeError: server.replace is not a function"
          end
      end
  end.

(** The body of [getAllDestinations] after [AsyncStorage.getItem] settled
    with [read]; every failure is caught and turned into [[]]. *)
Definition getAllDestinations_of (read : result (option string)) : list json :=
  match read with
  | Err _ => []
  | Ok None => []
  | Ok (Some raw) =>
      if negb (str_truthy raw) then []
      else match parse raw with
           | Some (JArr l) => l
           | _ => []
           end
  end.

Definition getAllDestinations : M (list json) :=
  fun s => (Ok (getAllDestinations_of (Ok (s !! DESTINATIONS_KEY))), s).

Definition char_map (f : ascii -> ascii) : string -> string := URL.str_map f.

(** [token.replace(/-/g, "+").replace(/_/g, "/")] *)
Definition token_to_base64 (token : string) : string :=
  char_map (fun c => if Ascii.eqb c "_"%char then "/"%char else c)
    (char_map (fun c => if Ascii.eqb c "-"%char then "+"%char else c) token).

Definition parseExpiresAtFromToken (token : string) : option string :=
  match Platform.atob (token_to_base64 token) with
  | None => None
  | Some text =>
      match parse text with
      | None => None
      | Some decoded =>
          match decoded with
          | JNull => None
          | JObj kvs =>
              match get_prop kvs "expiresAt" with
              | Some (JNum e) => Platform.toISOString (e * 1000)
              | Some (JDec c p _) =>
                  match Float64.round64_Q (Float64.dec_Q c p) with
                  | Some x =>
                      match Platform.time_of_seconds x with
                      | Some ms => Platform.toISOString ms
                      | None => None
                      end
                  | None => None
                  end
              | _ => None
              end
          | _ => None
          end
      end
  end.

(** [list.find(d => normalizeServerUrl(d.server) === normalized)] *)
Fixpoint find_existing (l : list json) (normalized : string) : result (option json) :=
  match l with
  | [] => Ok None
  | d :: r =>
      match normalize_server_of d with
      | Err e => Err e
      | Ok n => if String.eqb n normalized then Ok (Some d) else find_existing r normalized
      end
  end.

(** [list.filter(d => normalizeServerUrl(d.server) !== normalized)] *)
Fixpoint filter_rest (l : list json) (normalized : string) : result (list json) :=
  match l with
  | [] => Ok []
  | d :: r =>
      match normalize_server_of d with
      | Err e => Err e
      | Ok n =>
          match filter_rest r normalized with
          | Err e => Err e
          | Ok r' => Ok (if String.eqb n normalized then r' else d :: r')
          end
      end
  end.

Definition is_js_ws (c : ascii) : bool :=
  let n := nat_of_ascii c in ((9 <=? n) && (n <=? 13) || (n =? 32) || (n =? 160))%nat.

Definition trim (s : string) : string :=
  URL.str_rev (URL.drop_while is_js_ws (URL.str_rev (URL.drop_while is_js_ws s))).

Definition THIRTY_DAYS_MS := 30 * 24 * 60 * 60 * 1000.

(** [addDestination(server, token, name)] with [Crypto.randomUUID()] =
    [uuid] and [Date.now()] = [now]. *)
Definition addDestination (server token : string) (name : option string)
    (uuid : string) (now : Z) : M unit :=
  let normalized := normalizeServerUrl server in
  list <-- getAllDestinations ;;
  match find_existing list normalized with
  | Err e => throw e
  | Ok existing =>
      let id :=
        match existing with
        | Some (JObj kvs) =>
            match get_prop kvs "id" with
            | None | Some JNull => JStr uuid
            | Some v => v
            end
        | _ => JStr uuid
        end in
      let nm := match name with
                | Some n => let t := trim n in if str_truthy t then t else normalized
                | None => normalized
                end in
      match (match parseExpiresAtFromToken token with
             | Some x => Some x
             | None => Platform.toISOString (now + THIRTY_DAYS_MS)
             end) with
      | None => throw "RangeError: Invalid time value"
      | Some expiresAt =>
          let newDest := JObj [("id", id); ("name", JStr nm); ("server", JStr normalized);
                               ("token", JStr token); ("expiresAt", JStr expiresAt)] in
          match filter_rest list normalized with
          | Err e => throw e
          | Ok rest => setItemAsync DESTINATIONS_KEY (stringify (JArr (rest ++ [newDest])%list))
          end
      end
  end.

(** The reading of the token expiry in the amended C8 claim. *)

(** The [expiresAt] claim of a token payload, read the way the claim reads
    it: base64url text, a JSON object, its [expiresAt] property. *)
Definition payload_claim (token : string) : option json :=
  match Platform.atob (token_to_base64 token) with
  | Some text =>
      match parse text with
      | Some (JObj kvs) => get_prop kvs "expiresAt"
      | _ => None
      end
  | None => None
  end.

Definition MAX_TIME_MS := 8640000000000000.

(** The instant, in ms, of a numeric claim [e] read as unix seconds, when
    it is a valid [Date] time (within 8.64e15 ms of the epoch): [e * 1000],
    rounded to a double and truncated to whole milliseconds when [e] is not
    an integer. *)
Definition claim_ms (v : json) : option Z :=
  match v with
  | JNum e => if Z.abs (e * 1000) <=? MAX_TIME_MS then Some (e * 1000) else None
  | JDec c p _ =>
      match Float64.round64_Q (Float64.dec_Q c p) with
      | Some x => Platform.time_of_seconds x
      | None => None
      end
  | _ => None
  end.

Definition parse' (text : option string) : option json :=
  match text with Some t => parse t | None => None end.

Definition iso (ms : Z) : string :=
  match Platform.toISOString ms with Some x => x | None => "" end.

(** The stored [expiresAt] of the amended claim: the payload's instant when
    it is a representable [Date], otherwise [now] + 30 days. *)
Definition expected_expiresAt (token : string) (now : Z) : string :=
  match match payload_claim token with Some v => claim_ms v | None => None end with
  | Some ms => iso ms
  | None => iso (now + THIRTY_DAYS_MS)
  end.

(** The fields of a stored destination that the claims inspect. *)
Abbreviation summary d :=
  (match d with
   | JObj kvs => (get_prop kvs "id", get_prop kvs "server", get_prop kvs "token", get_prop kvs "expiresAt")
   | _ => (None, None, None, None)
   end).

End Destinations.

(* ===================================================================== *)
(** * The login flow, the request interceptor, the JSON parser loops and the
      remaining destination operations *)
(* ===================================================================== *)

Module Login.
Import PKCE.

Definition generateState (randomBytes : list Byte.byte) : option (list ascii) :=
  base64URLEncode randomBytes.

(** [generateCodeChallenge(codeVerifier)]: [sha256] gives the digest bytes
    of the verifier's characters; [Crypto.CryptoEncoding.BASE64] renders
    them as standard padded base64, then the three replacements. *)
Definition generateCodeChallenge (sha256 : string -> list Byte.byte) (codeVerifier : string) : string :=
  let digest := btoa_go (map (fun b => Z.of_N (Byte.to_N b)) (sha256 codeVerifier)) in
  string_of_list_ascii
    (strip_padding (replace_all "/"%char "_"%char (replace_all "+"%char "-"%char digest))).

Definition CLIENT_ID := "pulse-mobile".
Definition REDIRECT_URI := "pulse://auth/callback".

Definition hex_upper (n : nat) : ascii := nth n (list_ascii_of_string "0123456789ABCDEF") "0"%char.
Definition percent_byte (n : nat) : list ascii := ["%"%char; hex_upper (n / 16); hex_upper (n mod 16)].

(** The application/x-www-form-urlencoded byte serializer of
    [URLSearchParams.toString()]: [*-._] and alphanumerics are kept, space
    becomes '+', every other byte of the UTF-8 encoding is percent-encoded. *)
Definition form_safe (c : ascii) : bool :=
  let n := nat_of_ascii c in
  (((65 <=? n) && (n <=? 90)) || ((97 <=? n) && (n <=? 122)) ||
   ((48 <=? n) && (n <=? 57)) || (n =? 42) || (n =? 45) || (n =? 46) || (n =? 95))%nat.

Definition form_char (c : ascii) : list ascii :=
  let n := nat_of_ascii c in
  if form_safe c then [c]
  else if (n =? 32)%nat then ["+"%char]
  else if (n <? 128)%nat then percent_byte n
  else percent_byte (192 + n / 64) ++ percent_byte (128 + n mod 64).

Definition form_encode (s : string) : string :=
  string_of_list_ascii (flat_map form_char (list_ascii_of_string s)).

Definition params_toString (params : list (string * string)) : string :=
  String.concat "&" (map (fun '(k, v) => form_encode k ++ "=" ++ form_encode v) params).

(** [startLogin(vaultUrl)] up to [WebBrowser.openAuthSessionAsync]: the
    authorization URL it opens. [verifierBytes] and [stateBytes] are the
    answers of [Crypto.getRandomBytesAsync(32)] and [(16)]. *)
Definition startLogin (sha256 : string -> list Byte.byte)
    (verifierBytes stateBytes : list Byte.byte) (vaultUrl : string) : M string :=
  setItemAsync VAULT_URL vaultUrl ;;;
  match generateCodeVerifier verifierBytes with
  | None => throw "InvalidCharacterError"
  | Some cv =>
      let codeVerifier := string_of_list_ascii cv in
      let codeChallenge := generateCodeChallenge sha256 codeVerifier in
      match generateState stateBytes with
      | None => throw "InvalidCharacterError"
      | Some st =>
          let state := string_of_list_ascii st in
          setItemAsync CODE_VERIFIER codeVerifier ;;;
          setItemAsync STATE state ;;;
          let params := [("response_type", "code"); ("client_id", CLIENT_ID);
                         ("redirect_uri", REDIRECT_URI); ("code_challenge", codeChallenge);
                         ("code_challenge_method", "S256"); ("state", state)] in
          ret (strip_trailing_slash vaultUrl ++ "/oauth/authorize?" ++ params_toString params)
      end
  end.

(** [isAuthCallback(url)] of src/app/_layout.tsx. *)
Definition isAuthCallback (url : string) : bool := String.prefix "pulse://auth/callback" url.

(** [isAuthCallback(url)] of the other root layout (src/unnamed/part_004). *)
Definition isAuthCallback_part004 (url : string) : bool := String.prefix "pulsecam://auth/callback" url.

End Login.

Record AxiosConfig := {
  cfg_baseURL : option string;
  cfg_headers : option (gmap string string)
}.

Definition request_interceptor (env : Env) (config : AxiosConfig) : M AxiosConfig :=
  vaultUrl <-- getItemAsync VAULT_URL ;;
  accessToken <-- getAccessToken env ;;
  let config1 :=
    match vaultUrl with
    | Some v => if str_truthy v
                then {| cfg_baseURL := Some (strip_trailing_slash v);
                        cfg_headers := cfg_headers config |}
                else config
    | None => config
    end in
  let config2 :=
    match accessToken with
    | Some t => if str_truthy t
                then {| cfg_baseURL := cfg_baseURL config1;
                        cfg_headers := Some (<["Authorization" := "Bearer " ++ t]>
                                               (default ∅ (cfg_headers config1))) |}
                else config1
    | None => config1
    end in
  ret config2.

Module JSONParse.
Import JSON.

(** The element loop of [parse_value] on an array, and the member loop on an
    object, as separate functions (the same fixpoints as the local ones). *)
Definition parse_elems (f : nat) :=
  fix elems (g : nat) (t : string) (acc : list json) :=
    match g with
    | O => None
    | S g' =>
        match parse_value f t with
        | Some (v, t1) =>
            match skip_ws t1 with
            | String "," t2 => elems g' (skip_ws t2) (acc ++ [v])%list
            | String "]" t2 => Some (JArr (acc ++ [v])%list, t2)
            | _ => None
            end
        | None => None
        end
    end.

Definition parse_members (f : nat) :=
  fix members (g : nat) (t : string) (acc : list (string * json)) :=
    match g with
    | O => None
    | S g' =>
        match t with
        | String DQ t0 =>
            match parse_string_body t0 with
            | Some (k, t1) =>
                match skip_ws t1 with
                | String ":" t2 =>
                    match parse_value f (skip_ws t2) with
                    | Some (v, t3) =>
                        match skip_ws t3 with
                        | String "," t4 => members g' (skip_ws t4) (acc ++ [(k, v)])%list
                        | String "}" t4 => Some (JObj (acc ++ [(k, v)])%list, t4)
                        | _ => None
                        end
                    | None => None
                    end
                | _ => None
                end
            | None => None
            end
        | _ => None
        end
    end.

(** A fuel that is enough for [parse_value] to read [stringify v]: one per
    nesting level, and at least the number of elements of each array or
    object. *)
Fixpoint need (v : json) : nat :=
  match v with
  | JArr l => S (Nat.max (length l) (list_max (map need l)))
  | JObj kvs => S (Nat.max (length kvs) (list_max (map (fun kv => need (snd kv)) kvs)))
  | _ => 1
  end.

Definition first_chars : list ascii :=
  ["n"; "t"; "f"; DQ; "["; "{"; "-"; "0"; "1"; "2"; "3"; "4"; "5"; "6"; "7"; "8"; "9"]%char.

Definition follows_value (r : string) : Prop :=
  r = "" \/ exists c t, r = String c t /\ In c [","%char; "]"%char; "}"%char].

Definition escape_char (c : ascii) : string :=
  let n := nat_of_ascii c in
  if (n =? 34)%nat then String "\" (String DQ EmptyString)
  else if (n =? 92)%nat then "\\"
  else if (n =? 8)%nat then "\b"
  else if (n =? 12)%nat then "\f"
  else if (n =? 10)%nat then "\n"
  else if (n =? 13)%nat then "\r"
  else if (n =? 9)%nat then "\t"
  else if (n <? 32)%nat then
    String "\" (String "u" (String "0" (String "0"
      (String (hex_digit (n / 16)) (String (hex_digit (n mod 16)) EmptyString)))))
  else String c EmptyString.

(** The parts of a number literal after its integer part, in the shapes
    Number::toString writes: a fraction [.F] and an exponent [e+E] or [e-E]. *)
Definition frac_text (fr : option string) : string :=
  match fr with Some f => String "." f | None => EmptyString end.

Definition exp_text (ex : option (bool * string)) : string :=
  match ex with
  | Some (neg, ds) => String "e" (String (if neg then "-" else "+") ds)
  | None => EmptyString
  end.

Definition frac_len (fr : option string) : nat :=
  match fr with Some f => String.length f | None => O end.

Fixpoint all_digits (s : string) : bool :=
  match s with
  | EmptyString => true
  | String c r => match char_digit c with Some _ => all_digits r | None => false end
  end.

Definition fr_ok (fr : option string) (vf : Z) : Prop :=
  match fr with Some F => F <> "" /\ parse_digits F 0 = Some vf | None => vf = 0 end.

Definition ex_ok (ex : option (bool * string)) (ve : Z) : Prop :=
  match ex with
  | Some (sg, ed) => ed <> "" /\ exists v, parse_digits ed 0 = Some v /\ ve = (if sg then - v else v)
  | None => ve = 0
  end.

Definition int_ok (I : string) (vi : Z) : Prop :=
  (I = "0" /\ vi = 0) \/
  (exists ch r d, I = String ch r /\ char_digit ch = Some d /\ 0 < d /\ parse_digits I 0 = Some vi).

End JSONParse.

Module DestOps.
Import JSON Destinations.

(** [d.id] for a stored element [d]: reading a property of [null] throws;
    on any other non-object the property is [undefined]. *)
Definition id_of (d : json) : result (option json) :=
  match d with
  | JNull => Err "TypeError: Cannot read properties of null (reading 'id')"
  | JObj kvs => Ok (get_prop kvs "id")
  | _ => Ok None
  end.

(** [d.id === id] for a string [id]. *)
Definition id_matches (v : option json) (id : string) : bool :=
  match v with Some (JStr s) => String.eqb s id | _ => false end.

(** [list.filter((d) => d.id !== id)] *)
Fixpoint filter_id (l : list json) (id : string) : result (list json) :=
  match l with
  | [] => Ok []
  | d :: r =>
      match id_of d with
      | Err e => Err e
      | Ok v =>
          match filter_id r id with
          | Err e => Err e
          | Ok r' => Ok (if id_matches v id then r' else d :: r')
          end
      end
  end.

(** [list.find((d) => d.id === id)] *)
Fixpoint find_id (l : list json) (id : string) : result (option json) :=
  match l with
  | [] => Ok None
  | d :: r =>
      match id_of d with
      | Err e => Err e
      | Ok v => if id_matches v id then Ok (Some d) else find_id r id
      end
  end.

(** [removeDestination(id)] *)
Definition removeDestination (id : string) : M unit :=
  list <-- getAllDestinations ;;
  match filter_id list id with
  | Err e => throw e
  | Ok next => setItemAsync DESTINATIONS_KEY (stringify (JArr next))
  end.

(** [getDestination(id)]: [None] is [null]. *)
Definition getDestination (id : string) : M (option json) :=
  list <-- getAllDestinations ;;
  match find_id list id with
  | Err e => throw e
  | Ok found => ret found
  end.

(** The destinations [getAllDestinations] reads from the store [s]. *)
Definition stored_destinations (s : store) : list json :=
  getAllDestinations_of (Ok (s !! DESTINATIONS_KEY)).

(** Whether [d] has string id [id]. *)
Definition has_id (d : json) (id : string) : bool :=
  match d with JObj kvs => id_matches (get_prop kvs "id") id | _ => false end.

(** Whether [addDestination] keeps [d] beside a new entry for [normalized]. *)
Definition keeps_server (d : json) (normalized : string) : bool :=
  match normalize_server_of d with
  | Ok n => negb (String.eqb n normalized)
  | Err _ => true
  end.

End DestOps.

(* ===================================================================== *)
(** * Theorems *)
(* ===================================================================== *)

(* --------------------------------------------------------------------- *)
(** *** Store lemmas *)
(* --------------------------------------------------------------------- *)

Lemma run_all_deletes (ks : list string) (s : store) :
  run_all (map deleteItemAsync ks) s = (Ok tt, delete_all ks s).
Proof.
  revert s; induction ks as [|k ks IH]; intros s; [reflexivity|].
  simpl. unfold bind at 1, deleteItemAsync. apply IH.
Qed.

Lemma lookup_delete_all (ks : list string) (s : store) (k : string) :
  delete_all ks s !! k = if bool_decide (k ∈ ks) then None else s !! k.
Proof.
  revert s; induction ks as [|k' ks IH]; intros s.
  - case_bool_decide as H; [by apply not_elem_of_nil in H|done].
  - unfold delete_all in *; simpl. rewrite IH.
    case_bool_decide as Hin; case_bool_decide as Hin'; try done.
    + exfalso. apply Hin'. by apply elem_of_cons; right.
    + apply elem_of_cons in Hin' as [->|Hin']; [|done].
      by rewrite lookup_delete_eq.
    + rewrite lookup_delete_ne; [done|].
      intros ->. apply Hin'. by apply elem_of_cons; left.
Qed.

Lemma N_digits_nonempty (fuel : nat) (n : Z) (acc : string) :
  fuel <> O -> N_digits fuel n acc <> "".
Proof.
  revert n acc; induction fuel as [|f IH]; intros n acc H; [congruence|].
  simpl. destruct (Z.ltb n 10); [discriminate|].
  destruct f; [simpl; discriminate|]. apply IH. discriminate.
Qed.

Lemma Z_to_string_truthy (z : Z) : str_truthy (Z_to_string z) = true.
Proof.
  unfold Z_to_string, str_truthy.
  destruct (Z.ltb z 0); [reflexivity|].
  destruct (N_digits _ _ _) eqn:E; [|reflexivity].
  exfalso. eapply N_digits_nonempty; [|exact E]. discriminate.
Qed.

Lemma clearStoredAuthData_eq (s : store) :
  clearStoredAuthData s = (Ok tt, delete_all (map snd SECURE_STORE_KEYS) s).
Proof. apply (run_all_deletes (map snd SECURE_STORE_KEYS)). Qed.

Lemma logout_eq (s : store) : logout s = (Ok tt, delete_all logout_keys s).
Proof. apply run_all_deletes. Qed.

(* ===================================================================== *)
(** ** Claims on logout and clearStoredAuthData *)
(* ===================================================================== *)

(** C6: [logout()] deletes exactly the six session keys (vault origin, code
    verifier, state, access token, refresh token, token expiry); it succeeds
    on every store, and every other key, the device identifier included,
    keeps its value. *)
Theorem logout_keeps_device_id (s : store) :
  logout_keys = [VAULT_URL; CODE_VERIFIER; STATE; ACCESS_TOKEN; REFRESH_TOKEN; TOKEN_EXPIRY] /\
  fst (logout s) = Ok tt /\
  (forall k, snd (logout s) !! k = if bool_decide (k ∈ logout_keys) then None else s !! k) /\
  snd (logout s) !! DEVICE_ID = s !! DEVICE_ID.
Proof.
  rewrite logout_eq; cbn [fst snd]. split; [reflexivity|]. split; [reflexivity|].
  split; [intros k; apply lookup_delete_all|].
  rewrite lookup_delete_all. case_bool_decide as H; [|done].
  exfalso. vm_compute in H. repeat (apply elem_of_cons in H as [H|H]; [discriminate|]).
  by apply not_elem_of_nil in H.
Qed.

(** C9: [clearStoredAuthData()] deletes every key of SECURE_STORE_KEYS, the
    device identifier, the vault URL and both tokens included; the success
    path of [handleLogin] runs it right after [storeTokens], so after a
    successful browser login the stored tokens and the device identifier are
    gone from the store. *)
Theorem login_success_clears_tokens_and_device_id :
  (forall (s : store) k, k ∈ map snd SECURE_STORE_KEYS -> snd (clearStoredAuthData s) !! k = None) /\
  (forall env params (s s' : store) reqs,
     handleLogin_callback env params s = (Ok tt, s', reqs) ->
     (exists s1 tokens, fst (storeTokens (env_now env) tokens s1) = Ok tt /\
                        s' = snd (clearStoredAuthData (snd (storeTokens (env_now env) tokens s1)))) /\
     s' !! ACCESS_TOKEN = None /\ s' !! REFRESH_TOKEN = None /\
     s' !! TOKEN_EXPIRY = None /\ s' !! VAULT_URL = None /\ s' !! DEVICE_ID = None).
Proof.
  assert (Hclr : forall (s : store) k, k ∈ map snd SECURE_STORE_KEYS ->
                 snd (clearStoredAuthData s) !! k = None).
  { intros s k Hk. rewrite clearStoredAuthData_eq; cbn [snd].
    rewrite lookup_delete_all. by rewrite bool_decide_eq_true_2. }
  split; [exact Hclr|].
  intros env params s s' reqs H. unfold handleLogin_callback in H.
  destruct (handleCallback params s) as [[code|e] s1]; [|discriminate].
  destruct (exchangeRequest env code s1) as [[req|e] s2]; [|discriminate].
  destruct (env_exchange_response env) as [tokens|e]; [|discriminate].
  unfold bind at 1 in H.
  destruct (storeTokens (env_now env) tokens s2) as [[[]|e] s3] eqn:Hst; [|discriminate].
  unfold bind, getItemAsync in H. inversion H; subst s'.
  split.
  { exists s2, tokens. rewrite Hst. split; reflexivity. }
  repeat split; apply Hclr; vm_compute; repeat (first [by left | right]).
Qed.

(* ===================================================================== *)
(** ** Claims on storeTokens and getAccessToken *)
(* ===================================================================== *)

Ltac keys_neq := unfold ACCESS_TOKEN, REFRESH_TOKEN, TOKEN_EXPIRY, VAULT_URL,
  CODE_VERIFIER, STATE, DEVICE_ID; discriminate.

Lemma storeTokens_lookup (now : Z) (t : TokenPayload) (s : store) (a : string) :
  access_token t = Some a -> str_truthy a = true ->
  storeTokens now t s =
    (Ok tt,
     let s1 := <[ACCESS_TOKEN := a]> s in
     let s2 := match refresh_token t with
               | Some rt => if str_truthy rt then <[REFRESH_TOKEN := rt]> s1 else s1
               | None => s1 end in
     match expires_in t with
     | Some e => if num_truthy e then <[TOKEN_EXPIRY := Z_to_string (now + e * 1000)]> s2 else s2
     | None => s2 end).
Proof.
  intros Ha Ht. unfold storeTokens. rewrite Ha, Ht. simpl.
  destruct (refresh_token t) as [rt|]; [destruct (str_truthy rt) eqn:Hr|];
  (destruct (expires_in t) as [e|]; [destruct (num_truthy e)|]);
  rewrite ?Z_to_string_truthy; reflexivity.
Qed.

(** C5 (counterexample): a payload whose [expires_in] is present but 0 is
    stored without any expiry ([expires_in ? ... : null] treats 0 as absent). *)
Lemma storeTokens_zero_expires_in_not_persisted :
  let p := {| access_token := Some "a"; refresh_token := None; expires_in := Some 0 |} in
  expires_in p <> None /\
  fst (storeTokens 1000 p ∅) = Ok tt /\
  snd (storeTokens 1000 p ∅) !! TOKEN_EXPIRY = None /\
  snd (storeTokens 1000 p ∅) !! TOKEN_EXPIRY <> Some (Z_to_string (1000 + 0 * 1000)).
Proof. vm_compute. repeat split; discriminate. Qed.

(** C5 (amended): [storeTokens] fails, writing nothing, when [access_token]
    is missing or empty; otherwise it succeeds, stores the access token, stores
    the refresh token when it is present and non-empty, and stores
    [expiresAt = now + expires_in*1000] when [expires_in] is present and
    non-zero. A refresh token or expiry that is not written keeps its previous
    value (a stale expiry is not cleared); no other key changes. *)
Theorem storeTokens_writes (now : Z) (t : TokenPayload) (s : store) :
  (opt_truthy (access_token t) = false ->
     storeTokens now t s = (Err "Token response is missing access_token.", s)) /\
  (forall a, access_token t = Some a -> str_truthy a = true ->
     let s' := snd (storeTokens now t s) in
     fst (storeTokens now t s) = Ok tt /\
     s' !! ACCESS_TOKEN = Some a /\
     s' !! REFRESH_TOKEN =
       match refresh_token t with
       | Some rt => if str_truthy rt then Some rt else s !! REFRESH_TOKEN
       | None => s !! REFRESH_TOKEN end /\
     s' !! TOKEN_EXPIRY =
       match expires_in t with
       | Some e => if num_truthy e then Some (Z_to_string (now + e * 1000)) else s !! TOKEN_EXPIRY
       | None => s !! TOKEN_EXPIRY end /\
     (forall k, k <> ACCESS_TOKEN -> k <> REFRESH_TOKEN -> k <> TOKEN_EXPIRY -> s' !! k = s !! k)).
Proof.
  split.
  - intros H. unfold storeTokens. destruct (access_token t) as [a|]; [|reflexivity].
    simpl in H. rewrite H. reflexivity.
  - intros a Ha Ht. rewrite (storeTokens_lookup now t s a Ha Ht). cbn [fst snd].
    split; [reflexivity|].
    destruct (refresh_token t) as [rt|]; [destruct (str_truthy rt)|];
    (destruct (expires_in t) as [e|]; [destruct (num_truthy e)|]);
    repeat split; intros; rewrite ?lookup_insert;
    unfold ACCESS_TOKEN, REFRESH_TOKEN, TOKEN_EXPIRY in *;
    repeat case_decide; try congruence.
Qed.

Lemma try_catch_bind_ok {A B} (m : M A) (k : A -> M B) (h : string -> M B) s a s' :
  m s = (Ok a, s') -> try_catch (bind m k) h s = try_catch (k a) h s'.
Proof. intros H. unfold try_catch, bind. rewrite H. reflexivity. Qed.

Lemma try_catch_bind_err {A B} (m : M A) (k : A -> M B) (h : string -> M B) s e s' :
  m s = (Err e, s') -> try_catch (bind m k) h s = h e s'.
Proof. intros H. unfold try_catch, bind. rewrite H. reflexivity. Qed.

Lemma refreshToken_ok (env : Env) (s s' : store) :
  refreshToken env s = (Ok tt, s') ->
  exists data a, env_refresh_response env = Ok data /\ access_token data = Some a /\
                 str_truthy a = true /\ s' !! ACCESS_TOKEN = Some a.
Proof.
  unfold refreshToken, bind, getItemAsync.
  destruct (negb (opt_truthy (s !! VAULT_URL))); [discriminate|].
  destruct (negb (opt_truthy (s !! REFRESH_TOKEN))); [discriminate|].
  destruct (getDeviceId env s) as [[d|e] s1]; [|discriminate].
  destruct (env_refresh_response env) as [data|e]; [|discriminate].
  intros H. exists data.
  destruct (access_token data) as [a|] eqn:Ha.
  - destruct (str_truthy a) eqn:Ht.
    + exists a. rewrite (storeTokens_lookup _ data s1 a Ha Ht) in H.
      inversion H; subst s'. repeat split; try done.
      destruct (refresh_token data) as [rt|]; [destruct (str_truthy rt)|];
      (destruct (expires_in data) as [e|]; [destruct (num_truthy e)|]);
      rewrite ?lookup_insert; unfold ACCESS_TOKEN, REFRESH_TOKEN, TOKEN_EXPIRY in *;
      repeat case_decide; congruence.
    + unfold storeTokens in H. rewrite Ha, Ht in H. discriminate.
  - unfold storeTokens in H. rewrite Ha in H. discriminate.
Qed.

(** C3: [getAccessToken()] returns null when no access token is stored;
    returns a stored (non-empty) token unchanged, without touching the store,
    while [now < expiresAt - 60s]; once [now >= expiresAt - 60s] it refreshes:
    when the refresh succeeds it returns the access token of the refresh
    response, now stored; when the refresh fails it runs [logout()] and
    returns null. (storeTokens never stores an empty access token.) *)
Theorem getAccessToken_buffer (env : Env) (s : store) :
  (s !! ACCESS_TOKEN = None -> getAccessToken env s = (Ok None, s)) /\
  (forall t x e,
     s !! ACCESS_TOKEN = Some t -> str_truthy t = true ->
     s !! TOKEN_EXPIRY = Some x -> str_truthy x = true -> js_Number x = Some e ->
     env_now env < e - EXPIRY_BUFFER_MS ->
     getAccessToken env s = (Ok (Some t), s)) /\
  (forall t x e,
     s !! ACCESS_TOKEN = Some t -> str_truthy t = true ->
     s !! TOKEN_EXPIRY = Some x -> str_truthy x = true -> js_Number x = Some e ->
     e - EXPIRY_BUFFER_MS <= env_now env ->
     (forall s', refreshToken env s = (Ok tt, s') ->
        exists data a, env_refresh_response env = Ok data /\ access_token data = Some a /\
                       s' !! ACCESS_TOKEN = Some a /\
                       getAccessToken env s = (Ok (Some a), s')) /\
     (forall err s', refreshToken env s = (Err err, s') ->
        getAccessToken env s = (Ok None, delete_all logout_keys s'))).
Proof.
  assert (Hunf : forall s0, getAccessToken env s0 =
    (if negb (opt_truthy (s0 !! ACCESS_TOKEN)) then (Ok None, s0)
     else if negb (isExpiringSoon (env_now env) (s0 !! TOKEN_EXPIRY)) then (Ok (s0 !! ACCESS_TOKEN), s0)
     else try_catch (refreshToken env ;;; getItemAsync ACCESS_TOKEN)
                    (fun _ => logout ;;; ret None) s0)).
  { intros s0. unfold getAccessToken, bind at 1 2, getItemAsync at 1 2. cbv beta iota.
    destruct (negb (opt_truthy (s0 !! ACCESS_TOKEN))); [reflexivity|].
    destruct (negb (isExpiringSoon (env_now env) (s0 !! TOKEN_EXPIRY))); reflexivity. }
  split; [intros H; rewrite Hunf, H; reflexivity|].
  split.
  - intros t x e Ht Htt Hx Hxt Hn Hlt. rewrite Hunf, Ht, Hx. simpl opt_truthy. rewrite Htt.
    unfold isExpiringSoon. rewrite Hxt, Hn.
    replace (e - EXPIRY_BUFFER_MS <=? env_now env) with false by (symmetry; apply Z.leb_gt; lia).
    reflexivity.
  - intros t x e Ht Htt Hx Hxt Hn Hle.
    assert (Hg : getAccessToken env s =
      try_catch (refreshToken env ;;; getItemAsync ACCESS_TOKEN) (fun _ => logout ;;; ret None) s).
    { rewrite Hunf, Ht, Hx. simpl opt_truthy. rewrite Htt.
      unfold isExpiringSoon. rewrite Hxt, Hn.
      replace (e - EXPIRY_BUFFER_MS <=? env_now env) with true by (symmetry; apply Z.leb_le; lia).
      reflexivity. }
    rewrite Hg. split.
    + intros s' Hr.
      destruct (refreshToken_ok env s s' Hr) as (data & a & Hd & Ha & _ & Hs').
      exists data, a. do 3 (split; [assumption|]).
      rewrite (try_catch_bind_ok _ _ _ _ _ _ Hr).
      unfold try_catch, getItemAsync. rewrite Hs'. reflexivity.
    + intros err s' Hr.
      rewrite (try_catch_bind_err _ _ _ _ _ _ Hr).
      unfold bind. rewrite logout_eq. reflexivity.
Qed.

(* ===================================================================== *)
(** ** Claim on handleCallback *)
(* ===================================================================== *)

(** C2 (counterexample): an [error] parameter that is present but empty is
    ignored ([if (serverError)] is a truthiness test): the callback with
    [error=], a code and the stored state returns the code. *)
Lemma handleCallback_empty_error_ignored :
  let params := [("error", ""); ("code", "ABC"); ("state", "S1")] in
  params_get params "error" = Some "" /\
  handleCallback params {[STATE := "S1"]} = (Ok "ABC", {[STATE := "S1"]}).
Proof. split; reflexivity. Qed.

(** C2 (amended): [handleCallback] never writes the store and fails in this
    order: an [error] parameter with a non-empty value fails with the
    [error_description] (or the raw error when there is no description);
    otherwise a missing or empty [code] fails with the missing-code error;
    otherwise a missing or empty [state] fails with the missing-state error;
    otherwise a [state] that differs from the stored state fails with the
    state-mismatch error, and the login flow then sends no request to the
    token endpoint; when the states match it returns the code. *)
Theorem handleCallback_checks (params : list (string * string)) (s : store) :
  let err := params_get params "error" in
  let code := params_get params "code" in
  let st := params_get params "state" in
  snd (handleCallback params s) = s /\
  (forall e, err = Some e -> str_truthy e = true ->
     fst (handleCallback params s) =
       Err ("Authorization error: " ++
            match params_get params "error_description" with Some d => d | None => e end)) /\
  (opt_truthy err = false -> opt_truthy code = false ->
     fst (handleCallback params s) = Err "Callback URL is missing the authorization code.") /\
  (opt_truthy err = false -> opt_truthy code = true -> opt_truthy st = false ->
     fst (handleCallback params s) = Err "Callback URL is missing the state parameter.") /\
  (forall c r, opt_truthy err = false -> code = Some c -> str_truthy c = true ->
     st = Some r -> str_truthy r = true -> s !! STATE <> Some r ->
     fst (handleCallback params s) = Err "State mismatch - possible CSRF attack detected." /\
     (forall env, handleLogin_callback env params s =
                  (Err "State mismatch - possible CSRF attack detected.", s, []))) /\
  (forall c r, opt_truthy err = false -> code = Some c -> str_truthy c = true ->
     st = Some r -> str_truthy r = true -> s !! STATE = Some r ->
     handleCallback params s = (Ok c, s)).
Proof.
  cbv zeta.
  destruct (opt_truthy (params_get params "error")) eqn:He.
  - destruct (params_get params "error") as [e|] eqn:Hpe; [|discriminate].
    unfold handleCallback. rewrite Hpe, He.
    repeat split; try discriminate; try (intros; discriminate).
    intros e' [= <-] _. reflexivity.
  - split.
    { unfold handleCallback. rewrite He.
      destruct (negb (opt_truthy (params_get params "code"))); [reflexivity|].
      destruct (negb (opt_truthy (params_get params "state"))); [reflexivity|].
      unfold bind, getItemAsync. destruct (negb _); reflexivity. }
    split; [intros e He' Ht; rewrite He' in He; simpl in He; congruence|].
    split; [intros _ Hc; unfold handleCallback; rewrite He, Hc; reflexivity|].
    split; [intros _ Hc Hst; unfold handleCallback; rewrite He, Hc, Hst; reflexivity|].
    split.
    + intros c r _ Hc Hct Hr Hrt Hne.
      assert (Hm : handleCallback params s =
                   (Err "State mismatch - possible CSRF attack detected.", s)).
      { unfold handleCallback. rewrite He, Hc, Hr. unfold opt_truthy. rewrite Hct, Hrt.
        unfold bind, getItemAsync. cbv [negb]. cbv beta iota.
        rewrite bool_decide_eq_false_2; [reflexivity|].
        intros Heq. apply Hne. by rewrite Heq. }
      split.
      * rewrite Hm. reflexivity.
      * intros env. unfold handleLogin_callback. rewrite Hm. reflexivity.
    + intros c r _ Hc Hct Hr Hrt Heq.
      unfold handleCallback. rewrite He, Hc, Hr. unfold opt_truthy. rewrite Hct, Hrt.
      unfold bind, getItemAsync. cbv [negb]. cbv beta iota.
      rewrite Heq, bool_decide_eq_true_2; reflexivity.
Qed.

(* --------------------------------------------------------------------- *)
(** *** Concrete runs of the claims above *)
(* --------------------------------------------------------------------- *)

Lemma login_success_clears_tokens_and_device_id_witness :
  let r := handleLogin_callback env0 login_params0 login_store0 in
  r = (Ok tt, snd (fst r), snd r) /\
  snd (fst r) !! DEVICE_ID = None /\ snd (fst r) !! ACCESS_TOKEN = None.
Proof.
  cbv zeta.
  assert (H : handleLogin_callback env0 login_params0 login_store0 =
              (Ok tt, snd (fst (handleLogin_callback env0 login_params0 login_store0)),
               snd (handleLogin_callback env0 login_params0 login_store0)))
    by (vm_compute; reflexivity).
  destruct (proj2 login_success_clears_tokens_and_device_id _ _ _ _ _ H)
    as (_ & Ha & _ & _ & _ & Hd).
  split; [exact H|]. split; [exact Hd | exact Ha].
Defined.

Lemma storeTokens_writes_witness :
  let t := {| access_token := Some "a"; refresh_token := None; expires_in := Some 3600 |} in
  let s := ({[ REFRESH_TOKEN := "old" ]} : store) in
  snd (storeTokens 1000 t s) !! REFRESH_TOKEN = Some "old" /\
  snd (storeTokens 1000 t s) !! TOKEN_EXPIRY = Some (Z_to_string 3601000).
Proof.
  cbv zeta.
  destruct (proj2 (storeTokens_writes 1000
              {| access_token := Some "a"; refresh_token := None; expires_in := Some 3600 |}
              {[ REFRESH_TOKEN := "old" ]}) "a" eq_refl eq_refl)
    as (_ & _ & Hr & He & _).
  split; [exact Hr | exact He].
Defined.

Lemma getAccessToken_buffer_witness :
  getAccessToken env0 (token_store0 121000) = (Ok (Some "at1"), token_store0 121000) /\
  exists data a s', env_refresh_response env0 = Ok data /\
    getAccessToken env0 (token_store0 31000) = (Ok (Some a), s').
Proof.
  split.
  - apply (proj1 (proj2 (getAccessToken_buffer env0 (token_store0 121000)))
             "at1" (Z_to_string 121000) 121000);
      first [reflexivity | vm_compute; reflexivity].
  - assert (Hr : refreshToken env0 (token_store0 31000) =
                 (Ok tt, snd (refreshToken env0 (token_store0 31000))))
      by (vm_compute; reflexivity).
    destruct (proj1 (proj2 (proj2 (getAccessToken_buffer env0 (token_store0 31000)))
               "at1" (Z_to_string 31000) 31000 eq_refl eq_refl eq_refl eq_refl eq_refl
               ltac:(vm_compute; discriminate)) _ Hr) as (data & a & Hd & _ & _ & Hg).
    exists data, a, (snd (refreshToken env0 (token_store0 31000))). split; assumption.
Defined.

Lemma handleCallback_checks_witness :
  handleLogin_callback env0 [("code", "ABC"); ("state", "S2")] login_store0 =
  (Err "State mismatch - possible CSRF attack detected.", login_store0, []).
Proof.
  destruct (handleCallback_checks [("code", "ABC"); ("state", "S2")] login_store0)
    as (_ & _ & _ & _ & Hmis & _).
  apply (proj2 (Hmis "ABC" "S2" eq_refl eq_refl eq_refl eq_refl eq_refl
                  ltac:(vm_compute; discriminate))).
Defined.

Module InterceptorFacts.
Import Interceptor.

Lemma quiescent_step (st : state) (ev : event) :
  quiescent st = true -> step ev st = None.
Proof.
  intros Hq. unfold quiescent in Hq. rewrite forallb_forall in Hq.
  assert (Hp : forall i p, pcs st !! i = Some p ->
                 match p with Queued | Done _ => true | _ => false end = true).
  { intros i p Hi. apply (Hq (i, p)). apply list_elem_of_In.
    by apply elem_of_map_to_list. }
  destruct ev as [i|i|i err|i tok|i]; simpl;
  destruct (pcs st !! i) as [p|] eqn:Hi; try reflexivity;
  specialize (Hp i p Hi); destruct p; try reflexivity; discriminate.
Qed.

Lemma quiescent_run (st st' : state) (evs : list event) :
  quiescent st = true -> run evs st = Some st' -> st' = st.
Proof.
  intros Hq. destruct evs as [|ev evs]; simpl.
  - congruence.
  - rewrite (quiescent_step st ev Hq). discriminate.
Qed.

(** Five requests get a 401 / token_expired together: one refresh request is
    sent and all five are resumed with the new token. *)
Lemma five_concurrent_401_one_refresh :
  exists st,
    run [Handle401 1; Handle401 2; Handle401 3; Handle401 4; Handle401 5;
         RefreshOk 1; TokenRead 1 "tok"] (start [1; 2; 3; 4; 5]%nat) = Some st /\
    refreshCalls st = 1%nat /\ isRefreshing st = false /\ refreshQueue st = [] /\
    Forall (fun i => pcs st !! i = Some (Done (Resolved "tok"))) [1; 2; 3; 4; 5]%nat.
Proof.
  eexists. split; [vm_compute; reflexivity|].
  vm_compute. repeat split; repeat constructor.
Qed.

(** C1 (code_bug): refresh ownership is single-flight while a refresh is in
    flight, but on the failure path the queue is drained before
    [await AuthService.logout()] and [isRefreshing] is only cleared in
    [finally], after that await. A request whose 401 handler runs during
    the logout sees [isRefreshing = true], is queued after the drain, and the
    flag is then cleared with the request still on the queue: no event can
    resume it any more, it is never resolved or rejected. *)
Theorem refresh_failure_strands_late_request :
  exists st,
    run [Handle401 1; RefreshFail 1 "Network Error"; Handle401 2; LogoutDone 1]
        (start [1; 2]%nat) = Some st /\
    refreshCalls st = 1%nat /\ logoutCalls st = 1%nat /\
    isRefreshing st = false /\ refreshQueue st = [2%nat] /\
    pcs st !! 1%nat = Some (Done (Rejected "Network Error")) /\
    pcs st !! 2%nat = Some Queued /\
    (forall evs st', run evs st = Some st' -> pcs st' !! 2%nat = Some Queued).
Proof.
  eexists. split; [vm_compute; reflexivity|].
  split; [reflexivity|]. split; [reflexivity|]. split; [reflexivity|].
  split; [reflexivity|]. split; [reflexivity|]. split; [reflexivity|].
  intros evs st' Hrun. apply quiescent_run in Hrun; [|vm_compute; reflexivity].
  subst st'. reflexivity.
Qed.

End InterceptorFacts.

Module PKCEFacts.
Import PKCE.

Lemma b64_char_in (i : Z) : In (b64_char i) alphabet.
Proof.
  unfold b64_char. destruct (Nat.lt_ge_cases (Z.to_nat i) (length alphabet)) as [H|H].
  - by apply nth_In.
  - rewrite nth_overflow by exact H. simpl. auto.
Qed.

Lemma btoa_go_two_left (k : nat) (l : list Z) :
  length l = (3 * k + 2)%nat ->
  exists xs, btoa_go l = (xs ++ ["="%char])%list /\ length xs = (4 * k + 3)%nat /\
             Forall (fun c => In c alphabet) xs.
Proof.
  revert l; induction k as [|k IH]; intros l Hl.
  - destruct l as [|b1 [|b2 [|b3 l]]]; simpl in Hl; try lia.
    eexists [_; _; _]; split; [reflexivity|]. split; [reflexivity|].
    repeat (apply List.Forall_cons; [apply b64_char_in|]); apply List.Forall_nil.
  - destruct l as [|b1 [|b2 [|b3 l]]]; simpl in Hl; try lia.
    destruct (IH l) as (xs & Hxs & Hlen & Hall); [lia|].
    cbn [btoa_go]. rewrite Hxs.
    eexists; split; [rewrite !app_comm_cons; reflexivity|].
    split; [simpl; lia|].
    repeat (apply List.Forall_cons; [apply b64_char_in|]); exact Hall.
Qed.

Lemma alphabet_url_map :
  forallb (fun c => url_safe (url_map c) && negb (Ascii.eqb (url_map c) "="%char)) alphabet = true.
Proof. vm_compute. reflexivity. Qed.

Lemma drop_eq_prefix_rev (ys : list ascii) :
  Forall (fun c => c <> "="%char) ys -> drop_eq_prefix (rev ys) = rev ys.
Proof.
  intros Hall. destruct (rev ys) as [|c r] eqn:Hr; [reflexivity|].
  simpl. assert (Hc : In c ys) by (apply in_rev; rewrite Hr; left; reflexivity).
  rewrite List.Forall_forall in Hall. specialize (Hall c Hc).
  destruct (Ascii.eqb_spec c "="%char); [contradiction|reflexivity].
Qed.

(** C7: for every 32 random bytes, [generateCodeVerifier()] returns a string
    of exactly 43 characters, all in [A-Za-z0-9_-], with no '=' padding. *)
Theorem generateCodeVerifier_43_url_safe (randomBytes : list Byte.byte) :
  length randomBytes = 32%nat ->
  exists v, generateCodeVerifier randomBytes = Some v /\ length v = 43%nat /\
            Forall (fun c => url_safe c = true) v /\ ~ In "="%char v.
Proof.
  intros Hlen. unfold generateCodeVerifier, base64URLEncode, btoa.
  rewrite (proj2 (forallb_forall _ _)).
  2:{ intros c Hc. apply in_map_iff in Hc as (b & <- & _).
      pose proof (Byte.to_N_bounded b). apply andb_true_intro. split; apply Z.leb_le; lia. }
  destruct (btoa_go_two_left 10 (map (fun b => Z.of_N (Byte.to_N b)) randomBytes))
    as (xs & Hxs & Hl & Hall).
  { rewrite length_map. lia. }
  rewrite Hxs. simpl option_map.
  assert (Hmap : replace_all "/"%char "_"%char (replace_all "+"%char "-"%char (xs ++ ["="%char])%list)
                 = (map url_map xs ++ ["="%char])%list).
  { unfold replace_all. rewrite !map_app, map_map. reflexivity. }
  rewrite Hmap.
  pose proof alphabet_url_map as Hab. rewrite forallb_forall in Hab.
  assert (Hys : Forall (fun c => url_safe c = true /\ c <> "="%char) (map url_map xs)).
  { apply List.Forall_map. eapply List.Forall_impl; [|exact Hall]. intros c Hc.
    specialize (Hab c Hc). apply andb_true_iff in Hab as [H1 H2].
    split; [exact H1|]. intros He. rewrite He in H2. discriminate. }
  unfold strip_padding. rewrite rev_app_distr. simpl rev at 2. cbn [app drop_eq_prefix].
  change (Ascii.eqb "="%char "="%char) with true. cbv iota.
  rewrite drop_eq_prefix_rev, rev_involutive.
  2:{ eapply List.Forall_impl; [|exact Hys]. intros c [_ H]; exact H. }
  eexists; split; [reflexivity|].
  split; [rewrite length_map; lia|].
  split.
  - eapply List.Forall_impl; [|exact Hys]. intros c [H _]; exact H.
  - intros Hin. rewrite List.Forall_forall in Hys. destruct (Hys _ Hin) as [_ H]. by apply H.
Qed.

Lemma generateCodeVerifier_43_url_safe_witness :
  length (repeat (Byte.x41) 32) = 32%nat /\
  exists v, generateCodeVerifier (repeat (Byte.x41) 32) = Some v /\ length v = 43%nat.
Proof.
  assert (H : length (repeat (Byte.x41) 32) = 32%nat) by reflexivity.
  split; [exact H|].
  destruct (generateCodeVerifier_43_url_safe (repeat (Byte.x41) 32) H) as (v & Hv & Hl & _).
  exists v. split; assumption.
Defined.

End PKCEFacts.

Module DestinationFacts.
Import JSON Destinations.

Lemma parse_empty : parse "" = None.
Proof. reflexivity. Qed.

Lemma toISOString_range (ms : Z) :
  Platform.toISOString ms = if Z.abs ms <=? MAX_TIME_MS then Some (iso ms) else None.
Proof.
  unfold iso, MAX_TIME_MS.
  destruct (Z.abs ms <=? 8640000000000000) eqn:E.
  - apply Z.leb_le in E. unfold Platform.toISOString.
    replace (8640000000000000 <? Z.abs ms) with false by (symmetry; apply Z.ltb_ge; lia).
    reflexivity.
  - apply Z.leb_gt in E. unfold Platform.toISOString.
    replace (8640000000000000 <? Z.abs ms) with true by (symmetry; apply Z.ltb_lt; lia).
    reflexivity.
Qed.

Lemma time_of_seconds_range (x : Float64.double) (ms : Z) :
  Platform.time_of_seconds x = Some ms -> Z.abs ms <= MAX_TIME_MS.
Proof.
  unfold Platform.time_of_seconds, MAX_TIME_MS.
  destruct (Float64.to_Q x) as [a b].
  destruct (Float64.round64 (a * 1000) b) as [t|]; [|discriminate].
  assert (Htb : forall t : Float64.double, 0 < snd (Float64.to_Q t)).
  { intros [m u]. unfold Float64.to_Q. destruct (0 <=? u) eqn:Eu; simpl; [lia|].
    apply Z.leb_gt in Eu. apply Z.pow_pos_nonneg; lia. }
  specialize (Htb t). destruct (Float64.to_Q t) as [ta tb]. simpl in Htb.
  destruct (8640000000000000 * tb <? Z.abs ta) eqn:E; [discriminate|].
  intros H. injection H as <-. apply Z.ltb_ge in E.
  rewrite <- Z.quot_abs by lia. apply Z.quot_le_upper_bound; lia.
Qed.

Lemma parseExpiresAtFromToken_payload (token : string) :
  parseExpiresAtFromToken token =
  match payload_claim token with
  | Some v => match claim_ms v with Some ms => Platform.toISOString ms | None => None end
  | None => None
  end.
Proof.
  unfold parseExpiresAtFromToken, payload_claim.
  destruct (Platform.atob (token_to_base64 token)) as [text|]; [|reflexivity].
  destruct (parse text) as [[| | | | | |kvs]|]; try reflexivity.
  destruct (get_prop kvs "expiresAt") as [[| |e|c p H| | |]|]; try reflexivity.
  - cbn [claim_ms]. destruct (Z.abs (e * 1000) <=? MAX_TIME_MS) eqn:E; [reflexivity|].
    rewrite toISOString_range, E. reflexivity.
  - cbn [claim_ms]. destruct (Float64.round64_Q (Float64.dec_Q c p)) as [x|]; [|reflexivity].
    destruct (Platform.time_of_seconds x); reflexivity.
Qed.

(** The expiry [addDestination] settles on is [expected_expiresAt] whenever
    the 30-day default is itself representable. *)
Lemma expiry_choice (token : string) (now : Z)
  (Hnow : Z.abs (now + THIRTY_DAYS_MS) <= MAX_TIME_MS) :
  match parseExpiresAtFromToken token with
  | Some x => Some x
  | None => Platform.toISOString (now + THIRTY_DAYS_MS)
  end = Some (expected_expiresAt token now).
Proof.
  assert (Hd : Platform.toISOString (now + THIRTY_DAYS_MS) = Some (iso (now + THIRTY_DAYS_MS))).
  { rewrite toISOString_range. apply Z.leb_le in Hnow. now rewrite Hnow. }
  assert (Hms : forall v ms, claim_ms v = Some ms -> Z.abs ms <= MAX_TIME_MS).
  { intros [| |e|c p H| | |] ms; cbn [claim_ms]; try discriminate.
    - destruct (Z.abs (e * 1000) <=? MAX_TIME_MS) eqn:E; [|discriminate].
      intros Hs. injection Hs as <-. now apply Z.leb_le.
    - destruct (Float64.round64_Q (Float64.dec_Q c p)) as [x|]; [|discriminate].
      apply time_of_seconds_range. }
  rewrite parseExpiresAtFromToken_payload. unfold expected_expiresAt.
  destruct (payload_claim token) as [v|]; [|exact Hd].
  destruct (claim_ms v) as [ms|] eqn:Hv; [|exact Hd].
  rewrite toISOString_range. apply Hms in Hv. apply Z.leb_le in Hv. now rewrite Hv.
Qed.

(** C10: [getAllDestinations] never throws and leaves the storage as it is;
    it yields [[]] on a failed read, when nothing or the empty string is
    stored, when the stored text is not JSON, and when the parsed value is
    not an array; for a stored JSON array it yields the array's elements. *)
Theorem getAllDestinations_total :
  (forall s, exists l, getAllDestinations s = (Ok l, s)) /\
  (forall e, getAllDestinations_of (Err e) = []) /\
  getAllDestinations_of (Ok None) = [] /\
  getAllDestinations_of (Ok (Some "")) = [] /\
  (forall raw, parse raw = None -> getAllDestinations_of (Ok (Some raw)) = []) /\
  (forall raw v, parse raw = Some v -> (forall l, v <> JArr l) ->
     getAllDestinations_of (Ok (Some raw)) = []) /\
  (forall raw l, parse raw = Some (JArr l) -> getAllDestinations_of (Ok (Some raw)) = l).
Proof.
  split; [intros s; eexists; reflexivity|].
  split; [reflexivity|]. split; [reflexivity|]. split; [reflexivity|].
  split; [|split].
  - intros raw H. unfold getAllDestinations_of.
    destruct (negb (str_truthy raw)); [reflexivity|]. now rewrite H.
  - intros raw v H Hv. unfold getAllDestinations_of.
    destruct (negb (str_truthy raw)); [reflexivity|]. rewrite H.
    destruct v; try reflexivity. exfalso. exact (Hv l eq_refl).
  - intros raw l H. unfold getAllDestinations_of, str_truthy.
    destruct (String.eqb raw "") eqn:E; cbn [negb].
    + apply String.eqb_eq in E. subst raw. rewrite parse_empty in H. discriminate.
    + now rewrite H.
Qed.

(** C4: two calls [addDestination("vault.example.com//", ...)] from empty
    storage, same normalized server, leave two destinations with different
    ids: the first stores [vault.example.com/], which normalizes again to
    [vault.example.com] and so no longer matches. *)
Theorem addDestination_double_slash_duplicates :
  normalizeServerUrl "vault.example.com//" = "vault.example.com/" /\
  normalizeServerUrl "vault.example.com/" = "vault.example.com" /\
  (let '(r1, s1) := addDestination "vault.example.com//" "t1" None "u1" 1000 ∅ in
   let '(r2, s2) := addDestination "vault.example.com//" "t2" None "u2" 2000 s1 in
   r1 = Ok tt /\ r2 = Ok tt /\
   map (fun d => summary d) (getAllDestinations_of (Ok (s2 !! DESTINATIONS_KEY))) =
   [(Some (JStr "u1"), Some (JStr "vault.example.com/"), Some (JStr "t1"),
     Some (JStr "1970-01-31T00:00:01.000Z"));
    (Some (JStr "u2"), Some (JStr "vault.example.com/"), Some (JStr "t2"),
     Some (JStr "1970-01-31T00:00:02.000Z"))]).
Proof. vm_compute. repeat split. Qed.

(** Two URLs with one origin collide: the second add replaces the first,
    keeping its id and taking the new token and name. *)
Lemma addDestination_url_collision :
  let '(r1, s1) := addDestination "https://Vault.Example.com/foo/bar" "t1" None "u1" 1000 ∅ in
  let '(r2, s2) := addDestination "https://vault.example.com" "t2" (Some " Team ") "u2" 2000 s1 in
  r1 = Ok tt /\ r2 = Ok tt /\
  getAllDestinations_of (Ok (s2 !! DESTINATIONS_KEY)) =
  [JObj [("id", JStr "u1"); ("name", JStr "Team"); ("server", JStr "https://vault.example.com");
         ("token", JStr "t2"); ("expiresAt", JStr "1970-01-31T00:00:02.000Z")]].
Proof. vm_compute. repeat split. Qed.

(** C8 (counterexample): a token whose payload has the numeric claim
    [expiresAt = 10000000000000] is stored with the 30-day default, not with
    that instant: [new Date(1e16)] is past the [Date] range, [toISOString]
    throws, and the throw is caught into [null]. *)
Lemma addDestination_out_of_range_expiresAt_uses_default :
  parse' (Platform.atob (token_to_base64 "eyJleHBpcmVzQXQiOjEwMDAwMDAwMDAwMDAwfQ=="))
    = Some (JObj [("expiresAt", JNum 10000000000000)]) /\
  Platform.toISOString (10000000000000 * 1000) = None /\
  (let '(r, s') := addDestination "https://vault.example.com" "eyJleHBpcmVzQXQiOjEwMDAwMDAwMDAwMDAwfQ==" None "u1" 1000 ∅ in
   r = Ok tt /\
   map (fun d => summary d) (getAllDestinations_of (Ok (s' !! DESTINATIONS_KEY))) =
   [(Some (JStr "u1"), Some (JStr "https://vault.example.com"),
     Some (JStr "eyJleHBpcmVzQXQiOjEwMDAwMDAwMDAwMDAwfQ=="),
     Some (JStr "1970-01-31T00:00:01.000Z"))]).
Proof. vm_compute. repeat split. Qed.

(** C8 (amended): when [now] + 30 days is a representable instant,
    whether [addDestination] succeeds does not depend on the token (a
    malformed token never makes it fail), and on success the new stored
    destination, appended last, carries the payload's numeric [expiresAt]
    (unix seconds, integral or not) as an ISO timestamp when that instant is
    within the [Date] range (+/- 8.64e15 ms; [expiresAt * 1000] is computed
    as a double and truncated to whole milliseconds), and [now] + 30 days
    otherwise: when the token does not decode, the payload is not an object,
    or the claim is absent, non-numeric or out of range. *)
Theorem addDestination_expiresAt (server token token' : string) (name : option string)
  (uuid : string) (now : Z) (s : store)
  (Hnow : Z.abs (now + THIRTY_DAYS_MS) <= MAX_TIME_MS) :
  fst (addDestination server token name uuid now s) =
  fst (addDestination server token' name uuid now s) /\
  (forall s', addDestination server token name uuid now s = (Ok tt, s') ->
   exists rest id nm,
     s' !! DESTINATIONS_KEY =
     Some (stringify (JArr (rest ++
       [JObj [("id", id); ("name", JStr nm); ("server", JStr (normalizeServerUrl server));
              ("token", JStr token); ("expiresAt", JStr (expected_expiresAt token now))]])%list))).
Proof.
  pose proof (expiry_choice token now Hnow) as E1.
  pose proof (expiry_choice token' now Hnow) as E2.
  unfold addDestination, bind, getAllDestinations. cbv beta iota zeta.
  destruct (find_existing _ _) as [existing|e].
  2: { split; [reflexivity|]. intros s' H. discriminate H. }
  rewrite E1, E2. cbv iota.
  destruct (filter_rest _ _) as [rest|e].
  2: { split; [reflexivity|]. intros s' H. discriminate H. }
  split; [reflexivity|].
  intros s' H. unfold setItemAsync in H. injection H as <-.
  do 3 eexists. rewrite lookup_insert. reflexivity.
Qed.

Lemma getAllDestinations_total_witness :
  getAllDestinations_of (Ok (Some "[1,2]")) = [JNum 1; JNum 2] /\
  getAllDestinations_of (Ok (Some "{}")) = [] /\
  getAllDestinations_of (Ok (Some "[1,")) = [].
Proof.
  destruct getAllDestinations_total as (_ & _ & _ & _ & Hnone & Hobj & Harr).
  split; [apply Harr; reflexivity|]. split.
  - apply (Hobj "{}" (JObj [])); [reflexivity | intros l Hl; discriminate Hl].
  - apply Hnone; reflexivity.
Defined.

Lemma addDestination_expiresAt_witness :
  Z.abs (1000 + THIRTY_DAYS_MS) <= MAX_TIME_MS /\
  expected_expiresAt "eyJleHBpcmVzQXQiOjE4OTM0NTYwMDB9" 1000 = "2030-01-01T00:00:00.000Z" /\
  fst (addDestination "https://vault.example.com" "eyJleHBpcmVzQXQiOjE4OTM0NTYwMDB9" None "u1" 1000 ∅)
  = fst (addDestination "https://vault.example.com" "not-a-token!" None "u1" 1000 ∅) /\
  (exists rest id nm,
    snd (addDestination "https://vault.example.com" "eyJleHBpcmVzQXQiOjE4OTM0NTYwMDB9" None "u1" 1000 ∅)
      !! DESTINATIONS_KEY =
    Some (stringify (JArr (rest ++
      [JObj [("id", id); ("name", JStr nm); ("server", JStr "https://vault.example.com");
             ("token", JStr "eyJleHBpcmVzQXQiOjE4OTM0NTYwMDB9");
             ("expiresAt", JStr "2030-01-01T00:00:00.000Z")]])%list))) /\
  expected_expiresAt "eyJleHBpcmVzQXQiOjE4OTM0NTYwMDAuNX0=" 1000 = "2030-01-01T00:00:00.500Z" /\
  exists rest id nm,
    snd (addDestination "https://vault.example.com" "eyJleHBpcmVzQXQiOjE4OTM0NTYwMDAuNX0=" None "u1" 1000 ∅)
      !! DESTINATIONS_KEY =
    Some (stringify (JArr (rest ++
      [JObj [("id", id); ("name", JStr nm); ("server", JStr "https://vault.example.com");
             ("token", JStr "eyJleHBpcmVzQXQiOjE4OTM0NTYwMDAuNX0=");
             ("expiresAt", JStr "2030-01-01T00:00:00.500Z")]])%list)).
Proof.
  assert (Hnow : Z.abs (1000 + THIRTY_DAYS_MS) <= MAX_TIME_MS)
    by (unfold THIRTY_DAYS_MS, MAX_TIME_MS; lia).
  assert (He : expected_expiresAt "eyJleHBpcmVzQXQiOjE4OTM0NTYwMDB9" 1000 = "2030-01-01T00:00:00.000Z")
    by (vm_compute; reflexivity).
  assert (Hf : expected_expiresAt "eyJleHBpcmVzQXQiOjE4OTM0NTYwMDAuNX0=" 1000 = "2030-01-01T00:00:00.500Z")
    by (vm_compute; reflexivity).
  destruct (addDestination_expiresAt "https://vault.example.com" "eyJleHBpcmVzQXQiOjE4OTM0NTYwMDB9"
              "not-a-token!" None "u1" 1000 ∅ Hnow) as [Hsame Hstored].
  split; [exact Hnow|]. split; [exact He|]. split; [exact Hsame|].
  split; [rewrite <- He;
          exact (Hstored _ (eq_refl (addDestination "https://vault.example.com"
                   "eyJleHBpcmVzQXQiOjE4OTM0NTYwMDB9" None "u1" 1000 ∅)))|].
  split; [exact Hf|]. rewrite <- Hf.
  destruct (addDestination "https://vault.example.com" "eyJleHBpcmVzQXQiOjE4OTM0NTYwMDAuNX0="
              None "u1" 1000 ∅) as [r s'] eqn:E.
  assert (Hr : r = Ok tt).
  { change r with (fst (r, s')). rewrite <- E. vm_compute. reflexivity. }
  subst r.
  destruct (addDestination_expiresAt "https://vault.example.com" "eyJleHBpcmVzQXQiOjE4OTM0NTYwMDAuNX0="
              "not-a-token!" None "u1" 1000 ∅ Hnow) as [_ Hstored'].
  exact (Hstored' s' E).
Defined.

End DestinationFacts.

(* ===================================================================== *)
(** ** Further properties of AuthService *)
(* ===================================================================== *)

Module AuthFacts.

Lemma getAccessToken_unfold (env : Env) (s : store) :
  getAccessToken env s =
  (if negb (opt_truthy (s !! ACCESS_TOKEN)) then (Ok None, s)
   else if negb (isExpiringSoon (env_now env) (s !! TOKEN_EXPIRY)) then (Ok (s !! ACCESS_TOKEN), s)
   else try_catch (refreshToken env ;;; getItemAsync ACCESS_TOKEN)
                  (fun _ => logout ;;; ret None) s).
Proof.
  unfold getAccessToken, bind at 1 2, getItemAsync at 1 2. cbv beta iota.
  destruct (negb (opt_truthy (s !! ACCESS_TOKEN))); [reflexivity|].
  destruct (negb (isExpiringSoon (env_now env) (s !! TOKEN_EXPIRY))); reflexivity.
Qed.

Lemma getDeviceId_fresh (env : Env) (s : store) :
  opt_truthy (s !! DEVICE_ID) = false ->
  getDeviceId env s = (Ok (device_id_of env), <[DEVICE_ID := device_id_of env]> s).
Proof.
  intros H. unfold getDeviceId, bind, getItemAsync. cbv beta iota.
  destruct (s !! DEVICE_ID) as [d|]; simpl in H.
  - rewrite H. reflexivity.
  - reflexivity.
Qed.

Lemma getDeviceId_stored (env : Env) (s : store) (d : string) :
  s !! DEVICE_ID = Some d -> str_truthy d = true -> getDeviceId env s = (Ok d, s).
Proof.
  intros H Hd. unfold getDeviceId, bind, getItemAsync. cbv beta iota.
  rewrite H, Hd. reflexivity.
Qed.

(** [getDeviceId()] returns a stored non-empty identifier without writing;
    otherwise it stores and returns the platform identifier, or the random
    UUID when the platform has none. Once it has returned a non-empty
    identifier, every later call returns that identifier, whatever the
    platform answers then. *)
Theorem getDeviceId_stable (env : Env) (s : store) :
  (forall d, s !! DEVICE_ID = Some d -> str_truthy d = true -> getDeviceId env s = (Ok d, s)) /\
  (opt_truthy (s !! DEVICE_ID) = false ->
     getDeviceId env s =
     (Ok (match env_native_id env with Some n => n | None => env_uuid env end),
      <[DEVICE_ID := match env_native_id env with Some n => n | None => env_uuid env end]> s)) /\
  (forall d s1 env', getDeviceId env s = (Ok d, s1) -> str_truthy d = true ->
     getDeviceId env' s1 = (Ok d, s1)).
Proof.
  split; [intros d; apply getDeviceId_stored|].
  split; [apply getDeviceId_fresh|].
  intros d s1 env' H Hd.
  destruct (opt_truthy (s !! DEVICE_ID)) eqn:Ht.
  - destruct (s !! DEVICE_ID) as [d0|] eqn:Hs; [|discriminate].
    simpl in Ht. rewrite (getDeviceId_stored env s d0 Hs Ht) in H.
    injection H as <- <-. now apply getDeviceId_stored.
  - rewrite (getDeviceId_fresh env s Ht) in H. injection H as <- <-.
    apply getDeviceId_stored; [apply lookup_insert_eq | exact Hd].
Qed.

(** [isAuthenticated()] is true exactly when some access token is stored,
    even an empty one, while [getAccessToken()] treats an empty token as
    absent: with [""] stored, the user counts as authenticated but no token
    is handed out (and nothing is refreshed or written). *)
Theorem isAuthenticated_empty_token (env : Env) (s : store) :
  (fst (isAuthenticated s) = Ok true <-> is_Some (s !! ACCESS_TOKEN)) /\
  snd (isAuthenticated s) = s /\
  (s !! ACCESS_TOKEN = Some "" ->
     fst (isAuthenticated s) = Ok true /\ getAccessToken env s = (Ok None, s)).
Proof.
  unfold isAuthenticated, bind, getItemAsync, ret. cbv beta iota.
  split; [|split; [reflexivity|]].
  - destruct (s !! ACCESS_TOKEN); simpl; split; intros H.
    + eexists; reflexivity.
    + reflexivity.
    + discriminate.
    + destruct H; discriminate.
  - intros H. rewrite H. split; [reflexivity|].
    rewrite getAccessToken_unfold, H. reflexivity.
Qed.

(** A stored access token with no expiry, or with an empty one, is never
    refreshed: [getAccessToken()] returns it as it is and writes nothing. *)
Theorem getAccessToken_no_expiry (env : Env) (s : store) (t : string) :
  s !! ACCESS_TOKEN = Some t -> str_truthy t = true ->
  (s !! TOKEN_EXPIRY = None \/ s !! TOKEN_EXPIRY = Some "") ->
  getAccessToken env s = (Ok (Some t), s).
Proof.
  intros Ht Htt Hx. rewrite getAccessToken_unfold, Ht. simpl opt_truthy. rewrite Htt.
  destruct Hx as [Hx|Hx]; rewrite Hx; reflexivity.
Qed.

(** After [logout()], [isAuthenticated()] is false and [getAccessToken()]
    returns null without touching the store. *)
Theorem logout_then_unauthenticated (env : Env) (s : store) :
  let s' := snd (logout s) in
  fst (isAuthenticated s') = Ok false /\ getAccessToken env s' = (Ok None, s').
Proof.
  cbv zeta. rewrite logout_eq. cbn [snd].
  assert (H : delete_all logout_keys s !! ACCESS_TOKEN = None).
  { rewrite lookup_delete_all. rewrite bool_decide_eq_true_2; [reflexivity|].
    vm_compute. right. right. right. left. }
  split.
  - unfold isAuthenticated, bind, getItemAsync, ret. cbv beta iota. now rewrite H.
  - rewrite getAccessToken_unfold, H. reflexivity.
Qed.

Lemma storeTokens_err (now : Z) (t : TokenPayload) (s s' : store) (e : string) :
  storeTokens now t s = (Err e, s') -> s' = s.
Proof.
  intros H. destruct (access_token t) as [a|] eqn:Ha.
  - destruct (str_truthy a) eqn:Hat.
    + rewrite (storeTokens_lookup now t s a Ha Hat) in H. discriminate.
    + unfold storeTokens in H. rewrite Ha, Hat in H. now injection H.
  - unfold storeTokens in H. rewrite Ha in H. now injection H.
Qed.

Lemma getDeviceId_others (env : Env) (s s1 : store) (d : string) :
  getDeviceId env s = (Ok d, s1) -> forall k, k <> DEVICE_ID -> s1 !! k = s !! k.
Proof.
  intros H k Hk. destruct (opt_truthy (s !! DEVICE_ID)) eqn:Ht.
  - destruct (s !! DEVICE_ID) as [d0|] eqn:Hs; [|discriminate].
    rewrite (getDeviceId_stored env s d0 Hs Ht) in H. now injection H as _ <-.
  - rewrite (getDeviceId_fresh env s Ht) in H. injection H as _ <-.
    now apply lookup_insert_ne.
Qed.

(** [refreshToken()] fails, writing nothing, when no vault URL is stored,
    then when no refresh token is stored; and whenever it fails, every key
    but the device identifier (which [getDeviceId()] may have written) keeps
    its value: a failed refresh never loses the stored tokens. *)
Theorem refreshToken_failure_keeps_session (env : Env) (s : store) :
  (opt_truthy (s !! VAULT_URL) = false ->
     refreshToken env s = (Err "No vault URL found - cannot refresh token.", s)) /\
  (opt_truthy (s !! VAULT_URL) = true -> opt_truthy (s !! REFRESH_TOKEN) = false ->
     refreshToken env s = (Err "No refresh token found - user must log in again.", s)) /\
  (forall e s', refreshToken env s = (Err e, s') ->
     forall k, k <> DEVICE_ID -> s' !! k = s !! k).
Proof.
  assert (Hunf : refreshToken env s =
    if negb (opt_truthy (s !! VAULT_URL)) then (Err "No vault URL found - cannot refresh token.", s)
    else if negb (opt_truthy (s !! REFRESH_TOKEN))
    then (Err "No refresh token found - user must log in again.", s)
    else (_deviceId <-- getDeviceId env ;;
          match env_refresh_response env with
          | Err e => throw e
          | Ok data => storeTokens (env_now env) data
          end) s).
  { unfold refreshToken, bind at 1 2, getItemAsync at 1 2. cbv beta iota.
    destruct (negb (opt_truthy (s !! VAULT_URL))); [reflexivity|].
    destruct (negb (opt_truthy (s !! REFRESH_TOKEN))); reflexivity. }
  split; [intros H; rewrite Hunf, H; reflexivity|].
  split; [intros H1 H2; rewrite Hunf, H1, H2; reflexivity|].
  intros e s' H k Hk. rewrite Hunf in H.
  destruct (negb (opt_truthy (s !! VAULT_URL))); [now injection H as _ <-|].
  destruct (negb (opt_truthy (s !! REFRESH_TOKEN))); [now injection H as _ <-|].
  unfold bind in H. destruct (getDeviceId env s) as [[d|e'] s1] eqn:Hd.
  - rewrite <- (getDeviceId_others env s s1 d Hd k Hk).
    destruct (env_refresh_response env) as [data|e'].
    + apply storeTokens_err in H. now subst s'.
    + unfold throw in H. now injection H as _ <-.
  - unfold getDeviceId, bind, getItemAsync in Hd. cbv beta iota in Hd.
    destruct (s !! DEVICE_ID) as [d0|]; [destruct (str_truthy d0)|]; discriminate.
Qed.

Lemma str_app_assoc (a b c : string) : (a ++ b) ++ c = a ++ (b ++ c).
Proof. induction a as [|x a IH]; [reflexivity|]. exact (f_equal (String x) IH). Qed.

Lemma str_app_nil_r (a : string) : a ++ "" = a.
Proof. induction a as [|x a IH]; [reflexivity|]. exact (f_equal (String x) IH). Qed.

Lemma parse_digits_shift (ds : string) (a b n : Z) :
  parse_digits ds a = Some n ->
  parse_digits ds b = Some (n + (b - a) * 10 ^ Z.of_nat (String.length ds)).
Proof.
  revert a b n; induction ds as [|c r IH]; intros a b n H; simpl in *.
  - injection H as <-. f_equal. lia.
  - destruct (char_digit c) as [d|]; [|discriminate].
    rewrite (IH _ (b * 10 + d) _ H). f_equal.
    rewrite Nat2Z.inj_succ, Z.pow_succ_r by lia. lia.
Qed.

Lemma parse_digits_app (ds acc : string) (a n : Z) :
  parse_digits ds 0 = Some n ->
  parse_digits (ds ++ acc) a = parse_digits acc (a * 10 ^ Z.of_nat (String.length ds) + n).
Proof.
  assert (G : forall ds a n, parse_digits ds a = Some n ->
            parse_digits (ds ++ acc) a = parse_digits acc n).
  { induction ds0 as [|c r IH]; intros a0 n0 H; simpl in *.
    - now injection H as <-.
    - destruct (char_digit c); [|discriminate]. now apply IH. }
  intros H. apply G. rewrite (parse_digits_shift ds 0 a n H). f_equal. lia.
Qed.

Lemma N_digits_S (f : nat) (n : Z) (acc : string) :
  N_digits (S f) n acc =
  if n <? 10 then String (digit_char (n mod 10)) acc
  else N_digits f (n / 10) (String (digit_char (n mod 10)) acc).
Proof. reflexivity. Qed.

Lemma N_digits_spec (f : nat) (n : Z) (acc : string) :
  0 <= n < 10 ^ Z.of_nat (S f) ->
  exists ds, N_digits (S f) n acc = ds ++ acc /\ parse_digits ds 0 = Some n /\
             (exists c r, ds = String c r /\ char_digit c <> None).
Proof.
  revert n acc; induction f as [|f IH]; intros n acc Hn;
  (assert (Hd : char_digit (digit_char (n mod 10)) = Some (n mod 10));
   [ pose proof (Z.mod_pos_bound n 10 ltac:(lia)) as Hb;
     unfold char_digit, digit_char; rewrite nat_ascii_embedding by lia;
     replace ((48 <=? 48 + Z.to_nat (n mod 10))%nat && (48 + Z.to_nat (n mod 10) <=? 57)%nat)
       with true by (symmetry; apply andb_true_intro; split; apply Nat.leb_le; lia);
     f_equal; lia | ]);
  rewrite N_digits_S; destruct (n <? 10) eqn:Hlt.
  1,3: apply Z.ltb_lt in Hlt; exists (String (digit_char (n mod 10)) EmptyString);
       split; [reflexivity|]; split;
       [ cbn [parse_digits]; rewrite Hd; f_equal; rewrite Z.mod_small by lia; lia
       | do 2 eexists; split; [reflexivity|]; rewrite Hd; discriminate ].
  - apply Z.ltb_ge in Hlt. simpl in Hn. lia.
  - apply Z.ltb_ge in Hlt.
    destruct (IH (n / 10) (String (digit_char (n mod 10)) acc)) as (ds & Heq & Hp & Hc).
    { split; [apply Z.div_pos; lia|]. apply Z.div_lt_upper_bound; [lia|].
      rewrite (Nat2Z.inj_succ (S f)), Z.pow_succ_r in Hn by lia. lia. }
    exists (ds ++ String (digit_char (n mod 10)) EmptyString).
    split; [rewrite Heq, str_app_assoc; reflexivity|]. split.
    + rewrite (parse_digits_app _ _ 0 (n / 10) Hp). cbn [parse_digits]. rewrite Hd. f_equal.
      pose proof (Z.div_mod n 10 ltac:(lia)). lia.
    + destruct Hc as (c & r & -> & Hc). exists c, (r ++ String (digit_char (n mod 10)) EmptyString).
      split; [reflexivity | exact Hc].
Qed.

Lemma size_nat_bound (p : positive) : Z.pos p < 2 ^ Z.of_nat (Pos.size_nat p).
Proof.
  induction p as [p IH|p IH|]; cbn [Pos.size_nat]; try (simpl; lia);
  rewrite Nat2Z.inj_succ, Z.pow_succ_r by lia; lia.
Qed.

(** [Number(String(z))] is [z] for every integer [z]. *)
Lemma js_Number_Z_to_string (z : Z) : js_Number (Z_to_string z) = Some z.
Proof.
  unfold Z_to_string.
  destruct (N_digits_spec (Pos.size_nat (Z.to_pos (Z.abs z + 1))) (Z.abs z) "")
    as (ds & Heq & Hp & c & r & Hds & Hc).
  { split; [lia|].
    pose proof (size_nat_bound (Z.to_pos (Z.abs z + 1))) as Hs.
    rewrite Z2Pos.id in Hs by lia.
    assert (H2 : 2 ^ Z.of_nat (Pos.size_nat (Z.to_pos (Z.abs z + 1))) <=
                 10 ^ Z.of_nat (S (Pos.size_nat (Z.to_pos (Z.abs z + 1))))).
    { apply Z.le_trans with (10 ^ Z.of_nat (Pos.size_nat (Z.to_pos (Z.abs z + 1)))).
      - apply Z.pow_le_mono_l. lia.
      - apply Z.pow_le_mono_r; lia. }
    lia. }
  rewrite Heq, str_app_nil_r. rewrite Hds in *.
  destruct (z <? 0) eqn:Hz.
  - apply Z.ltb_lt in Hz. cbn [js_Number]. rewrite Hp. simpl. f_equal. lia.
  - apply Z.ltb_ge in Hz. unfold js_Number.
    assert (Hnm : c <> "-"%char).
    { intros ->. apply Hc. reflexivity. }
    destruct c as [b0 b1 b2 b3 b4 b5 b6 b7].
    destruct b0, b1, b2, b3, b4, b5, b6, b7;
      try (rewrite Hp; f_equal; lia); exfalso; apply Hnm; reflexivity.
Qed.

Lemma storeTokens_access_expiry (now : Z) (t : TokenPayload) (s : store) (a : string) (e : Z) :
  access_token t = Some a -> str_truthy a = true -> expires_in t = Some e -> e <> 0 ->
  snd (storeTokens now t s) !! ACCESS_TOKEN = Some a /\
  snd (storeTokens now t s) !! TOKEN_EXPIRY = Some (Z_to_string (now + e * 1000)).
Proof.
  intros Ha Hat He Hne. rewrite (storeTokens_lookup now t s a Ha Hat). cbn [snd].
  rewrite He. replace (num_truthy e) with true
    by (unfold num_truthy; symmetry; apply negb_true_iff, Z.eqb_neq; exact Hne).
  destruct (refresh_token t) as [rt|]; [destruct (str_truthy rt)|];
  rewrite ?lookup_insert_eq; (split; [|reflexivity]);
  rewrite ?lookup_insert_ne by keys_neq; apply lookup_insert_eq.
Qed.

(** Right after [storeTokens(tokens)] has stored an access token with a
    non-zero [expires_in] (seconds), [getAccessToken()] at the same clock
    returns that token without any refresh when [expires_in > 60]; when
    [expires_in <= 60] the stored expiry is already inside the 60-second
    buffer and it goes straight to [refreshToken()]. *)
Theorem storeTokens_then_getAccessToken (env : Env) (t : TokenPayload) (s : store) (a : string) (e : Z) :
  access_token t = Some a -> str_truthy a = true -> expires_in t = Some e -> e <> 0 ->
  let s' := snd (storeTokens (env_now env) t s) in
  fst (storeTokens (env_now env) t s) = Ok tt /\
  (60 < e -> getAccessToken env s' = (Ok (Some a), s')) /\
  (e <= 60 -> getAccessToken env s' =
     try_catch (refreshToken env ;;; getItemAsync ACCESS_TOKEN) (fun _ => logout ;;; ret None) s').
Proof.
  intros Ha Hat He Hne. cbv zeta.
  destruct (storeTokens_access_expiry (env_now env) t s a e Ha Hat He Hne) as [H1 H2].
  split; [rewrite (storeTokens_lookup _ t s a Ha Hat); reflexivity|].
  assert (Hx : str_truthy (Z_to_string (env_now env + e * 1000)) = true) by apply Z_to_string_truthy.
  rewrite getAccessToken_unfold, H1, H2. simpl opt_truthy. rewrite Hat. cbv [negb].
  unfold isExpiringSoon. rewrite Hx, js_Number_Z_to_string. unfold EXPIRY_BUFFER_MS.
  split; intros Hc.
  - replace (env_now env + e * 1000 - 60 * 1000 <=? env_now env) with false
      by (symmetry; apply Z.leb_gt; lia). reflexivity.
  - replace (env_now env + e * 1000 - 60 * 1000 <=? env_now env) with true
      by (symmetry; apply Z.leb_le; lia). reflexivity.
Qed.

Lemma getAccessToken_no_expiry_witness :
  getAccessToken env0 {[ ACCESS_TOKEN := "at1" ]} = (Ok (Some "at1"), {[ ACCESS_TOKEN := "at1" ]}).
Proof.
  apply getAccessToken_no_expiry.
  - vm_compute. reflexivity.
  - reflexivity.
  - left. vm_compute. reflexivity.
Defined.

Lemma storeTokens_then_getAccessToken_witness :
  let t := {| access_token := Some "at1"; refresh_token := Some "rt1"; expires_in := Some 3600 |} in
  let s' := snd (storeTokens (env_now env0) t ∅) in
  getAccessToken env0 s' = (Ok (Some "at1"), s').
Proof.
  cbv zeta.
  apply (proj1 (proj2 (storeTokens_then_getAccessToken env0
    {| access_token := Some "at1"; refresh_token := Some "rt1"; expires_in := Some 3600 |}
    ∅ "at1" 3600 eq_refl eq_refl eq_refl ltac:(lia)))). lia.
Defined.

End AuthFacts.

Module InterceptorInv.
Import Interceptor.

Lemma lookup_drain (l : list nat) (m : gmap nat pc) (v : pc) (k : nat) :
  fold_left (fun m j => <[j := v]> m) l m !! k =
  if bool_decide (k ∈ l) then Some v else m !! k.
Proof.
  revert m. induction l as [|j l IH]; intros m; cbn [fold_left].
  - rewrite bool_decide_eq_false_2; [reflexivity|]. apply not_elem_of_nil.
  - rewrite IH. destruct (bool_decide (k ∈ l)) eqn:Hl.
    + apply bool_decide_eq_true in Hl. rewrite bool_decide_eq_true_2; [reflexivity|].
      by apply elem_of_cons; right.
    + apply bool_decide_eq_false in Hl. destruct (decide (k = j)) as [->|Hne].
      * rewrite lookup_insert_eq, bool_decide_eq_true_2; [reflexivity|]. apply elem_of_cons; by left.
      * rewrite lookup_insert_ne by congruence. rewrite bool_decide_eq_false_2; [reflexivity|].
        rewrite elem_of_cons. tauto.
Qed.

Lemma Inv_start (ids : list nat) : Inv (start ids).
Proof.
  assert (H : forall i p, pcs (start ids) !! i = Some p -> p = Got401).
  { intros i p Hi. unfold start in Hi; simpl in Hi.
    apply elem_of_list_to_map_2, list_elem_of_In, in_map_iff in Hi as (x & Heq & _).
    congruence. }
  constructor; simpl.
  - intros i. split; [intros Hi; apply H in Hi; discriminate|intros Hi; by apply not_elem_of_nil in Hi].
  - constructor.
  - split; [discriminate|]. intros (i & p & Hi & Ho). apply H in Hi. subst. discriminate.
  - intros i j (p & Hi & Ho). apply H in Hi. subst. discriminate.
Qed.

Ltac pc_simpl :=
  repeat match goal with
  | |- context [ <[?i := _]> _ !! ?i ] => rewrite lookup_insert_eq
  | H : context [ <[?i := _]> _ !! ?i ] |- _ => rewrite lookup_insert_eq in H
  | Hne : ?k <> ?i |- context [ <[?i := _]> _ !! ?k ] => rewrite lookup_insert_ne by congruence
  | Hne : ?k <> ?i, H : context [ <[?i := _]> _ !! ?k ] |- _ => rewrite lookup_insert_ne in H by congruence
  end.

Lemma Inv_step (ev : event) (st st' : state) :
  Inv st -> step ev st = Some st' -> Inv st'.
Proof.
  intros [Hq Hnd Hf Hs] Hst.
  destruct ev as [i|i|i err|i tok|i]; simpl in Hst;
    destruct (pcs st !! i) as [p|] eqn:Hi; try discriminate; destruct p; try discriminate.
  - (* Handle401 *)
    assert (Hiq : i ∉ refreshQueue st) by (rewrite <- Hq, Hi; discriminate).
    assert (Hio : ~ is_owner st i) by (intros (p & Hp & Ho); rewrite Hi in Hp; injection Hp as <-; discriminate).
    destruct (isRefreshing st) eqn:Hr; injection Hst as <-; constructor; unfold is_owner; simpl.
    + intros k. destruct (decide (k = i)) as [->|Hne]; pc_simpl.
      * split; [intros _; apply elem_of_app; right; apply list_elem_of_singleton; reflexivity|reflexivity].
      * rewrite Hq, elem_of_app, list_elem_of_singleton. tauto.
    + apply NoDup_app. split; [exact Hnd|]. split; [|apply NoDup_singleton].
      intros x Hx Hx'. apply list_elem_of_singleton in Hx'. subst. contradiction.
    + split; [intros _|reflexivity]. destruct (proj1 Hf eq_refl) as (j & p & Hj & Ho).
      exists j, p. destruct (decide (j = i)) as [->|Hne]; [exfalso; apply Hio; exists p; auto|]. pc_simpl. auto.
    + intros j k (p & Hj & Hoj) (p' & Hk & Hok).
      destruct (decide (j = i)) as [->|Hne]; [pc_simpl; injection Hj as <-; discriminate|].
      destruct (decide (k = i)) as [->|Hne']; [pc_simpl; injection Hk as <-; discriminate|].
      pc_simpl. apply Hs; eexists; eauto.
    + intros k. destruct (decide (k = i)) as [->|Hne]; pc_simpl.
      * split; [discriminate|contradiction].
      * apply Hq.
    + exact Hnd.
    + split; [intros _; exists i, AwaitRefresh; pc_simpl; auto|reflexivity].
    + intros j k (p & Hj & Hoj) (p' & Hk & Hok).
      destruct (decide (j = i)) as [->|Hne]; destruct (decide (k = i)) as [->|Hne']; [reflexivity| | |];
      pc_simpl; exfalso.
      * assert (Hc : false = true) by (apply Hf; exists k, p'; auto). discriminate.
      * assert (Hc : false = true) by (apply Hf; exists j, p; auto). discriminate.
      * assert (Hc : false = true) by (apply Hf; exists j, p; auto). discriminate.
  - (* RefreshOk *)
    injection Hst as <-. constructor; unfold is_owner; simpl; [| exact Hnd | |].
    + intros k. destruct (decide (k = i)) as [->|Hne]; pc_simpl.
      * rewrite <- Hq, Hi. split; discriminate.
      * apply Hq.
    + rewrite Hf. split; intros (j & p & Hj & Ho).
      * exists i, AwaitGetToken. pc_simpl. auto.
      * exists i, AwaitRefresh. auto.
    + intros j k (p & Hj & Hoj) (p' & Hk & Hok).
      destruct (decide (j = i)) as [->|Hne]; destruct (decide (k = i)) as [->|Hne']; [reflexivity| | |];
      pc_simpl.
      * symmetry. apply Hs; [exists p'; auto|exists AwaitRefresh; auto].
      * apply Hs; [exists p; auto|exists AwaitRefresh; auto].
      * apply Hs; [exists p; auto|exists p'; auto].
  - (* RefreshFail *)
    injection Hst as <-. unfold drainRefreshQueue. constructor; unfold is_owner; simpl.
    + intros k. split; [|intros Hk; by apply not_elem_of_nil in Hk]. intros Hk.
      destruct (decide (k = i)) as [->|Hne]; pc_simpl; [discriminate|].
      rewrite lookup_drain in Hk. case_bool_decide; [discriminate|]. apply Hq in Hk. contradiction.
    + constructor.
    + assert (Hr : isRefreshing st = true) by (apply Hf; exists i, AwaitRefresh; auto).
      rewrite Hr. split; [intros _; exists i, (AwaitLogout err); pc_simpl; auto|reflexivity].
    + intros j k (p & Hj & Hoj) (p' & Hk & Hok).
      assert (Hown : forall x q, x <> i -> fold_left (fun m j => <[j := Done (Rejected err)]> m) (refreshQueue st) (pcs st) !! x = Some q -> owner q = true -> x = i).
      { intros x q Hx Hxq Ho. rewrite lookup_drain in Hxq. case_bool_decide.
        - injection Hxq as <-. discriminate.
        - apply Hs; [exists q; auto|exists AwaitRefresh; auto]. }
      destruct (decide (j = i)) as [->|Hne]; destruct (decide (k = i)) as [->|Hne']; [reflexivity| | |];
      pc_simpl.
      * symmetry. eapply Hown; eauto.
      * eapply Hown; eauto.
      * exfalso. apply Hne. eapply Hown; eauto.
  - (* TokenRead *)
    injection Hst as <-. unfold set_refreshing, set_pc, drainRefreshQueue. constructor; unfold is_owner; simpl.
    + intros k. split; [|intros Hk; by apply not_elem_of_nil in Hk]. intros Hk.
      destruct (decide (k = i)) as [->|Hne]; pc_simpl; [discriminate|].
      rewrite lookup_drain in Hk. case_bool_decide; [discriminate|]. apply Hq in Hk. contradiction.
    + constructor.
    + split; [discriminate|]. intros (k & p & Hk & Ho).
      destruct (decide (k = i)) as [->|Hne]; pc_simpl; [injection Hk as <-; discriminate|].
      rewrite lookup_drain in Hk. case_bool_decide; [injection Hk as <-; discriminate|].
      exfalso; apply Hne, Hs; [exists p; auto|exists AwaitGetToken; auto].
    + intros j k (p & Hj & Hoj) (p' & Hk & Hok). exfalso.
      destruct (decide (j = i)) as [->|Hne]; pc_simpl; [injection Hj as <-; discriminate|].
      rewrite lookup_drain in Hj. case_bool_decide; [injection Hj as <-; discriminate|].
      exfalso; apply Hne, Hs; [exists p; auto|exists AwaitGetToken; auto].
  - (* LogoutDone *)
    injection Hst as <-. unfold set_refreshing, set_pc. constructor; unfold is_owner; simpl; [| exact Hnd | |].
    + intros k. destruct (decide (k = i)) as [->|Hne]; pc_simpl.
      * rewrite <- Hq, Hi. split; discriminate.
      * apply Hq.
    + split; [discriminate|]. intros (k & p & Hk & Ho).
      destruct (decide (k = i)) as [->|Hne]; pc_simpl; [injection Hk as <-; discriminate|].
      exfalso; apply Hne, Hs; [exists p; auto|exists (AwaitLogout err); auto].
    + intros j k (p & Hj & Hoj) (p' & Hk & Hok). exfalso.
      destruct (decide (j = i)) as [->|Hne]; pc_simpl; [injection Hj as <-; discriminate|].
      exfalso; apply Hne, Hs; [exists p; auto|exists (AwaitLogout err); auto].
Qed.

Lemma Inv_run (evs : list event) (st st' : state) :
  Inv st -> run evs st = Some st' -> Inv st'.
Proof.
  revert st. induction evs as [|ev evs IH]; intros st Hi Hr; simpl in Hr.
  - congruence.
  - destruct (step ev st) as [st1|] eqn:Hs; [|discriminate].
    exact (IH st1 (Inv_step ev st st1 Hi Hs) Hr).
Qed.

Lemma Inv_reach (ids : list nat) (evs : list event) (st : state) :
  run evs (start ids) = Some st -> Inv st.
Proof. intros H. exact (Inv_run evs _ st (Inv_start ids) H). Qed.

(** Whatever order the event loop resumes the handlers in, at most one
    request owns the refresh at any time, [isRefreshing] is true exactly
    while one does, and [refreshQueue] holds exactly the requests waiting on
    it, each once. *)
Theorem single_flight (ids : list nat) (evs : list event) (st : state) :
  run evs (start ids) = Some st ->
  (forall i j, is_owner st i -> is_owner st j -> i = j) /\
  (isRefreshing st = true <-> exists i, is_owner st i) /\
  (forall i, pcs st !! i = Some Queued <-> i ∈ refreshQueue st) /\
  NoDup (refreshQueue st).
Proof.
  intros H. destruct (Inv_reach ids evs st H) as [Hq Hnd Hf Hs]. auto.
Qed.

(** When the owner's refresh settles, every request waiting in the queue is
    settled with the same outcome and the queue is emptied: with the new
    token when [getAccessToken()] resolves after a successful refresh (and
    [isRefreshing] is cleared), with the refresh error when [refreshToken()]
    rejects (the owner then awaits [logout()] with [isRefreshing] still
    set). *)
Theorem drain_settles_queue (ids : list nat) (evs : list event) (st : state) (i : nat) :
  run evs (start ids) = Some st ->
  (forall tok st', step (TokenRead i tok) st = Some st' ->
     isRefreshing st' = false /\ refreshQueue st' = [] /\
     pcs st' !! i = Some (Done (Resolved tok)) /\
     (forall j, pcs st !! j = Some Queued -> pcs st' !! j = Some (Done (Resolved tok))) /\
     (forall j, pcs st' !! j <> Some Queued)) /\
  (forall err st', step (RefreshFail i err) st = Some st' ->
     isRefreshing st' = true /\ refreshQueue st' = [] /\
     pcs st' !! i = Some (AwaitLogout err) /\ logoutCalls st' = S (logoutCalls st) /\
     (forall j, pcs st !! j = Some Queued -> pcs st' !! j = Some (Done (Rejected err))) /\
     (forall j, pcs st' !! j <> Some Queued)).
Proof.
  intros H0. apply Inv_reach in H0. destruct H0 as [Hq Hnd Hf Hs].
  split.
  - intros tok st' Hst. simpl in Hst. destruct (pcs st !! i) as [p|] eqn:Hi; try discriminate.
    destruct p; try discriminate. injection Hst as <-. unfold set_refreshing, set_pc, drainRefreshQueue; simpl.
    split; [reflexivity|]. split; [reflexivity|]. split; [apply lookup_insert_eq|]. split.
    + intros j Hj. destruct (decide (j = i)) as [->|Hne]; [congruence|].
      rewrite lookup_insert_ne by congruence. rewrite lookup_drain, bool_decide_eq_true_2; [reflexivity|].
      by apply Hq.
    + intros j. destruct (decide (j = i)) as [->|Hne]; [rewrite lookup_insert_eq; discriminate|].
      rewrite lookup_insert_ne by congruence. rewrite lookup_drain. case_bool_decide; [discriminate|].
      rewrite Hq. exact H.
  - intros err st' Hst. simpl in Hst. destruct (pcs st !! i) as [p|] eqn:Hi; try discriminate.
    destruct p; try discriminate. injection Hst as <-. unfold set_pc, drainRefreshQueue; simpl.
    split; [apply Hf; exists i, AwaitRefresh; auto|]. split; [reflexivity|]. split; [apply lookup_insert_eq|].
    split; [reflexivity|]. split.
    + intros j Hj. destruct (decide (j = i)) as [->|Hne]; [congruence|].
      rewrite lookup_insert_ne by congruence. rewrite lookup_drain, bool_decide_eq_true_2; [reflexivity|].
      by apply Hq.
    + intros j. destruct (decide (j = i)) as [->|Hne]; [rewrite lookup_insert_eq; discriminate|].
      rewrite lookup_insert_ne by congruence. rewrite lookup_drain. case_bool_decide; [discriminate|].
      rewrite Hq. exact H.
Qed.

Lemma single_flight_witness :
  exists st, run [Handle401 1; Handle401 2; RefreshFail 1 "e"; Handle401 3; LogoutDone 1]
                 (start [1; 2; 3]%nat) = Some st /\
  (forall i j, is_owner st i -> is_owner st j -> i = j) /\
  (isRefreshing st = true <-> exists i, is_owner st i) /\
  (forall i, pcs st !! i = Some Queued <-> i ∈ refreshQueue st) /\
  NoDup (refreshQueue st).
Proof.
  eexists. split; [vm_compute; reflexivity|].
  apply (single_flight [1; 2; 3]%nat [Handle401 1; Handle401 2; RefreshFail 1 "e"; Handle401 3; LogoutDone 1]).
  vm_compute. reflexivity.
Defined.

Lemma drain_settles_queue_witness :
  exists st st', run [Handle401 1; Handle401 2; Handle401 3; RefreshOk 1] (start [1; 2; 3]%nat) = Some st /\
    step (TokenRead 1 "tok") st = Some st' /\
    pcs st' !! 3%nat = Some (Done (Resolved "tok")) /\ refreshQueue st' = [].
Proof.
  do 2 eexists. split; [vm_compute; reflexivity|]. split; [vm_compute; reflexivity|].
  assert (H := proj1 (drain_settles_queue [1; 2; 3]%nat [Handle401 1; Handle401 2; Handle401 3; RefreshOk 1]
                 _ 1%nat ltac:(vm_compute; reflexivity)) "tok" _ ltac:(vm_compute; reflexivity)).
  split; [apply (proj1 (proj2 (proj2 (proj2 H))) 3%nat); vm_compute; reflexivity|].
  exact (proj1 (proj2 H)).
Defined.

End InterceptorInv.

Module PKCEGen.
Import PKCE PKCEFacts Login.

Lemma btoa_go_spec (n : nat) (l : list Z) :
  (length l <= n)%nat ->
  exists xs k, btoa_go l = (xs ++ repeat "="%char k)%list /\
    length xs = ((4 * length l + 2) / 3)%nat /\ Forall (fun c => In c alphabet) xs.
Proof.
  revert l; induction n as [|n IH]; intros l Hl.
  - destruct l; simpl in Hl; [|lia]. exists [], 0%nat. auto.
  - destruct l as [|b1 [|b2 [|b3 l]]].
    + exists [], 0%nat. auto.
    + eexists [_; _], 2%nat. split; [reflexivity|]. split; [reflexivity|].
      repeat (apply List.Forall_cons; [apply b64_char_in|]); apply List.Forall_nil.
    + eexists [_; _; _], 1%nat. split; [reflexivity|]. split; [reflexivity|].
      repeat (apply List.Forall_cons; [apply b64_char_in|]); apply List.Forall_nil.
    + simpl in Hl. destruct (IH l) as (xs & k & Hxs & Hlen & Hall); [lia|].
      cbn [btoa_go]. rewrite Hxs. eexists _, k. split; [rewrite !app_comm_cons; reflexivity|].
      split; [simpl length; rewrite Hlen;
        replace (4 * S (S (S (length l))) + 2)%nat with (4 * length l + 2 + 4 * 3)%nat by lia;
        rewrite Nat.div_add by lia; lia|].
      repeat (apply List.Forall_cons; [apply b64_char_in|]); exact Hall.
Qed.

Lemma strip_padding_repeat (ys : list ascii) (k : nat) :
  Forall (fun c => c <> "="%char) ys -> strip_padding (ys ++ repeat "="%char k)%list = ys.
Proof.
  intros Hall. unfold strip_padding. rewrite rev_app_distr, rev_repeat.
  induction k as [|k IH]; simpl.
  - rewrite drop_eq_prefix_rev by exact Hall. apply rev_involutive.
  - exact IH.
Qed.

Lemma base64URLEncode_gen (bytes : list Byte.byte) :
  exists v, base64URLEncode bytes = Some v /\ length v = ((4 * length bytes + 2) / 3)%nat /\
             Forall (fun c => url_safe c = true) v /\ ~ In "="%char v.
Proof.
  unfold base64URLEncode, btoa.
    rewrite (proj2 (forallb_forall _ _)).
    2:{ intros c Hc. apply in_map_iff in Hc as (b & <- & _).
        pose proof (Byte.to_N_bounded b). apply andb_true_intro. split; apply Z.leb_le; lia. }
    destruct (btoa_go_spec _ (map (fun b => Z.of_N (Byte.to_N b)) bytes) (le_n _))
      as (xs & k & Hxs & Hl & Hall).
    rewrite Hxs. simpl option_map.
    assert (Hmap : replace_all "/"%char "_"%char (replace_all "+"%char "-"%char (xs ++ repeat "="%char k)%list)
                   = (map url_map xs ++ repeat "="%char k)%list).
    { unfold replace_all. rewrite !map_app, map_map, !map_repeat. reflexivity. }
    rewrite Hmap.
    pose proof alphabet_url_map as Hab. rewrite forallb_forall in Hab.
    assert (Hys : Forall (fun c => url_safe c = true /\ c <> "="%char) (map url_map xs)).
    { apply List.Forall_map. eapply List.Forall_impl; [|exact Hall]. intros c Hc.
      specialize (Hab c Hc). apply andb_true_iff in Hab as [H1 H2].
      split; [exact H1|]. intros He. rewrite He in H2. discriminate. }
    rewrite strip_padding_repeat.
    2:{ eapply List.Forall_impl; [|exact Hys]. intros c [_ H]; exact H. }
    eexists; split; [reflexivity|].
    split; [rewrite length_map, Hl, length_map; reflexivity|].
    split.
    - eapply List.Forall_impl; [|exact Hys]. intros c [H _]; exact H.
    - intros Hin. rewrite List.Forall_forall in Hys. destruct (Hys _ Hin) as [_ H]. by apply H.
Qed.

(** For any number of bytes, [base64URLEncode] returns a string of
    ceil(4n/3) characters, all in [A-Za-z0-9_-], without '=' padding; in
    particular [generateState()] on its 16 random bytes gives 22 characters. *)
Theorem base64URLEncode_length_url_safe (bytes : list Byte.byte) :
  (exists v, base64URLEncode bytes = Some v /\ length v = ((4 * length bytes + 2) / 3)%nat /\
             Forall (fun c => url_safe c = true) v /\ ~ In "="%char v) /\
  (length bytes = 16%nat -> exists v, generateState bytes = Some v /\ length v = 22%nat).
Proof.
  pose proof (base64URLEncode_gen bytes) as Hgen.
  split; [exact Hgen|]. intros H16. destruct Hgen as (v & Hv & Hl & _).
  exists v. split; [exact Hv|]. rewrite Hl, H16. reflexivity.
Qed.

Lemma base64URLEncode_eq (bytes : list Byte.byte) :
  base64URLEncode bytes =
  Some (strip_padding (replace_all "/"%char "_"%char (replace_all "+"%char "-"%char
          (btoa_go (map (fun b => Z.of_N (Byte.to_N b)) bytes))))).
Proof.
  unfold base64URLEncode, btoa. rewrite (proj2 (forallb_forall _ _)); [reflexivity|].
  intros c Hc. apply in_map_iff in Hc as (b & <- & _).
  pose proof (Byte.to_N_bounded b). apply andb_true_intro. split; apply Z.leb_le; lia.
Qed.

Lemma url_safe_form_safe (c : ascii) : url_safe c = true -> form_safe c = true.
Proof.
  assert (H : forallb (fun n => implb (url_safe (ascii_of_nat n)) (form_safe (ascii_of_nat n)))
                      (seq 0 256) = true) by (vm_compute; reflexivity).
  rewrite forallb_forall in H. intros Hc.
  specialize (H (nat_of_ascii c)). rewrite ascii_nat_embedding, Hc in H.
  apply H, in_seq. pose proof (nat_ascii_bounded c). lia.
Qed.

Lemma form_encode_url_safe (l : list ascii) :
  Forall (fun c => url_safe c = true) l -> form_encode (string_of_list_ascii l) = string_of_list_ascii l.
Proof.
  intros Hall. unfold form_encode. rewrite list_ascii_of_string_of_list_ascii. f_equal.
  induction Hall as [|c l Hc _ IH]; [reflexivity|]. simpl.
  unfold form_char at 1. rewrite (url_safe_form_safe c Hc). simpl. f_equal. exact IH.
Qed.

(** [startLogin(vaultUrl)] stores the vault URL, the code verifier and the
    state, and opens [{vaultUrl without trailing slash}/oauth/authorize] with
    the six parameters in order; the challenge is BASE64URL(SHA256(verifier))
    and, like the state, needs no escaping in the query. *)
Theorem startLogin_authUrl (sha256 : string -> list Byte.byte)
    (verifierBytes stateBytes : list Byte.byte) (vaultUrl : string) (s : store) :
  exists cv ch st,
    generateCodeVerifier verifierBytes = Some cv /\
    base64URLEncode (sha256 (string_of_list_ascii cv)) = Some ch /\
    generateState stateBytes = Some st /\
    startLogin sha256 verifierBytes stateBytes vaultUrl s =
      (Ok (strip_trailing_slash vaultUrl ++
           "/oauth/authorize?response_type=code&client_id=pulse-mobile" ++
           "&redirect_uri=pulse%3A%2F%2Fauth%2Fcallback&code_challenge=" ++ string_of_list_ascii ch ++
           "&code_challenge_method=S256&state=" ++ string_of_list_ascii st),
       <[STATE := string_of_list_ascii st]>
         (<[CODE_VERIFIER := string_of_list_ascii cv]> (<[VAULT_URL := vaultUrl]> s))).
Proof.
  destruct (base64URLEncode_gen verifierBytes) as (cv & Hcv & _).
  destruct (base64URLEncode_gen stateBytes) as (st & Hst & _ & Hsts & _).
  destruct (base64URLEncode_gen (sha256 (string_of_list_ascii cv))) as (ch & Hch & _ & Hchs & _).
  exists cv, ch, st. split; [exact Hcv|]. split; [exact Hch|]. split; [exact Hst|].
  assert (Hgc : generateCodeChallenge sha256 (string_of_list_ascii cv) = string_of_list_ascii ch).
  { unfold generateCodeChallenge. rewrite base64URLEncode_eq in Hch. injection Hch as <-. reflexivity. }
  unfold startLogin, generateCodeVerifier, generateState. unfold generateCodeVerifier in Hcv.
  unfold generateState in Hst. unfold bind, setItemAsync at 1. rewrite Hcv, Hst, Hgc.
  unfold setItemAsync, ret. f_equal. f_equal. f_equal.
  unfold params_toString. cbn [map String.concat].
  rewrite !form_encode_url_safe by assumption.
  rewrite ?AuthFacts.str_app_assoc. reflexivity.
Qed.

Ltac keys_neq' := unfold ACCESS_TOKEN, REFRESH_TOKEN, TOKEN_EXPIRY, VAULT_URL,
  CODE_VERIFIER, STATE, DEVICE_ID; discriminate.

Lemma getDeviceId_ok (env : Env) (s : store) : exists d s', getDeviceId env s = (Ok d, s').
Proof.
  unfold getDeviceId, bind, getItemAsync, setItemAsync, ret. cbv beta iota.
  destruct (s !! DEVICE_ID) as [d|]; [destruct (str_truthy d)|]; eauto.
Qed.

(** The login round trip: after [startLogin(vaultUrl)] with a non-empty
    vault URL, a callback that carries a non-empty code and the state of the
    authorization URL passes [handleCallback], and [exchangeCodeForToken]
    then POSTs that code with the stored code verifier to
    [{vaultUrl without trailing slash}/oauth/token]. *)
Theorem startLogin_then_callback (sha256 : string -> list Byte.byte)
    (verifierBytes stateBytes : list Byte.byte) (vaultUrl code : string) (env : Env) (s : store) :
  str_truthy vaultUrl = true -> length verifierBytes = 32%nat -> length stateBytes = 16%nat ->
  str_truthy code = true ->
  let s1 := snd (startLogin sha256 verifierBytes stateBytes vaultUrl s) in
  exists cv st, generateCodeVerifier verifierBytes = Some cv /\ generateState stateBytes = Some st /\
    handleCallback [("code", code); ("state", string_of_list_ascii st)] s1 = (Ok code, s1) /\
    exists d s2, exchangeRequest env code s1 =
      (Ok {| req_url := strip_trailing_slash vaultUrl ++ "/oauth/token"; req_code := code;
             req_code_verifier := string_of_list_ascii cv; req_device_id := d |}, s2).
Proof.
  intros Hv Hvb Hsb Hc. cbv zeta.
  destruct (base64URLEncode_gen verifierBytes) as (cv & Hcv & Hcvl & _).
  destruct (base64URLEncode_gen stateBytes) as (st & Hst & Hstl & _).
  assert (Hne : forall l : list ascii, length l <> 0%nat -> str_truthy (string_of_list_ascii l) = true)
    by (intros [|c l] H; [contradiction H; reflexivity|reflexivity]).
  assert (Hcvt := Hne cv ltac:(rewrite Hcvl, Hvb; discriminate)).
  assert (Hstt := Hne st ltac:(rewrite Hstl, Hsb; discriminate)).
  exists cv, st. split; [exact Hcv|]. split; [exact Hst|].
  unfold startLogin, generateCodeVerifier, generateState. unfold generateCodeVerifier in Hcv.
  unfold generateState in Hst. unfold bind at 1, setItemAsync at 1. cbv beta iota.
  rewrite Hcv, Hst. unfold bind, setItemAsync, ret. cbn [snd].
  set (s1 := <[STATE := string_of_list_ascii st]> (<[CODE_VERIFIER := string_of_list_ascii cv]>
               (<[VAULT_URL := vaultUrl]> s))).
  assert (HS : s1 !! STATE = Some (string_of_list_ascii st)) by apply lookup_insert_eq.
  assert (HV : s1 !! VAULT_URL = Some vaultUrl)
    by (unfold s1; rewrite !lookup_insert_ne by keys_neq'; apply lookup_insert_eq).
  assert (HC : s1 !! CODE_VERIFIER = Some (string_of_list_ascii cv))
    by (unfold s1; rewrite lookup_insert_ne by keys_neq'; apply lookup_insert_eq).
  split.
  - unfold handleCallback. cbn [params_get String.eqb Ascii.eqb Bool.eqb andb opt_truthy].
    simpl opt_truthy. rewrite Hc, Hstt. cbn [negb]. unfold bind, getItemAsync. rewrite HS.
    rewrite bool_decide_eq_true_2 by reflexivity. reflexivity.
  - destruct (getDeviceId_ok env s1) as (d & s2 & Hd).
    exists d, s2. unfold exchangeRequest, bind, getItemAsync. rewrite HV, HC, Hv, Hcvt. cbn [negb].
    rewrite Hd. reflexivity.
Qed.

Lemma startLogin_then_callback_witness :
  let s1 := snd (startLogin (fun _ => repeat Byte.x00 32) (repeat Byte.x41 32) (repeat Byte.x42 16)
                            "https://vault.example.com/" ∅) in
  exists cv st, generateCodeVerifier (repeat Byte.x41 32) = Some cv /\
    generateState (repeat Byte.x42 16) = Some st /\
    handleCallback [("code", "ABC"); ("state", string_of_list_ascii st)] s1 = (Ok "ABC", s1) /\
    exists d s2, exchangeRequest env0 "ABC" s1 =
      (Ok {| req_url := strip_trailing_slash "https://vault.example.com/" ++ "/oauth/token";
             req_code := "ABC"; req_code_verifier := string_of_list_ascii cv; req_device_id := d |}, s2).
Proof.
  exact (startLogin_then_callback (fun _ => repeat Byte.x00 32) (repeat Byte.x41 32) (repeat Byte.x42 16)
           "https://vault.example.com/" "ABC" env0 ∅ eq_refl eq_refl eq_refl eq_refl).
Defined.

(** The redirect URI that [startLogin] registers, [pulse://auth/callback],
    is recognised as the OAuth callback by src/app/_layout.tsx, whatever
    query follows it, but never by the layout in src/unnamed/part_004, which
    tests for [pulsecam://auth/callback]: there the callback falls through to
    the upload deep-link branch. *)
Theorem redirect_uri_auth_callback (rest : string) :
  isAuthCallback (REDIRECT_URI ++ rest) = true /\
  isAuthCallback_part004 (REDIRECT_URI ++ rest) = false.
Proof.
  split.
  - unfold isAuthCallback, REDIRECT_URI. induction rest; reflexivity.
  - reflexivity.
Qed.

End PKCEGen.

Module RequestFacts.
Import AuthFacts.

Lemma logout_deletes_access_token (s : store) : delete_all logout_keys s !! ACCESS_TOKEN = None.
Proof.
  rewrite lookup_delete_all. rewrite bool_decide_eq_true_2; [reflexivity|].
  vm_compute. right. right. right. left.
Qed.

Lemma getAccessToken_result_store (env : Env) (s : store) :
  exists r s', getAccessToken env s = (Ok r, s') /\
    r = (if opt_truthy (s' !! ACCESS_TOKEN) then s' !! ACCESS_TOKEN else None).
Proof.
  rewrite getAccessToken_unfold.
  destruct (opt_truthy (s !! ACCESS_TOKEN)) eqn:Ht; simpl negb; cbv iota.
  - destruct (isExpiringSoon (env_now env) (s !! TOKEN_EXPIRY)); simpl negb; cbv iota.
    + destruct (refreshToken env s) as [[[]|e] s1] eqn:Hr.
      * rewrite (try_catch_bind_ok _ _ _ s tt s1 Hr).
        destruct (refreshToken_ok env s s1 Hr) as (data & a & _ & _ & Ha & Hs1).
        exists (Some a), s1. unfold try_catch, getItemAsync. rewrite Hs1. simpl. rewrite Ha. auto.
      * rewrite (try_catch_bind_err _ _ _ s e s1 Hr).
        exists None, (delete_all logout_keys s1). unfold bind, ret. rewrite logout_eq.
        rewrite logout_deletes_access_token. auto.
    + exists (s !! ACCESS_TOKEN), s. unfold ret. rewrite Ht. auto.
  - exists None, s. unfold ret. rewrite Ht. auto.
Qed.

(** [getAccessToken()] never rejects: a failed refresh is caught and turned
    into a logout. What it resolves to is always what the store holds
    afterwards: the stored access token when there is a non-empty one, null
    otherwise. *)
Theorem getAccessToken_result_matches_store (env : Env) (s : store) :
  exists r s', getAccessToken env s = (Ok r, s') /\
    r = (if opt_truthy (s' !! ACCESS_TOKEN) then s' !! ACCESS_TOKEN else None).
Proof.
  exact (getAccessToken_result_store env s).
Qed.
(** The request interceptor never rejects. It sends the request with
    [Authorization: Bearer <token>] exactly when, after [getAccessToken()]
    (and any refresh or logout it did), the store holds a non-empty access
    token, and that header carries that token; otherwise the headers are left
    as they were. The base URL is the stored vault URL without its trailing
    slash, when one is stored. *)
Theorem request_interceptor_auth_header (env : Env) (config : AxiosConfig) (s : store) :
  exists config' s', request_interceptor env config s = (Ok config', s') /\
    s' = snd (getAccessToken env s) /\
    (forall t, s' !! ACCESS_TOKEN = Some t -> str_truthy t = true ->
       cfg_headers config' =
         Some (<["Authorization" := "Bearer " ++ t]> (default ∅ (cfg_headers config)))) /\
    (opt_truthy (s' !! ACCESS_TOKEN) = false -> cfg_headers config' = cfg_headers config) /\
    cfg_baseURL config' =
      match s !! VAULT_URL with
      | Some v => if str_truthy v then Some (strip_trailing_slash v) else cfg_baseURL config
      | None => cfg_baseURL config
      end.
Proof.
  destruct (getAccessToken_result_store env s) as (r & s' & Hg & Hr).
  unfold request_interceptor, bind at 1, getItemAsync at 1. cbv beta iota.
  unfold bind. rewrite Hg. unfold ret.
  eexists _, s'. split; [reflexivity|]. split; [reflexivity|].
  subst r. destruct (s' !! ACCESS_TOKEN) as [a|] eqn:Ha; simpl opt_truthy.
  - destruct (str_truthy a) eqn:Hat.
    + split; [intros t Ht _; injection Ht as <-; destruct (s !! VAULT_URL) as [v|];
              [destruct (str_truthy v)|]; simpl; rewrite Hat; reflexivity|].
      split; [discriminate|]. destruct (s !! VAULT_URL) as [v|]; [destruct (str_truthy v)|];
        simpl; rewrite Hat; reflexivity.
    + split; [intros t Ht Ht'; injection Ht as <-; congruence|]. split;
        destruct (s !! VAULT_URL) as [v|]; try destruct (str_truthy v); reflexivity.
  - split; [discriminate|]. split; destruct (s !! VAULT_URL) as [v|]; try destruct (str_truthy v); reflexivity.
Qed.

End RequestFacts.

Module JSONRoundTrip.
Import JSON AuthFacts JSONParse.



Lemma str_cons_app (c : ascii) (r t : string) : String c r ++ t = String c (r ++ t).
Proof. reflexivity. Qed.

Lemma all_ascii (P : ascii -> bool) :
  forallb (fun n => P (ascii_of_nat n)) (seq 0 256) = true -> forall c, P c = true.
Proof.
  intros H c. rewrite forallb_forall in H. specialize (H (nat_of_ascii c)).
  rewrite ascii_nat_embedding in H. apply H, in_seq. pose proof (nat_ascii_bounded c). lia.
Qed.

Lemma N_digits_lead (f : nat) (n : Z) (acc : string) :
  0 <= n < 10 ^ Z.of_nat (S f) ->
  exists ds, N_digits (S f) n acc = ds ++ acc /\ parse_digits ds 0 = Some n /\
    ((n = 0 /\ ds = "0") \/ (exists c r d, ds = String c r /\ char_digit c = Some d /\ 0 < d)).
Proof.
  revert n acc; induction f as [|f IH]; intros n acc Hn;
  (assert (Hd : char_digit (digit_char (n mod 10)) = Some (n mod 10));
   [ pose proof (Z.mod_pos_bound n 10 ltac:(lia)) as Hb;
     unfold char_digit, digit_char; rewrite nat_ascii_embedding by lia;
     replace ((48 <=? 48 + Z.to_nat (n mod 10))%nat && (48 + Z.to_nat (n mod 10) <=? 57)%nat)
       with true by (symmetry; apply andb_true_intro; split; apply Nat.leb_le; lia);
     f_equal; lia | ]);
  rewrite N_digits_S; destruct (n <? 10) eqn:Hlt.
  1,3: apply Z.ltb_lt in Hlt; exists (String (digit_char (n mod 10)) EmptyString);
       split; [reflexivity|]; split;
       [ cbn [parse_digits]; rewrite Hd; f_equal; rewrite Z.mod_small by lia; lia
       | destruct (Z.eq_dec n 0) as [->|Hn0];
         [left; split; reflexivity
         | right; do 3 eexists; split; [reflexivity|]; split; [exact Hd|];
           rewrite Z.mod_small by lia; lia] ].
  - apply Z.ltb_ge in Hlt. simpl in Hn. lia.
  - apply Z.ltb_ge in Hlt.
    destruct (IH (n / 10) (String (digit_char (n mod 10)) acc)) as (ds & Heq & Hp & Hc).
    { split; [apply Z.div_pos; lia|]. apply Z.div_lt_upper_bound; [lia|].
      rewrite (Nat2Z.inj_succ (S f)), Z.pow_succ_r in Hn by lia. lia. }
    exists (ds ++ String (digit_char (n mod 10)) EmptyString).
    split; [rewrite Heq, str_app_assoc; reflexivity|]. split.
    + rewrite (parse_digits_app _ _ 0 (n / 10) Hp). cbn [parse_digits]. rewrite Hd. f_equal.
      pose proof (Z.div_mod n 10 ltac:(lia)). lia.
    + right. destruct Hc as [[Hz _]|(c & r & d & -> & Hc & Hd0)].
      * assert (10 <= n) by lia. assert (1 <= n / 10) by (apply Z.div_le_lower_bound; lia). lia.
      * exists c, (r ++ String (digit_char (n mod 10)) EmptyString), d. auto.
Qed.

Lemma Z_to_string_shape (z : Z) :
  exists ds, Z_to_string z = (if z <? 0 then String "-" ds else ds) /\
    parse_digits ds 0 = Some (Z.abs z) /\
    ((z = 0 /\ ds = "0") \/ (exists c r d, ds = String c r /\ char_digit c = Some d /\ 0 < d)).
Proof.
  unfold Z_to_string.
  destruct (N_digits_lead (Pos.size_nat (Z.to_pos (Z.abs z + 1))) (Z.abs z) "")
    as (ds & Heq & Hp & Hc).
  { split; [lia|].
    pose proof (size_nat_bound (Z.to_pos (Z.abs z + 1))) as Hs.
    rewrite Z2Pos.id in Hs by lia.
    assert (H2 : 2 ^ Z.of_nat (Pos.size_nat (Z.to_pos (Z.abs z + 1))) <=
                 10 ^ Z.of_nat (S (Pos.size_nat (Z.to_pos (Z.abs z + 1))))).
    { apply Z.le_trans with (10 ^ Z.of_nat (Pos.size_nat (Z.to_pos (Z.abs z + 1)))).
      - apply Z.pow_le_mono_l. lia.
      - apply Z.pow_le_mono_r; lia. }
    lia. }
  exists ds. rewrite Heq, str_app_nil_r. split; [reflexivity|]. split; [exact Hp|].
  destruct Hc as [[Hz Hds]|Hc]; [left; split; [lia|exact Hds]|right; exact Hc].
Qed.

Lemma parse_digit_run_app (ds rest : string) (a n : Z) (any : bool) :
  parse_digits ds a = Some n ->
  parse_digit_run (ds ++ rest) a any = parse_digit_run rest n (any || negb (String.eqb ds "")).
Proof.
  revert a any; induction ds as [|c r IH]; intros a any H; simpl in H.
  - injection H as <-. simpl. rewrite orb_false_r. reflexivity.
  - destruct (char_digit c) as [d|] eqn:Hc; [|discriminate].
    change (String c r ++ rest) with (String c (r ++ rest)). cbn [parse_digit_run].
    rewrite Hc, (IH _ true H). rewrite orb_true_r. reflexivity.
Qed.

Lemma parse_digit_run_follows (rest : string) (n : Z) :
  follows_value rest -> parse_digit_run rest n true = Some (n, rest).
Proof.
  intros [->|(c & t & -> & Hc)]; [reflexivity|].
  destruct Hc as [<-|[<-|[<-|[]]]]; reflexivity.
Qed.

Lemma lead_digit_run (c : ascii) (r : string) (d : Z) :
  char_digit c = Some d -> 0 < d ->
  match String c r with
  | String "0" r => Some (0, r)
  | String c _ => match char_digit c with Some _ => parse_digit_run (String c r) 0 false | None => None end
  | EmptyString => None
  end = parse_digit_run (String c r) 0 false.
Proof.
  intros Hd Hpos.
  destruct c as [[] [] [] [] [] [] [] []]; vm_compute in Hd; try discriminate Hd;
    try reflexivity; injection Hd as <-; lia.
Qed.

Lemma parse_number_Z (z : Z) (rest : string) :
  follows_value rest -> parse_number (Z_to_string z ++ rest) = Some (JNum z, rest).
Proof.
  intros Hf. destruct (Z_to_string_shape z) as (ds & Hz & Hp & Hc). rewrite Hz.
  assert (Hrun : forall any, parse_digit_run (ds ++ rest) 0 any = Some (Z.abs z, rest)).
  { intros any. rewrite (parse_digit_run_app _ _ _ _ _ Hp).
    replace (any || negb (ds =? "")%string)%bool with true
      by (destruct Hc as [[_ ->]|(c & r & d & -> & _)]; destruct any; reflexivity).
    apply parse_digit_run_follows, Hf. }
  destruct (z <? 0) eqn:Hneg.
  - apply Z.ltb_lt in Hneg. destruct Hc as [[Hz0 _]|(c & r & d & -> & Hcd & Hd)]; [lia|].
    unfold parse_number. rewrite !str_cons_app.
    cbv iota beta. rewrite lead_digit_run with (d := d) by assumption.
    change (String c (r ++ rest)) with (String c r ++ rest). rewrite Hrun.
    destruct Hf as [->|(c' & t & -> & Hc')]; [|destruct Hc' as [<-|[<-|[<-|[]]]]];
      cbv iota beta; replace (- Z.abs z) with z by lia; reflexivity.
  - apply Z.ltb_ge in Hneg. destruct Hc as [[Hz0 ->]|(c & r & d & -> & Hcd & Hd)].
    + subst z. unfold parse_number. rewrite !str_cons_app. cbv iota beta.
      destruct Hf as [->|(c & t & -> & Hc')]; [reflexivity|].
      destruct Hc' as [<-|[<-|[<-|[]]]]; reflexivity.
    + unfold parse_number. rewrite !str_cons_app.
      assert (Hnm : match String c (r ++ rest) with String "-" r0 => (true, r0) | _ => (false, String c (r ++ rest)) end
                    = (false, String c (r ++ rest))).
      { destruct c as [[] [] [] [] [] [] [] []]; vm_compute in Hcd; try discriminate Hcd; reflexivity. }
      rewrite Hnm. cbv iota beta. rewrite lead_digit_run with (d := d) by assumption.
      change (String c (r ++ rest)) with (String c r ++ rest). rewrite Hrun.
      destruct Hf as [->|(c' & t & -> & Hc')]; [|destruct Hc' as [<-|[<-|[<-|[]]]]];
        cbv iota beta; rewrite (Z.abs_eq z Hneg); reflexivity.
Qed.

Lemma escape_cons (c : ascii) (r : string) : escape (String c r) = escape_char c ++ escape r.
Proof. reflexivity. Qed.

Lemma parse_escape_char (c : ascii) (t : string) :
  parse_string_body (escape_char c ++ t) =
  option_map (fun '(str, r) => (String c str, r)) (parse_string_body t).
Proof. destruct c as [[] [] [] [] [] [] [] []]; reflexivity. Qed.

Lemma parse_string_body_escape (s rest : string) :
  parse_string_body (escape s ++ String DQ rest) = Some (s, rest).
Proof.
  induction s as [|c s IH]; [reflexivity|].
  rewrite escape_cons, str_app_assoc, parse_escape_char, IH. reflexivity.
Qed.

Lemma parse_value_arr (f : nat) (r : string) :
  parse_value (S f) (String "[" r) =
  match skip_ws r with String "]" r' => Some (JArr [], r') | r1 => parse_elems f f r1 [] end.
Proof. reflexivity. Qed.

Lemma parse_value_obj (f : nat) (r : string) :
  parse_value (S f) (String "{" r) =
  match skip_ws r with String "}" r' => Some (JObj [], r') | r1 => parse_members f f r1 [] end.
Proof. reflexivity. Qed.

Lemma char_digit_first (c : ascii) : char_digit c <> None -> In c first_chars.
Proof.
  assert (H : forall c, (negb (match char_digit c with Some _ => true | None => false end) || existsb (Ascii.eqb c) first_chars)%bool = true)
    by (apply all_ascii; vm_compute; reflexivity).
  intros Hc. specialize (H c). destruct (char_digit c); [|contradiction].
  cbn [negb orb] in H. apply existsb_exists in H as (c' & Hin & Heq). apply Ascii.eqb_eq in Heq. subst. exact Hin.
Qed.

Lemma Z_to_string_first (z : Z) : exists c r, Z_to_string z = String c r /\ In c first_chars.
Proof.
  destruct (Z_to_string_shape z) as (ds & Hz & _ & Hc). rewrite Hz.
  destruct (z <? 0).
  - eexists _, _. split; [reflexivity|]. simpl; tauto.
  - destruct Hc as [[_ ->]|(c & r & d & -> & Hcd & _)].
    + eexists _, _. split; [reflexivity|]. simpl; tauto.
    + exists c, r. split; [reflexivity|]. apply char_digit_first. congruence.
Qed.

Lemma parse_digits_all (s : string) (a v : Z) : parse_digits s a = Some v -> all_digits s = true.
Proof.
  revert a; induction s as [|c r IH]; intros a H; [reflexivity|].
  simpl in *. destruct (char_digit c); [|discriminate]. eauto.
Qed.

Lemma all_digits_parse (s : string) (a : Z) : all_digits s = true -> exists v, parse_digits s a = Some v.
Proof.
  revert a; induction s as [|c r IH]; intros a H; [eexists; reflexivity|].
  simpl in *. destruct (char_digit c); [|discriminate]. eauto.
Qed.

Lemma all_digits_app (a b : string) : all_digits (a ++ b) = all_digits a && all_digits b.
Proof.
  induction a as [|c r IH]; [reflexivity|]. rewrite str_cons_app. simpl.
  destruct (char_digit c); [exact IH|reflexivity].
Qed.

Lemma parse_digits_split (a b : string) (v : Z) :
  parse_digits (a ++ b) 0 = Some v ->
  exists va vb, parse_digits a 0 = Some va /\ parse_digits b 0 = Some vb /\
                v = va * 10 ^ Z.of_nat (String.length b) + vb.
Proof.
  intros H. pose proof (parse_digits_all _ _ _ H) as Hd. rewrite all_digits_app in Hd.
  apply andb_prop in Hd as [Ha Hb].
  destruct (all_digits_parse a 0 Ha) as (va & Hva). destruct (all_digits_parse b 0 Hb) as (vb & Hvb).
  exists va, vb. split; [exact Hva|]. split; [exact Hvb|].
  rewrite (parse_digits_app a b 0 va Hva) in H.
  rewrite (parse_digits_shift b 0 _ vb Hvb) in H. injection H as <-. lia.
Qed.

Lemma take_digits_app (ds t : string) :
  all_digits ds = true -> (forall ch t', t = String ch t' -> char_digit ch = None) ->
  take_digits (ds ++ t) = (ds, t).
Proof.
  intros Hd Ht. induction ds as [|c r IH].
  - destruct t as [|ch t']; [reflexivity|]. simpl. rewrite (Ht ch t' eq_refl). reflexivity.
  - simpl in Hd. destruct (char_digit c) eqn:Hc; [|discriminate].
    rewrite str_cons_app. simpl. rewrite Hc, IH by exact Hd. reflexivity.
Qed.

Lemma digits1_app (ds t : string) (v : Z) :
  ds <> "" -> parse_digits ds 0 = Some v ->
  (forall ch t', t = String ch t' -> char_digit ch = None) ->
  digits1 (ds ++ t) = Some (v, String.length ds, t).
Proof.
  intros Hne Hv Ht. unfold digits1.
  rewrite take_digits_app by (try exact Ht; eapply parse_digits_all; exact Hv).
  destruct ds as [|c r]; [contradiction|]. rewrite Hv. reflexivity.
Qed.

Lemma follows_stop (r : string) :
  follows_value r -> forall ch t', r = String ch t' -> char_digit ch = None.
Proof.
  intros [->|(c & t & -> & Hc)] ch t' E; [discriminate|]. injection E as <- <-.
  destruct Hc as [<-|[<-|[<-|[]]]]; reflexivity.
Qed.

Lemma parse_exponent_text (sg : bool) (ed rest : string) (v : Z) :
  ed <> "" -> parse_digits ed 0 = Some v -> follows_value rest ->
  parse_exponent (exp_text (Some (sg, ed)) ++ rest) = Some (if sg then - v else v, rest).
Proof.
  intros Hne Hv Hr. cbn [exp_text]. rewrite !str_cons_app. unfold parse_exponent.
  cbn [Ascii.eqb Bool.eqb orb].
  destruct sg; cbv beta iota; rewrite (digits1_app ed rest v Hne Hv (follows_stop rest Hr)); reflexivity.
Qed.

Lemma parse_exponent_none (rest : string) : follows_value rest -> parse_exponent rest = Some (0, rest).
Proof. intros [->|(c & t & -> & Hc)]; [reflexivity|]. destruct Hc as [<-|[<-|[<-|[]]]]; reflexivity. Qed.


Lemma exp_text_stop (ex : option (bool * string)) (rest : string) :
  (ex <> None \/ follows_value rest) ->
  forall ch t', exp_text ex ++ rest = String ch t' -> char_digit ch = None.
Proof.
  intros H ch t' E. destruct ex as [[sg ed]|].
  - cbn [exp_text] in E. rewrite str_cons_app in E. injection E as <- _. reflexivity.
  - destruct H as [H|H]; [contradiction H; reflexivity|]. exact (follows_stop rest H ch t' E).
Qed.

Lemma parse_fraction_text (fr : option string) (vf : Z) (ex : option (bool * string)) (rest : string) :
  fr_ok fr vf -> (ex <> None \/ follows_value rest) ->
  parse_fraction (frac_text fr ++ exp_text ex ++ rest) = Some (vf, frac_len fr, exp_text ex ++ rest).
Proof.
  intros Hf Hs. destruct fr as [F|].
  - destruct Hf as [Hne Hv]. cbn [frac_text frac_len]. rewrite str_cons_app. cbn [parse_fraction].
    apply digits1_app; [exact Hne | exact Hv | exact (exp_text_stop ex rest Hs)].
  - cbn [fr_ok frac_text frac_len] in *. subst vf. cbn [String.append].
    destruct ex as [[sg ed]|]; [reflexivity|].
    destruct Hs as [Hs|Hs]; [contradiction Hs; reflexivity|].
    destruct Hs as [->|(c & t & -> & Hc)]; [reflexivity|]. destruct Hc as [<-|[<-|[<-|[]]]]; reflexivity.
Qed.


Lemma parse_number_shape (neg : bool) (I : string) (vi : Z) (fr : option string) (vf : Z)
  (ex : option (bool * string)) (ve : Z) (rest : string) :
  int_ok I vi -> (fr <> None \/ ex <> None) -> fr_ok fr vf -> ex_ok ex ve -> follows_value rest ->
  parse_number ((if neg then String "-" I else I) ++ frac_text fr ++ exp_text ex ++ rest) =
  Some (number_of_decimal
          (if neg then - (vi * 10 ^ Z.of_nat (frac_len fr) + vf) else vi * 10 ^ Z.of_nat (frac_len fr) + vf)
          (ve - Z.of_nat (frac_len fr)), rest).
Proof.
  intros HI Hne Hf He Hr.
  assert (Hex : parse_exponent (exp_text ex ++ rest) = Some (ve, rest)).
  { destruct ex as [[sg ed]|].
    - destruct He as (Hed & v & Hv & ->). apply parse_exponent_text; assumption.
    - cbn [ex_ok exp_text String.append] in *. subst ve. apply parse_exponent_none, Hr. }
  assert (Hfr := parse_fraction_text fr vf ex rest Hf
                   ltac:(destruct ex; [left; discriminate|right; exact Hr])).
  set (t := frac_text fr ++ exp_text ex ++ rest) in *.
  assert (Ht : exists c t', t = String c t' /\ (c = "."%char \/ c = "e"%char)).
  { unfold t. destruct fr as [F|]; [cbn [frac_text]; rewrite str_cons_app; eauto|].
    destruct ex as [[sg ed]|]; [|destruct Hne as [H|H]; contradiction H; reflexivity].
    cbn [frac_text exp_text String.append]. rewrite str_cons_app. eauto. }
  destruct Ht as (c & t' & Etc & Hc).
  assert (Hrun : match I ++ t with
                 | String "0" r => Some (0, r)
                 | String c _ => match char_digit c with
                                 | Some _ => parse_digit_run (I ++ t) 0 false
                                 | None => None end
                 | EmptyString => None
                 end = Some (vi, t)).
  { destruct HI as [[-> ->]|(ch & r & d & -> & Hch & Hd & Hv)]; [reflexivity|].
    rewrite str_cons_app, (lead_digit_run ch (r ++ t) d Hch Hd).
    change (String ch (r ++ t)) with (String ch r ++ t).
    rewrite (parse_digit_run_app _ _ 0 vi false Hv). cbn [orb negb String.eqb].
    rewrite Etc. destruct Hc as [-> | ->]; reflexivity. }
  unfold parse_number.
  assert (Hsign : match (if neg then String "-" I else I) ++ t with
                  | String "-" r => (true, r)
                  | _ => (false, (if neg then String "-" I else I) ++ t)
                  end = (neg, I ++ t)).
  { destruct neg; [reflexivity|].
    destruct HI as [[-> _]|(ch & r & d & -> & Hch & _)]; [reflexivity|].
    rewrite str_cons_app.
    destruct ch as [[] [] [] [] [] [] [] []]; vm_compute in Hch; try discriminate Hch; reflexivity. }
  rewrite Hsign. cbv beta iota. rewrite Hrun. rewrite Etc.
  destruct Hc as [-> | ->]; cbn [Ascii.eqb Bool.eqb orb]; cbv iota; rewrite <- Etc, Hfr, Hex; reflexivity.
Qed.


Lemma substring_split (s : string) (n : nat) :
  (n <= String.length s)%nat ->
  substring 0 n s ++ substring n (String.length s - n) s = s.
Proof.
  revert s; induction n as [|n IH]; intros s Hn.
  - rewrite Nat.sub_0_r. replace (substring 0 0 s) with EmptyString by (destruct s; reflexivity).
    assert (E : substring 0 (String.length s) s = s).
    { clear Hn. induction s as [|c r IHs]; [reflexivity|]. simpl. f_equal. exact IHs. }
    rewrite E. reflexivity.
  - destruct s as [|c r]; [simpl in Hn; lia|]. simpl in Hn |- *.
    rewrite str_cons_app. f_equal. apply IH. lia.
Qed.

Lemma substring_length (s : string) (n m : nat) :
  (n + m <= String.length s)%nat -> String.length (substring n m s) = m.
Proof.
  revert s m; induction n as [|n IH]; intros s m H.
  - revert s H; induction m as [|m IHm]; intros s H; [destruct s; reflexivity|].
    destruct s as [|c r]; [simpl in H; lia|]. simpl in H |- *. f_equal. apply IHm. lia.
  - destruct s as [|c r]; [simpl in H; lia|]. simpl in H |- *. apply IH. lia.
Qed.

Lemma str_length_app (a b : string) : String.length (a ++ b) = (String.length a + String.length b)%nat.
Proof. induction a as [|x a IH]; simpl; auto. Qed.

Lemma zeros_length (n : nat) : String.length (Float64.zeros n) = n.
Proof. induction n; simpl; auto. Qed.

Lemma parse_digits_zeros (n : nat) (s : string) : parse_digits (Float64.zeros n ++ s) 0 = parse_digits s 0.
Proof. induction n as [|n IH]; [reflexivity|]. simpl. exact IH. Qed.

Lemma Z_to_string_pos (z : Z) : 0 < z ->
  exists ch r d, Z_to_string z = String ch r /\ char_digit ch = Some d /\ 0 < d /\
                 parse_digits (Z_to_string z) 0 = Some z.
Proof.
  intros Hz. destruct (Z_to_string_shape z) as (ds & Hds & Hp & Hc).
  replace (z <? 0) with false in Hds by (symmetry; apply Z.ltb_ge; lia).
  rewrite Z.abs_eq in Hp by lia.
  destruct Hc as [[Hz0 _]|(ch & r & d & -> & Hch & Hd)]; [lia|].
  exists ch, r, d. rewrite Hds. auto.
Qed.

Lemma Z_to_string_nonneg (z : Z) : 0 <= z ->
  Z_to_string z <> "" /\ parse_digits (Z_to_string z) 0 = Some z.
Proof.
  intros Hz. destruct (Z_to_string_shape z) as (ds & Hds & Hp & Hc).
  replace (z <? 0) with false in Hds by (symmetry; apply Z.ltb_ge; lia).
  rewrite Z.abs_eq in Hp by lia. rewrite Hds. split; [|exact Hp].
  destruct Hc as [[_ ->]|(ch & r & d & -> & _)]; discriminate.
Qed.

Lemma to_string_shape (c p : Z) :
  c <> 0 -> Float64.int_form c p = false ->
  exists I vi fr vf ex ve,
    Float64.to_string c p = (if c <? 0 then String "-" I else I) ++ frac_text fr ++ exp_text ex /\
    int_ok I vi /\ (fr <> None \/ ex <> None) /\ fr_ok fr vf /\ ex_ok ex ve /\
    vi * 10 ^ Z.of_nat (frac_len fr) + vf = Z.abs c /\ ve - Z.of_nat (frac_len fr) = p.
Proof.
  intros Hc0 Hint. unfold Float64.int_form in Hint. unfold Float64.to_string.
  set (s := Z_to_string (Z.abs c)) in *.
  set (k := Z.of_nat (String.length s)) in *.
  destruct (Z_to_string_pos (Z.abs c) ltac:(lia)) as (ch & r & d & Hs & Hch & Hd & Hv).
  fold s in Hs, Hv.
  assert (Hk : 1 <= k) by (unfold k; rewrite Hs; simpl; lia).
  assert (Hsign : forall body, (if c <? 0 then "-" ++ body else body) =
                               (if c <? 0 then String "-" body else body))
    by (intros; reflexivity).
  rewrite Hsign.
  destruct ((k <=? p + k) && (p + k <=? 21)) eqn:E6.
  { exfalso. apply andb_prop in E6 as [E1 E2]. apply Z.leb_le in E1, E2.
    rewrite (proj2 (Z.leb_le 0 p) ltac:(lia)), (proj2 (Z.leb_le (p + k) 21) E2) in Hint. discriminate. }
  destruct ((0 <? p + k) && (p + k <=? 21)) eqn:E7.
  { (* d.ddd *)
    apply andb_prop in E7 as [E1 E2]. apply Z.ltb_lt in E1. apply Z.leb_le in E2.
    assert (Hnk : p + k < k).
    { destruct (Z.lt_ge_cases (p + k) k) as [H|H]; [exact H|].
      rewrite (proj2 (Z.leb_le k (p + k)) H), (proj2 (Z.leb_le (p + k) 21) E2) in E6. discriminate. }
    set (n := p + k) in *.
    set (I := substring 0 (Z.to_nat n) s). set (F := substring (Z.to_nat n) (Z.to_nat (k - n)) s).
    assert (HIF : I ++ F = s).
    { unfold I, F. replace (Z.to_nat (k - n)) with (String.length s - Z.to_nat n)%nat by (unfold k in *; lia).
      apply substring_split. unfold k in *; lia. }
    assert (HFl : String.length F = Z.to_nat (k - n)) by (apply substring_length; unfold k in *; lia).
    rewrite <- HIF in Hv. destruct (parse_digits_split I F _ Hv) as (vi & vf & HvI & HvF & Hsum).
    exists I, vi, (Some F), vf, None, 0.
    split; [destruct (c <? 0); cbn [frac_text exp_text]; rewrite ?str_app_nil_r, ?str_app_assoc; reflexivity|].
    split.
    { right. unfold I. destruct (Z.to_nat n) as [|n'] eqn:En; [lia|].
      exists ch, (substring 0 n' r), d. split; [rewrite Hs; reflexivity|].
      split; [exact Hch|]. split; [exact Hd|]. exact HvI. }
    split; [left; discriminate|].
    split; [split; [intros HF; rewrite HF in HFl; simpl in HFl; lia | exact HvF]|].
    split; [reflexivity|]. cbn [frac_len]. rewrite HFl in Hsum |- *.
    rewrite Z2Nat.id in Hsum |- * by lia. split; lia. }
  destruct ((-6 <? p + k) && (p + k <=? 0)) eqn:E8.
  { (* 0.000ddd *)
    apply andb_prop in E8 as [E1 E2]. apply Z.ltb_lt in E1. apply Z.leb_le in E2.
    exists "0", 0, (Some (Float64.zeros (Z.to_nat (- (p + k))) ++ s)), (Z.abs c), None, 0.
    split; [destruct (c <? 0); cbn [frac_text exp_text]; rewrite ?str_app_nil_r, ?str_app_assoc; reflexivity|].
    split; [left; split; reflexivity|].
    split; [left; discriminate|].
    split; [split; [rewrite Hs; destruct (Z.to_nat (- (p + k))); discriminate|
                    rewrite parse_digits_zeros; exact Hv]|].
    split; [reflexivity|]. cbn [frac_len]. rewrite str_length_app, zeros_length.
    split; [lia|]. unfold k in *. lia. }
  (* exponent forms *)
  set (ee := p + k - 1).
  destruct (Z_to_string_nonneg (Z.abs ee) ltac:(lia)) as [He0 Hve].
  assert (Hexp : (if ee <? 0 then "-" else "+") ++ Z_to_string (Z.abs ee) =
                 String (if ee <? 0 then "-"%char else "+"%char) (Z_to_string (Z.abs ee)))
    by (destruct (ee <? 0); reflexivity).
  rewrite Hexp.
  destruct (k =? 1) eqn:E9.
  { apply Z.eqb_eq in E9.
    exists s, (Z.abs c), None, 0, (Some (ee <? 0, Z_to_string (Z.abs ee))), ee.
    split; [destruct (c <? 0); cbn [frac_text exp_text]; rewrite ?str_app_assoc; reflexivity|].
    split; [right; exists ch, r, d; auto|].
    split; [right; discriminate|]. split; [reflexivity|].
    split; [split; [exact He0|]; exists (Z.abs ee); split; [exact Hve|];
            destruct (ee <? 0) eqn:Ee; [apply Z.ltb_lt in Ee | apply Z.ltb_ge in Ee]; lia|].
    cbn [frac_len]. split; [lia|]. unfold ee. lia. }
  { apply Z.eqb_neq in E9.
    set (I := substring 0 1 s). set (F := substring 1 (Z.to_nat (k - 1)) s).
    assert (HIF : I ++ F = s).
    { unfold I, F. replace (Z.to_nat (k - 1)) with (String.length s - 1)%nat by (unfold k in *; lia).
      apply substring_split. unfold k in *; lia. }
    assert (HFl : String.length F = Z.to_nat (k - 1)) by (apply substring_length; unfold k in *; lia).
    rewrite <- HIF in Hv. destruct (parse_digits_split I F _ Hv) as (vi & vf & HvI & HvF & Hsum).
    exists I, vi, (Some F), vf, (Some (ee <? 0, Z_to_string (Z.abs ee))), ee.
    split; [destruct (c <? 0); cbn [frac_text exp_text]; rewrite ?str_app_assoc; reflexivity|].
    split; [right; exists ch, (substring 0 0 r), d; split; [unfold I; rewrite Hs; reflexivity|]; auto|].
    split; [left; discriminate|].
    split; [split; [intros HF; rewrite HF in HFl; simpl in HFl; lia | exact HvF]|].
    split; [split; [exact He0|]; exists (Z.abs ee); split; [exact Hve|];
            destruct (ee <? 0) eqn:Ee; [apply Z.ltb_lt in Ee | apply Z.ltb_ge in Ee]; lia|].
    cbn [frac_len]. rewrite HFl in Hsum |- *. rewrite Z2Nat.id in Hsum |- * by lia. split; [lia|]. unfold ee. lia. }
Qed.

Lemma canon_nonzero (c p : Z) : Float64.canon c p = true -> c <> 0.
Proof.
  intros H ->. unfold Float64.canon, Float64.round64_Q, Float64.dec_Q in H.
  destruct (0 <=? p); cbn [fst snd] in H; rewrite ?Z.mul_0_l in H;
    unfold Float64.round64 in H; rewrite Z.eqb_refl in H; vm_compute in H; discriminate H.
Qed.

Lemma canon_not_int_form (c p : Z) : Float64.canon c p = true -> Float64.int_form c p = false.
Proof.
  unfold Float64.canon. destruct (Float64.round64_Q (Float64.dec_Q c p)); [|discriminate].
  destruct (Float64.classify d); [discriminate|].
  intros H. apply andb_prop in H as [_ H]. destruct (Float64.int_form c p); [discriminate|reflexivity].
Qed.

Lemma number_of_decimal_canon (c p : Z) (H : Float64.canon c p = true) :
  number_of_decimal c p = JDec c p H.
Proof.
  unfold number_of_decimal. pose proof H as H0. unfold Float64.canon in H0.
  destruct (Float64.round64_Q (Float64.dec_Q c p)) as [x|]; [|discriminate].
  destruct (Float64.classify x) as [z|c' p']; [discriminate|].
  apply andb_prop in H0 as [H0 _]. apply andb_prop in H0 as [E1 E2].
  apply Z.eqb_eq in E1, E2. subst c' p'.
  destruct (Bool.bool_dec (Float64.canon c p) true) as [H'|H']; [|contradiction].
  f_equal. apply Eqdep_dec.UIP_dec, Bool.bool_dec.
Qed.

Lemma parse_number_to_string (c p : Z) (H : Float64.canon c p = true) (rest : string) :
  follows_value rest ->
  parse_number (Float64.to_string c p ++ rest) = Some (JDec c p H, rest).
Proof.
  intros Hr.
  destruct (to_string_shape c p (canon_nonzero c p H) (canon_not_int_form c p H))
    as (I & vi & fr & vf & ex & ve & Hs & HI & Hne & Hf & He & Hv & Hp).
  rewrite Hs, !str_app_assoc.
  rewrite (parse_number_shape (c <? 0) I vi fr vf ex ve rest HI Hne Hf He Hr).
  rewrite Hv, Hp, <- (number_of_decimal_canon c p H).
  replace (if c <? 0 then - Z.abs c else Z.abs c) with c; [reflexivity|].
  destruct (c <? 0) eqn:Ec; [apply Z.ltb_lt in Ec | apply Z.ltb_ge in Ec]; lia.
Qed.

Lemma to_string_head (c p : Z) (H : Float64.canon c p = true) :
  exists ch r, Float64.to_string c p = String ch r /\ (ch = "-"%char \/ char_digit ch <> None).
Proof.
  destruct (to_string_shape c p (canon_nonzero c p H) (canon_not_int_form c p H))
    as (I & vi & fr & vf & ex & ve & Hs & HI & _).
  rewrite Hs. destruct (c <? 0).
  - eexists _, _. split; [reflexivity|left; reflexivity].
  - destruct HI as [[-> _]|(ch & r & d & -> & Hd & _)].
    + eexists _, _. split; [reflexivity|]. right. intros H'. vm_compute in H'. discriminate H'.
    + eexists _, _. split; [reflexivity|]. right. rewrite Hd. discriminate.
Qed.

Lemma stringify_first (v : json) : exists c r, stringify v = String c r /\ In c first_chars.
Proof.
  destruct v as [| [] |z|c p H|s|l|kvs]; try (eexists _, _; split; [reflexivity|]; simpl; tauto).
  - apply Z_to_string_first.
  - destruct (to_string_head c p H) as (ch & r & Hs & [->|Hd]); cbn [stringify]; rewrite Hs.
    + eexists _, _. split; [reflexivity|]. simpl; tauto.
    + exists ch, r. split; [reflexivity|]. apply char_digit_first, Hd.
Qed.

Ltac first_cases H :=
  repeat (destruct H as [<-|H]); [..|contradiction H].

Lemma skip_ws_stringify (v : json) (r : string) : skip_ws (stringify v ++ r) = stringify v ++ r.
Proof.
  destruct (stringify_first v) as (c & t & -> & Hc). first_cases Hc; reflexivity.
Qed.

Lemma skip_ws_follows (r : string) : follows_value r -> skip_ws r = r.
Proof. intros [->|(c & t & -> & Hc)]; [reflexivity|]. first_cases Hc; reflexivity. Qed.

Lemma dispatch_number (f : nat) (c : ascii) (r : string) :
  c = "-"%char \/ char_digit c <> None ->
  parse_value (S f) (String c r) = parse_number (String c r).
Proof.
  intros H. destruct c as [[] [] [] [] [] [] [] []];
    try reflexivity; exfalso; destruct H as [H|H]; try discriminate H; apply H; reflexivity.
Qed.

Lemma join_cons2 (sep a b : string) (l : list string) :
  join sep (a :: b :: l) = a ++ sep ++ join sep (b :: l).
Proof. reflexivity. Qed.

Lemma str_lit1_app (c : ascii) (t : string) : String c EmptyString ++ t = String c t.
Proof. reflexivity. Qed.

Lemma elems_ok (f : nat) (l : list json) (acc : list json) (g : nat) (rest : string) :
  l <> [] -> (length l <= g)%nat ->
  (forall x, In x l -> forall r, follows_value r -> parse_value f (stringify x ++ r) = Some (x, r)) ->
  parse_elems f g (join "," (map stringify l) ++ String "]" rest) acc = Some (JArr (acc ++ l), rest).
Proof.
  revert acc g. induction l as [|x l IH]; intros acc g Hne Hg Hall; [contradiction|].
  destruct g as [|g]; [simpl in Hg; lia|].
  destruct l as [|y l].
  - cbn [map join]. cbn [parse_elems].
    rewrite (Hall x (or_introl eq_refl)) by (right; do 2 eexists; split; [reflexivity|]; simpl; tauto).
    reflexivity.
  - cbn [map]. rewrite join_cons2, !str_app_assoc, str_lit1_app. cbn [parse_elems].
    rewrite (Hall x (or_introl eq_refl)) by (right; do 2 eexists; split; [reflexivity|]; simpl; tauto).
    cbn [skip_ws]. replace (is_ws ","%char) with false by reflexivity. cbv iota beta.
    change (join "," (stringify y :: map stringify l)) with (join "," (map stringify (y :: l))).
    assert (Hsk : skip_ws (join "," (map stringify (y :: l)) ++ String "]" rest) =
                  join "," (map stringify (y :: l)) ++ String "]" rest).
    { destruct l as [|z l]; [apply skip_ws_stringify|].
      cbn [map]. rewrite join_cons2, !str_app_assoc. apply skip_ws_stringify. }
    rewrite Hsk, (IH (acc ++ [x])%list g); [| discriminate | simpl in *; lia | intros; apply Hall; simpl; tauto].
    rewrite <- app_assoc. reflexivity.
Qed.

Lemma quote_app (k t : string) : quote k ++ t = String DQ (escape k ++ String DQ t).
Proof. unfold quote. rewrite str_cons_app, str_app_assoc. reflexivity. Qed.

Lemma members_ok (f : nat) (kvs : list (string * json)) (acc : list (string * json)) (g : nat) (rest : string) :
  kvs <> [] -> (length kvs <= g)%nat ->
  (forall kv, In kv kvs -> forall r, follows_value r -> parse_value f (stringify (snd kv) ++ r) = Some (snd kv, r)) ->
  parse_members f g (join "," (map (fun kv => quote (fst kv) ++ ":" ++ stringify (snd kv)) kvs) ++ String "}" rest) acc
  = Some (JObj (acc ++ kvs), rest).
Proof.
  revert acc g. induction kvs as [|[k v] kvs IH]; intros acc g Hne Hg Hall; [contradiction|].
  destruct g as [|g]; [simpl in Hg; lia|].
  destruct kvs as [|kv2 kvs].
  - cbn [map join fst snd]. rewrite !str_app_assoc, quote_app, str_lit1_app. cbn [parse_members].
    rewrite parse_string_body_escape. cbn [skip_ws]. replace (is_ws ":"%char) with false by reflexivity.
    cbv iota beta. rewrite skip_ws_stringify.
    rewrite (Hall (k, v) (or_introl eq_refl)) by (right; do 2 eexists; split; [reflexivity|]; simpl; tauto).
    cbn [skip_ws]. replace (is_ws "}"%char) with false by reflexivity. reflexivity.
  - cbn [map]. rewrite join_cons2. cbn [fst snd]. rewrite !str_app_assoc, quote_app, !str_lit1_app.
    cbn [parse_members].
    rewrite parse_string_body_escape. cbn [skip_ws]. replace (is_ws ":"%char) with false by reflexivity.
    cbv iota beta. rewrite skip_ws_stringify.
    rewrite (Hall (k, v) (or_introl eq_refl)) by (right; do 2 eexists; split; [reflexivity|]; simpl; tauto).
    cbn [skip_ws]. replace (is_ws ","%char) with false by reflexivity. cbv iota beta.
    change (join "," ((quote (fst kv2) ++ ":" ++ stringify (snd kv2)) ::
                      map (fun kv => quote (fst kv) ++ ":" ++ stringify (snd kv)) kvs))
      with (join "," (map (fun kv => quote (fst kv) ++ ":" ++ stringify (snd kv)) (kv2 :: kvs))).
    assert (Hsk : forall t, skip_ws (join "," (map (fun kv => quote (fst kv) ++ ":" ++ stringify (snd kv)) (kv2 :: kvs)) ++ t) =
                  join "," (map (fun kv => quote (fst kv) ++ ":" ++ stringify (snd kv)) (kv2 :: kvs)) ++ t).
    { intros t. destruct kvs as [|kv3 kvs].
      - cbn [map join]. rewrite !str_app_assoc, quote_app; reflexivity.
      - cbn [map]. rewrite join_cons2, !str_app_assoc, quote_app; reflexivity. }
    rewrite Hsk. cbn [snd]. rewrite (IH (acc ++ [(k, v)])%list g); [| discriminate | simpl in *; lia | intros; apply Hall; simpl; tauto].
    rewrite <- app_assoc. reflexivity.
Qed.

Lemma Z_to_string_head (z : Z) :
  exists c r, Z_to_string z = String c r /\ (c = "-"%char \/ char_digit c <> None).
Proof.
  destruct (Z_to_string_shape z) as (ds & Hz & _ & Hc). rewrite Hz. destruct (z <? 0).
  - eexists _, _. split; [reflexivity|left; reflexivity].
  - destruct Hc as [[_ ->]|(c & r & d & -> & Hd & _)].
    + eexists _, _. split; [reflexivity|]. right. intros H. vm_compute in H. discriminate H.
    + eexists _, _. split; [reflexivity|]. right. rewrite Hd. discriminate.
Qed.

Lemma parse_value_str (f : nat) (r : string) :
  parse_value (S f) (String DQ r) = option_map (fun '(str, r') => (JStr str, r')) (parse_string_body r).
Proof. reflexivity. Qed.

Lemma parse_value_arr_ne (f : nat) (c : ascii) (t : string) :
  In c first_chars -> parse_value (S f) (String "[" (String c t)) = parse_elems f f (String c t) [].
Proof. intros Hc. first_cases Hc; reflexivity. Qed.

Lemma parse_value_obj_ne (f : nat) (c : ascii) (t : string) :
  In c first_chars -> parse_value (S f) (String "{" (String c t)) = parse_members f f (String c t) [].
Proof. intros Hc. first_cases Hc; reflexivity. Qed.

Lemma join_head (sep : string) (l : list string) (x : string) (c : ascii) (r t : string) :
  x = String c r -> exists u, join sep (x :: l) ++ t = String c u.
Proof.
  intros Hx. destruct l as [|y l].
  - cbn [join]. rewrite Hx. eexists; reflexivity.
  - rewrite join_cons2, Hx. eexists; reflexivity.
Qed.

Lemma bracket_text (o cl : ascii) (j rest : string) :
  (String o EmptyString ++ j ++ String cl EmptyString) ++ rest = String o (j ++ String cl rest).
Proof. rewrite !str_app_assoc, !str_lit1_app. reflexivity. Qed.

Lemma list_max_in (l : list nat) (n k : nat) : (list_max l <= n)%nat -> In k l -> (k <= n)%nat.
Proof. intros H Hk. apply list_max_le in H. exact (proj1 (List.Forall_forall _ _) H k Hk). Qed.

Lemma parse_value_stringify (f : nat) :
  forall v rest, (need v <= f)%nat -> follows_value rest ->
  parse_value f (stringify v ++ rest) = Some (v, rest).
Proof.
  induction f as [|f IH]; intros v rest Hn Hf.
  { destruct v; simpl in Hn; lia. }
  destruct v as [| [] |z|c p H|s|l|kvs].
  - reflexivity.
  - reflexivity.
  - reflexivity.
  - destruct (Z_to_string_head z) as (c & r & Hz & Hc). cbn [stringify].
    rewrite <- (parse_number_Z z rest Hf), Hz, str_cons_app. apply dispatch_number; exact Hc.
  - destruct (to_string_head c p H) as (ch & r & Hs & Hc). cbn [stringify].
    rewrite <- (parse_number_to_string c p H rest Hf), Hs, str_cons_app. apply dispatch_number; exact Hc.
  - cbn [stringify]. rewrite quote_app, parse_value_str, parse_string_body_escape. reflexivity.
  - cbn [stringify need] in *. destruct l as [|x l']; [reflexivity|].
    rewrite (bracket_text "[" "]"). cbn [map].
    destruct (stringify_first x) as (c & r & Hx & Hc).
    destruct (join_head "," (map stringify l') (stringify x) c r (String "]" rest) Hx) as (u & Hu).
    rewrite Hu, parse_value_arr_ne by exact Hc. rewrite <- Hu.
    change (stringify x :: map stringify l') with (map stringify (x :: l')).
    rewrite elems_ok; [reflexivity | discriminate | lia |].
    intros y Hy r' Hr'. apply IH; [|exact Hr'].
    apply (list_max_in (map need (x :: l'))); [lia|]. apply in_map, Hy.
  - cbn [stringify need] in *. destruct kvs as [|[k v] kvs']; [reflexivity|].
    rewrite (bracket_text "{" "}"). cbn [map].
    destruct (join_head "," (map (fun kv => quote (fst kv) ++ ":" ++ stringify (snd kv)) kvs')
                (quote (fst (k, v)) ++ ":" ++ stringify (snd (k, v))) DQ
                (escape k ++ String DQ (":" ++ stringify v)) (String "}" rest)) as (u & Hu).
    { cbn [fst snd]. rewrite quote_app. reflexivity. }
    rewrite Hu, parse_value_obj_ne by (simpl; tauto). rewrite <- Hu.
    change ((quote (fst (k, v)) ++ ":" ++ stringify (snd (k, v))) ::
            map (fun kv => quote (fst kv) ++ ":" ++ stringify (snd kv)) kvs')
      with (map (fun kv => quote (fst kv) ++ ":" ++ stringify (snd kv)) ((k, v) :: kvs')).
    rewrite members_ok; [reflexivity | discriminate | lia |].
    intros kv Hkv r' Hr'. apply IH; [|exact Hr'].
    apply (list_max_in (map (fun kv => need (snd kv)) ((k, v) :: kvs'))); [lia|].
    apply (in_map (fun kv => need (snd kv))), Hkv.
Qed.

Lemma join_length_ge (sep : string) (l : list string) :
  (forall s, In s l -> 1 <= String.length s)%nat -> (length l <= String.length (join sep l))%nat.
Proof.
  induction l as [|x l IH]; intros H; [simpl; lia|].
  pose proof (H x (or_introl eq_refl)) as Hx.
  destruct l as [|y l].
  - cbn [join]. change (length [x]) with 1%nat. lia.
  - rewrite join_cons2, !str_length_app.
    pose proof (IH (fun s Hs => H s (or_intror Hs))) as Hl. cbn [length] in *. lia.
Qed.

Lemma in_join_length (sep : string) (l : list string) (s : string) :
  In s l -> (String.length s <= String.length (join sep l))%nat.
Proof.
  induction l as [|x l IH]; intros Hs; [destruct Hs|].
  destruct l as [|y l].
  - destruct Hs as [<-|[]]. cbn [join]. lia.
  - rewrite join_cons2, !str_length_app. destruct Hs as [<-|Hs]; [lia|]. specialize (IH Hs). lia.
Qed.

Lemma stringify_length_pos (v : json) : (1 <= String.length (stringify v))%nat.
Proof. destruct (stringify_first v) as (c & r & -> & _). simpl. lia. Qed.

Lemma need_le_length (n : nat) :
  forall v, (String.length (stringify v) <= n)%nat -> (need v <= String.length (stringify v))%nat.
Proof.
  induction n as [|n IH]; intros v Hl.
  { pose proof (stringify_length_pos v). lia. }
  pose proof (stringify_length_pos v) as Hpos.
  destruct v as [| [] |z|c p H|s|l|kvs]; try (cbn [need]; lia).
  - revert Hl Hpos. cbn [stringify need]. rewrite !str_length_app. cbn [String.length]. intros Hl _.
    assert (Hlen : (length l <= String.length (join "," (map stringify l)))%nat).
    { rewrite <- (length_map stringify l). apply join_length_ge.
      intros s Hs. apply in_map_iff in Hs as (y & <- & _). apply stringify_length_pos. }
    assert (Hmax : (list_max (map need l) <= String.length (join "," (map stringify l)))%nat).
    { apply list_max_le, List.Forall_forall. intros k Hk. apply in_map_iff in Hk as (y & <- & Hy).
      pose proof (in_join_length "," (map stringify l) (stringify y) (in_map _ _ _ Hy)) as Hj.
      pose proof (IH y ltac:(lia)). lia. }
    lia.
  - revert Hl Hpos. cbn [stringify need]. rewrite !str_length_app. cbn [String.length].
    set (pc := fun kv : string * json => quote (fst kv) ++ ":" ++ stringify (snd kv)). intros Hl _.
    assert (Hpc : forall kv, (String.length (stringify (snd kv)) <= String.length (pc kv))%nat).
    { intros kv. unfold pc. rewrite !str_length_app. lia. }
    assert (Hlen : (length kvs <= String.length (join "," (map pc kvs)))%nat).
    { rewrite <- (length_map pc kvs). apply join_length_ge.
      intros s Hs. apply in_map_iff in Hs as (kv & <- & _).
      pose proof (Hpc kv). pose proof (stringify_length_pos (snd kv)). lia. }
    assert (Hmax : (list_max (map (fun kv => need (snd kv)) kvs) <= String.length (join "," (map pc kvs)))%nat).
    { apply list_max_le, List.Forall_forall. intros k Hk. apply in_map_iff in Hk as (kv & <- & Hkv).
      pose proof (in_join_length "," (map pc kvs) (pc kv) (in_map _ _ _ Hkv)) as Hj.
      pose proof (Hpc kv). pose proof (IH (snd kv) ltac:(lia)). lia. }
    lia.
Qed.

Lemma parse_stringify (v : json) : parse (stringify v) = Some v.
Proof.
  unfold parse.
  rewrite <- (str_app_nil_r (stringify v)), skip_ws_stringify, parse_value_stringify.
  - reflexivity.
  - pose proof (need_le_length _ v (le_n _)). rewrite str_app_nil_r. lia.
  - left; reflexivity.
Qed.

End JSONRoundTrip.

Module DestOpsFacts.
Import JSON Destinations DestOps.

Lemma getAllDestinations_stringify (l : list json) :
  getAllDestinations_of (Ok (Some (stringify (JArr l)))) = l.
Proof.
  unfold getAllDestinations_of. rewrite JSONRoundTrip.parse_stringify.
  replace (str_truthy (stringify (JArr l))) with true; [reflexivity|].
  cbn [stringify]. reflexivity.
Qed.

Lemma filter_id_ok (l : list json) (id : string) :
  (forall d, In d l -> d <> JNull) ->
  filter_id l id = Ok (List.filter (fun d => negb (has_id d id)) l).
Proof.
  induction l as [|d l IH]; intros Hn; [reflexivity|].
  cbn [filter_id List.filter].
  rewrite IH by (intros x Hx; apply Hn; right; exact Hx).
  destruct d as [| | | | | |kvs]; try reflexivity.
  - exfalso. exact (Hn JNull (or_introl eq_refl) eq_refl).
  - cbn [id_of has_id]. destruct (id_matches (get_prop kvs "id") id); reflexivity.
Qed.

Lemma filter_id_null (l : list json) (id : string) :
  In JNull l -> exists e, filter_id l id = Err e.
Proof.
  induction l as [|d l IH]; intros Hin; [destruct Hin|].
  cbn [filter_id]. destruct Hin as [->|Hin]; [eexists; reflexivity|].
  destruct (id_of d); [|eexists; reflexivity].
  destruct (IH Hin) as [e ->]. eexists; reflexivity.
Qed.

Lemma find_id_none (l : list json) (id : string) :
  (forall d, In d l -> d <> JNull) -> (forall d, In d l -> has_id d id = false) ->
  find_id l id = Ok None.
Proof.
  induction l as [|d l IH]; intros Hn Hh; [reflexivity|].
  cbn [find_id].
  assert (Hd := Hh d (or_introl eq_refl)).
  rewrite IH; [| intros x Hx; apply Hn; right; exact Hx | intros x Hx; apply Hh; right; exact Hx].
  destruct d; try reflexivity.
  - exfalso. exact (Hn JNull (or_introl eq_refl) eq_refl).
  - cbn [id_of]. cbn [has_id] in Hd. rewrite Hd. reflexivity.
Qed.

Lemma filter_rest_ok (l : list json) (n : string) (r : list json) :
  filter_rest l n = Ok r -> r = List.filter (fun d => keeps_server d n) l.
Proof.
  revert r. induction l as [|d l IH]; intros r H; cbn [filter_rest] in H.
  - injection H as <-. reflexivity.
  - cbn [List.filter]. unfold keeps_server at 1.
    destruct (normalize_server_of d) as [m|e]; [|discriminate].
    destruct (filter_rest l n) as [r'|e] eqn:E; [|discriminate].
    injection H as <-. rewrite (IH r' eq_refl).
    destruct (String.eqb m n); reflexivity.
Qed.

(** Whatever list of JSON values is written under the destinations key with
    [JSON.stringify] (as [addDestination] and [removeDestination] do),
    [getAllDestinations()] reads the same list back, element for element. *)
Theorem getAllDestinations_after_write (l : list json) (s : store) :
  getAllDestinations (<[DESTINATIONS_KEY := stringify (JArr l)]> s) =
  (Ok l, <[DESTINATIONS_KEY := stringify (JArr l)]> s).
Proof.
  unfold getAllDestinations. rewrite lookup_insert_eq, getAllDestinations_stringify. reflexivity.
Qed.

(** When no stored destination is null, [removeDestination(id)] resolves
    and writes back exactly the stored destinations whose [id] is not the
    string [id], in their order; [getAllDestinations()] then returns that list
    and [getDestination(id)] resolves to null. *)
Theorem removeDestination_removes (id : string) (s : store) :
  (forall d, In d (stored_destinations s) -> d <> JNull) ->
  let kept := List.filter (fun d => negb (has_id d id)) (stored_destinations s) in
  let s' := <[DESTINATIONS_KEY := stringify (JArr kept)]> s in
  removeDestination id s = (Ok tt, s') /\
  stored_destinations s' = kept /\
  getDestination id s' = (Ok None, s').
Proof.
  intros Hn kept s'.
  assert (Hs' : stored_destinations s' = kept).
  { unfold stored_destinations, s'. rewrite lookup_insert_eq. apply getAllDestinations_stringify. }
  split; [|split; [exact Hs'|]].
  - unfold removeDestination, bind, getAllDestinations. cbv beta iota.
    fold (stored_destinations s). rewrite filter_id_ok by exact Hn. reflexivity.
  - unfold getDestination, bind, getAllDestinations. cbv beta iota.
    fold (stored_destinations s'). rewrite Hs', find_id_none; [reflexivity| |].
    + intros d Hd. apply Hn. unfold kept in Hd. apply filter_In in Hd. apply Hd.
    + intros d Hd. unfold kept in Hd. apply filter_In in Hd as [_ Hd].
      destruct (has_id d id); [discriminate|reflexivity].
Qed.

(** A null among the stored destinations makes [removeDestination(id)]
    reject (reading [id] of null) without writing the store. *)
Theorem removeDestination_null_rejects (id : string) (s : store) :
  In JNull (stored_destinations s) -> exists e, removeDestination id s = (Err e, s).
Proof.
  intros Hin. destruct (filter_id_null _ id Hin) as [e He]. exists e.
  unfold removeDestination, bind, getAllDestinations. cbv beta iota.
  fold (stored_destinations s). rewrite He. reflexivity.
Qed.

(** When [addDestination(server, token, name)] resolves, it changed only the
    destinations key, and [getAllDestinations()] afterwards returns the
    previously stored destinations whose normalized server differs from
    [normalizeServerUrl(server)], in their order, followed by one new entry
    with fields [id], [name], [server] (the normalized server), [token] and
    [expiresAt], in that order. *)
Theorem addDestination_stored (server token : string) (name : option string) (uuid : string)
    (now : Z) (s s' : store) :
  addDestination server token name uuid now s = (Ok tt, s') ->
  (forall k, k <> DESTINATIONS_KEY -> s' !! k = s !! k) /\
  exists id nm exp,
    stored_destinations s' =
    (List.filter (fun d => keeps_server d (normalizeServerUrl server)) (stored_destinations s) ++
     [JObj [("id", id); ("name", JStr nm); ("server", JStr (normalizeServerUrl server));
            ("token", JStr token); ("expiresAt", JStr exp)]])%list.
Proof.
  intros H. unfold addDestination, bind, getAllDestinations in H. cbv beta iota in H.
  fold (stored_destinations s) in H.
  destruct (find_existing (stored_destinations s) (normalizeServerUrl server)) as [ex|e];
    [|discriminate H].
  destruct (match parseExpiresAtFromToken token with
            | Some x => Some x
            | None => Platform.toISOString (now + THIRTY_DAYS_MS)
            end) as [exp|]; [|discriminate H].
  destruct (filter_rest (stored_destinations s) (normalizeServerUrl server)) as [rest|e] eqn:Hf;
    [|discriminate H].
  unfold setItemAsync in H. injection H as <-. split.
  - intros k Hk. apply lookup_insert_ne. congruence.
  - eexists _, _, _. unfold stored_destinations.
    rewrite lookup_insert_eq. etransitivity; [exact (getAllDestinations_stringify (rest ++ [_])%list)|].
    rewrite (filter_rest_ok _ _ _ Hf). reflexivity.
Qed.

Lemma removeDestination_removes_witness :
  let s := <[DESTINATIONS_KEY := stringify (JArr [JObj [("id", JStr "a")]; JObj [("id", JStr "b")]])]> (∅ : store) in
  let s' := <[DESTINATIONS_KEY := stringify (JArr (List.filter (fun d => negb (has_id d "a")) (stored_destinations s)))]> s in
  (forall d, In d (stored_destinations s) -> d <> JNull) /\
  removeDestination "a" s = (Ok tt, s') /\
  stored_destinations s' = [JObj [("id", JStr "b")]] /\
  getDestination "a" s' = (Ok None, s').
Proof.
  intros s s'.
  assert (Hn : forall d, In d (stored_destinations s) -> d <> JNull).
  { intros d Hd. vm_compute in Hd. destruct Hd as [<-|[<-|[]]]; discriminate. }
  destruct (removeDestination_removes "a" s Hn) as (H1 & H2 & H3).
  split; [exact Hn|split; [exact H1|split; [|exact H3]]]. etransitivity; [exact H2|vm_compute; reflexivity].
Defined.

Lemma removeDestination_null_rejects_witness :
  In JNull (stored_destinations (<[DESTINATIONS_KEY := stringify (JArr [JNull])]> (∅ : store))) /\ exists e, removeDestination "a" (<[DESTINATIONS_KEY := stringify (JArr [JNull])]> (∅ : store))
            = (Err e, <[DESTINATIONS_KEY := stringify (JArr [JNull])]> (∅ : store)).
Proof.
  assert (H : In JNull (stored_destinations (<[DESTINATIONS_KEY := stringify (JArr [JNull])]> (∅ : store))))
    by (vm_compute; left; reflexivity).
  split; [exact H|]. exact (removeDestination_null_rejects "a" _ H).
Defined.

Lemma addDestination_stored_witness :
  let s' := snd (addDestination "https://vault.example.com" "t1" None "u1" 1000 ∅) in
  addDestination "https://vault.example.com" "t1" None "u1" 1000 ∅ = (Ok tt, s') /\ (forall k, k <> DESTINATIONS_KEY -> s' !! k = (∅ : store) !! k) /\ exists id nm exp,
    stored_destinations s' =
    (List.filter (fun d => keeps_server d (normalizeServerUrl "https://vault.example.com")) (stored_destinations ∅) ++
     [JObj [("id", id); ("name", JStr nm); ("server", JStr (normalizeServerUrl "https://vault.example.com"));
            ("token", JStr "t1"); ("expiresAt", JStr exp)]])%list.
Proof.
  intros s'.
  assert (H : addDestination "https://vault.example.com" "t1" None "u1" 1000 ∅ = (Ok tt, s'))
    by (vm_compute; reflexivity).
  split; [exact H|]. exact (addDestination_stored _ _ _ _ _ _ _ H).
Defined.

End DestOpsFacts.
